(** * The free-space manager of bolt: spans, span lists and the free list

    A shallow embedding of [freespan.go] and of the free list source
    ([freelist], [allocate], [free], [release], [rollback], [freed], [read],
    [write], [reload]).

    Conventions of the embedding:
    - a Go [uint64] ([freespan], [pgid], [txid]) is a [Z] in [0, 2^64); every
      arithmetic operation that can leave that range is wrapped by [wrap64];
    - a Go slice is a [list]; an indexed read or write is checked, and an
      index outside the slice is the run-time panic of Go;
    - a Go [panic] is the [Panic] outcome, carrying the message;
    - the [pending] map is a [gmap]; the only places that range over it
      concatenate its values and then sort, sum lengths, or take a
      disjunction, so the iteration order of Go's map is not observable. *)

From stdpp Require Import base list gmap strings sorting.
From Stdlib Require Import ZArith Lia Permutation Sorted.

Local Open Scope Z_scope.

(** ** Outcomes *)

Inductive outcome (A : Type) : Type :=
| Ok (a : A)
| Panic (msg : string)
| MemFault.
Arguments Ok {A} a.
Arguments Panic {A} msg.
Arguments MemFault {A}.

Definition obind {A B : Type} (m : outcome A) (k : A → outcome B) : outcome B :=
  match m with
  | Ok a => k a
  | Panic msg => Panic msg
  | MemFault => MemFault
  end.

Notation "x ←! m ; k" := (obind m (fun x => k))
  (at level 20, m at level 100, k at level 200, right associativity,
   format "x  ←!  m ;  '/' k").
Notation "' p ←! m ; k" := (obind m (fun x => let 'p := x in k))
  (at level 20, p pattern, m at level 100, k at level 200,
   right associativity).

Definition returns {A : Type} (m : outcome A) : Prop := ∃ a, m = Ok a.

(** ** Machine integers *)

Definition wrap64 (z : Z) : Z := z mod 2 ^ 64.
Definition is_uint64 (z : Z) : Prop := 0 ≤ z < 2 ^ 64.
Definition maxInt : Z := 2 ^ 63 - 1.

(** [int(x)] for a [uint64] x: the two's complement reading. *)
Definition int_of_uint64 (z : Z) : Z := if z <? 2 ^ 63 then z else z - 2 ^ 64.

(** ** Spans (freespan.go) *)

Definition freespan := Z.
Definition pgid := Z.
Definition txid := Z.

Definition freespanSizeBits : Z := 16.
Definition freespanStartBits : Z := 64 - freespanSizeBits.
Definition freespanStartShift : Z := freespanSizeBits.
Definition freespanSizeMask : Z := Z.shiftl 1 freespanSizeBits - 1.
Definition freespanMaxSize : Z := freespanSizeMask.
Definition freespanMaxStart : Z := Z.shiftl 1 freespanStartBits - 1.
Definition freespanZero : freespan := 0.

Definition makeFreespan (start : pgid) (size : Z) : outcome freespan :=
  if start >? freespanMaxStart then Panic "makeFreespan start too large"
  else if size >? freespanMaxSize then Panic "makeFreespan size too large"
  else Ok (wrap64 (wrap64 (Z.shiftl start freespanStartShift) + size)).

Module Span.

Definition start (s : freespan) : pgid := Z.shiftr s freespanStartShift.

Definition size (s : freespan) : Z := Z.land s freespanSizeMask.

Definition end_ (s : freespan) : outcome pgid :=
  let sz := size s in
  if sz =? 0 then Panic "size 0 spans have no end"
  else Ok (wrap64 (wrap64 (start s + sz) - 1)).

Definition next (s : freespan) : pgid := wrap64 (start s + size s).

Definition contains (s : freespan) (pg : pgid) : bool :=
  negb (size s =? 0) && (wrap64 (pg - start s) <? size s).

Definition overlaps (s t : freespan) : bool :=
  if start t <? start s then contains t (start s) else contains s (start t).

Definition append (s t : freespan) : outcome (freespan * freespan) :=
  if start t <? start s then Panic "freespan append out of order"
  else if overlaps s t then Panic "freespan append overlaps"
  else
    let s := if size s =? 0 then 0 else s in
    let t := if size t =? 0 then 0 else t in
    if s =? 0 then Ok (t, 0)
    else if t =? 0 then Ok (s, 0)
    else
      e ←! end_ s;
      if negb (wrap64 (e + 1) =? start t) then Ok (s, t)
      else
        let sz := wrap64 (size s + size t) in
        if sz >? freespanMaxSize then
          first ←! makeFreespan (start s) freespanMaxSize;
          second ←! makeFreespan (wrap64 (start s + freespanMaxSize))
                                 (wrap64 (sz - freespanMaxSize));
          Ok (first, second)
        else
          u ←! makeFreespan (start s) sz;
          Ok (u, 0).

End Span.

(** The pair [(start, size)] as a packed word, for statements. *)
Definition pack (start size : Z) : freespan := start * 2 ^ 16 + size.

(** ** Slices *)

(** [l[i]]: a checked read. *)
Definition index {A : Type} (l : list A) (i : nat) : outcome A :=
  match l !! i with
  | Some x => Ok x
  | None => Panic "index out of range"
  end.

(** [l[i]] inside a closure that is only called with [i < len(l)]. *)
Definition at_ (l : list freespan) (i : nat) : freespan := nth i l 0.

(** [copy(l[d:], l[s:])] on one backing array: [min(len(l)-d, len(l)-s)]
    elements move, as by memmove. *)
Definition copy_within (l : list freespan) (d s : nat) : list freespan :=
  let k := Nat.min (length l - d)%nat (length l - s)%nat in
  take d l ++ take k (drop s l) ++ drop (d + k)%nat l.

(** ** The two functions of Go's package sort that the source calls *)

(** [sort.Search(n, f)]: the binary search of the Go library,
    [i, j := 0, n; for i < j { h := (i+j)/2; if !f(h) { i = h+1 } else { j = h } }; return i].
    The interval shrinks at every turn, so [n] turns of fuel are enough
    ([search_loop_fuel] below). *)
Fixpoint search_loop (fuel : nat) (f : nat → bool) (i j : nat) : nat :=
  match fuel with
  | O => i
  | S fuel' =>
      if (i <? j)%nat then
        let h := ((i + j) / 2)%nat in
        if negb (f h) then search_loop fuel' f (S h) j
        else search_loop fuel' f i h
      else i
  end.

Definition sort_Search (n : nat) (f : nat → bool) : nat := search_loop n f 0 n.

(** [sort.Slice(l, func(i, j) { return l[i] < l[j] })] on words: the result is
    the ascending rearrangement of [l], which is unique, so any sorting
    algorithm is a model of it; insertion sort is used. *)
Fixpoint insert_sorted (x : Z) (l : list Z) : list Z :=
  match l with
  | [] => [x]
  | y :: l' => if x <=? y then x :: l else y :: insert_sorted x l'
  end.

Definition sort_Slice (l : list Z) : list Z := foldr insert_sorted [] l.

(** ** Sorted span lists (freespan.go) *)

Definition freespans_contains (s : list freespan) (pg : pgid) : outcome bool :=
  pspan ←! makeFreespan pg 0;
  let n := sort_Search (length s) (λ i, at_ s i >? pspan) in
  if (n =? length s)%nat then Ok false
  else
    sn ←! index s n;
    Ok (Span.contains sn pg).

(** One turn of the normalising loop of [mergenorm], at loop index [i] with
    the output cursor at [out]. *)
Definition walk_step (dst : list freespan) (out i : nat)
  : outcome (list freespan * nat) :=
  s ←! index dst out;
  t ←! index dst i;
  '(u, v) ←! Span.append s t;
  if u =? 0 then Ok (dst, out)
  else if v =? 0 then Ok (<[out := u]> dst, S out)
  else
    let dst := <[out := u]> dst in
    if (S out <? length dst)%nat
    then Ok (<[S out := v]> dst, S (S out))
    else Panic "index out of range".

Fixpoint walk (idxs : list nat) (dst : list freespan) (out : nat)
  : outcome (list freespan * nat) :=
  match idxs with
  | [] => Ok (dst, out)
  | i :: idxs' =>
      '(dst', out') ←! walk_step dst out i;
      walk idxs' dst' out'
  end.

(** [mergenorm(dst, all)]. [dst] is [None] for nil and otherwise the words of
    the caller's array, whose capacity is its length. The result is the
    backing array after the call together with the length [out] of the
    returned slice [dst[:out]]. *)
Definition mergenorm (dst : option (list freespan)) (all : list (list freespan))
  : outcome (list freespan * nat) :=
  let data := concat all in
  let n := length data in
  let backing := match dst with
                 | None => replicate n 0
                 | Some buf => buf
                 end in
  if (length backing <? n)%nat then MemFault
  else if (n =? 0)%nat then Ok (backing, 0%nat)
  else
    let data := if (1 <? length all)%nat then sort_Slice data else data in
    '(data', out) ←! walk (seq 1 (n - 1)) data 0%nat;
    Ok (data' ++ drop n backing, out).

(** The slice that [mergenorm] returns. *)
Definition mergenorm_slice (dst : option (list freespan))
    (all : list (list freespan)) : outcome (list freespan) :=
  '(arr, out) ←! mergenorm dst all;
  Ok (take out arr).

(** ** The free list *)

Record freelist : Type := Freelist {
  spans : list freespan;
  pending : gmap Z (list freespan)
}.

Definition newFreelist : freelist := {| spans := []; pending := ∅ |}.

(** Modelled from the spec: the page header of the storage engine, whose
    declaration is not among the sources. The source reads and writes the
    fields [id], [flags], [count] (16 bits), [overflow] (32 bits) and views
    the memory at [ptr] as an array of span words; [ptr] is that memory, one
    element per 8-byte word, and its length is the room the caller handed in. *)
Record page : Type := Page {
  id : pgid;
  flags : Z;
  count : Z;
  overflow : Z;
  ptr : list freespan
}.

(** Modelled from the spec: the bit of [flags] that marks a free-list page.
    Its value is not among the sources; no statement below depends on it. *)
Definition freelistPageFlag : Z := 0x10.

Definition pending_lists (f : freelist) : list (list freespan) :=
  (map_to_list (pending f)).*2.

Definition freeSpanCount (f : freelist) : nat := length (spans f).

Definition pendingSpanCount (f : freelist) : nat :=
  foldr (λ l n, (n + length l)%nat) 0%nat (pending_lists f).

Definition spancount (f : freelist) : nat :=
  (freeSpanCount f + pendingSpanCount f)%nat.

(** [copyall(dst)]: the backing array of [dst] after the call, and the number
    of spans copied. *)
Definition copyall (f : freelist) (dst : list freespan)
  : outcome (list freespan * nat) :=
  let all := spans f :: pending_lists f in
  mergenorm (Some dst) all.

(** The loop of [allocate]: [rest] is what [range f.spans] has still to
    visit, [i] the index of its head, [all] the slice being updated. *)
Fixpoint allocate_from (n : Z) (all : list freespan) (i : nat)
    (rest : list freespan) : outcome (pgid * list freespan) :=
  match rest with
  | [] => Ok (0, all)
  | span :: rest' =>
      if Span.start span <=? 1 then Panic "invalid page allocation"
      else if Span.size span <? wrap64 n then allocate_from n all (S i) rest'
      else
        x ←! makeFreespan (wrap64 (Span.start span + wrap64 n))
                          (wrap64 (Span.size span - wrap64 n));
        Ok (Span.start span, <[i := x]> all)
  end.

Definition allocate (f : freelist) (n : Z) : outcome (pgid * freelist) :=
  '(a, l) ←! allocate_from n (spans f) 0 (spans f);
  Ok (a, {| spans := l; pending := pending f |}).

Definition free (f : freelist) (t : txid) (p : page) : outcome freelist :=
  if id p <=? 1 then Panic "cannot free page 0 or 1"
  else
    pspan ←! makeFreespan (id p) (wrap64 (overflow p + 1));
    let spans0 := default [] (pending f !! t) in
    let n := sort_Search (length spans0) (λ i, at_ spans0 i >? pspan) in
    spans1 ←!
      (if (n =? length spans0)%nat then Ok (spans0 ++ [pspan])
       else
         sn ←! index spans0 n;
         '(u, v) ←! Span.append pspan sn;
         if v =? 0 then Ok (<[n := u]> spans0)
         else
           let grown := copy_within (spans0 ++ [0]) (S n) n in
           Ok (<[S n := v]> (<[n := u]> grown)));
    Ok {| spans := spans f; pending := <[t := spans1]> (pending f) |}.

Definition release (f : freelist) (t : txid) : outcome freelist :=
  let moved := filter (λ kv, kv.1 ≤ t) (map_to_list (pending f)) in
  let all := spans f :: moved.*2 in
  '(arr, out) ←! mergenorm None all;
  Ok {| spans := take out arr;
        pending := filter (λ kv, ¬ kv.1 ≤ t) (pending f) |}.

Definition rollback (f : freelist) (t : txid) : freelist :=
  {| spans := spans f; pending := delete t (pending f) |}.

Fixpoint freed_pending (ls : list (list freespan)) (pg : pgid) : outcome bool :=
  match ls with
  | [] => Ok false
  | s :: ls' =>
      b ←! freespans_contains s pg;
      if b then Ok true else freed_pending ls' pg
  end.

Definition freed (f : freelist) (pg : pgid) : outcome bool :=
  b ←! freespans_contains (spans f) pg;
  if b then Ok true else freed_pending (pending_lists f) pg.

(** [p.ptr[i]] through the unchecked array view: outside the memory handed
    in there is nothing the model can read. *)
Definition peek (mem : list freespan) (i : nat) : outcome freespan :=
  match mem !! i with
  | Some w => Ok w
  | None => MemFault
  end.

(** [p.ptr[idx:cnt]]: Go checks [0 <= idx <= cnt]; beyond the memory handed
    in the view reads nothing the model knows. *)
Definition view (mem : list freespan) (idx cnt : Z) : outcome (list freespan) :=
  if (cnt <? idx) || (idx <? 0) then Panic "slice bounds out of range"
  else if Z.of_nat (length mem) <? cnt then MemFault
  else Ok (take (Z.to_nat (cnt - idx)) (drop (Z.to_nat idx) mem)).

Definition read (f : freelist) (p : page) : outcome freelist :=
  '(idx, cnt) ←!
    (if count p =? 0xFFFF then
       w ←! peek (ptr p) 0;
       Ok (1, int_of_uint64 w)
     else Ok (0, count p));
  if cnt =? 0 then Ok {| spans := []; pending := pending f |}
  else
    words ←! view (ptr p) idx cnt;
    Ok {| spans := sort_Slice words; pending := pending f |}.

Definition write (f : freelist) (p : page) : outcome page :=
  let flags' := Z.lor (flags p) freelistPageFlag in
  let n := spancount f in
  if (n =? 0)%nat then
    Ok {| id := id p; flags := flags'; count := 0;
          overflow := overflow p; ptr := ptr p |}
  else if Z.of_nat n <? 0xFFFF then
    '(mem, k) ←! copyall f (ptr p);
    Ok {| id := id p; flags := flags'; count := Z.of_nat k mod 2 ^ 16;
          overflow := overflow p; ptr := mem |}
  else
    match ptr p with
    | [] => MemFault
    | w0 :: rest =>
        '(mem, k) ←! copyall f rest;
        Ok {| id := id p; flags := flags'; count := 0xFFFF;
              overflow := overflow p; ptr := wrap64 (Z.of_nat k) :: mem |}
    end.

(** One turn of the removal loop of [reload]: take [rm] out of [l]. *)
Definition reload_remove (l : list freespan) (rm : freespan)
  : outcome (list freespan) :=
  let n := sort_Search (length l) (λ i, at_ l i >? rm) in
  s ←! index l n;
  if Span.start rm =? Span.start s then
    x ←! makeFreespan (wrap64 (Span.start s + Span.size rm))
                      (wrap64 (Span.size s - Span.size rm));
    Ok (<[n := x]> l)
  else
    match n with
    | O => Panic "index out of range"
    | S n1 =>
        s ←! index l n1;
        if Span.start s =? Span.start rm then
          if negb (Span.size rm =? Span.size s) then Panic "sort.Search misuse?"
          else
            x ←! makeFreespan (Span.start s) 0;
            Ok (<[n1 := x]> l)
        else if negb (Span.contains s (Span.start rm)) then
          Panic "sort.Search misuse (part b)?"
        else if Span.next s =? Span.next rm then
          x ←! makeFreespan (Span.start s) (wrap64 (Span.size s - Span.size rm));
          Ok (<[n1 := x]> l)
        else
          let grown := copy_within (l ++ [0]) n n1 in
          x ←! makeFreespan (Span.start s)
                            (wrap64 (Span.start rm - Span.start s));
          let grown := <[n1 := x]> grown in
          y ←! makeFreespan (Span.next rm) (wrap64 (Span.next s - Span.next rm));
          Ok (<[n := y]> grown)
    end.

Fixpoint reload_loop (rms : list freespan) (l : list freespan)
  : outcome (list freespan) :=
  match rms with
  | [] => Ok l
  | rm :: rms' =>
      l' ←! reload_remove l rm;
      reload_loop rms' l'
  end.

Definition reload (f : freelist) (p : page) : outcome freelist :=
  f1 ←! read f p;
  rms ←! mergenorm_slice None (pending_lists f1);
  l ←! reload_loop rms (spans f1);
  Ok {| spans := l; pending := pending f1 |}.

(** ** The public operations as transitions of the free list *)

Inductive op : Type :=
| OpAllocate (n : Z)
| OpFree (t : txid) (p : page)
| OpRelease (t : txid)
| OpRollback (t : txid)
| OpRead (p : page)
| OpWrite (p : page)
| OpReload (p : page).

(** The free list after a public operation has returned. [write] only reads
    the free list; what it produces is the page. *)
Definition run (o : op) (f : freelist) : outcome freelist :=
  match o with
  | OpAllocate n => '(_, f') ←! allocate f n; Ok f'
  | OpFree t p => free f t p
  | OpRelease t => release f t
  | OpRollback t => Ok (rollback f t)
  | OpRead p => read f p
  | OpWrite p => _ ←! write f p; Ok f
  | OpReload p => reload f p
  end.

(** The operations that never pass the available list through [mergenorm]
    or through a page. *)
Definition in_place (o : op) : bool :=
  match o with
  | OpAllocate _ | OpFree _ _ | OpRollback _ | OpWrite _ => true
  | OpRelease _ | OpRead _ | OpReload _ => false
  end.

(** ** Predicates of the statements *)

Fixpoint consecutive (R : freespan → freespan → Prop) (l : list freespan)
  : Prop :=
  match l with
  | a :: (b :: _) as l' => R a b ∧ consecutive R l'
  | _ => True
  end.

Definition starts_increasing (l : list freespan) : Prop :=
  consecutive (λ a b, Span.start a < Span.start b) l.

Definition no_adjacent (l : list freespan) : Prop :=
  consecutive (λ a b, Span.start a + Span.size a < Span.start b) l.

Definition no_empty (l : list freespan) : Prop :=
  Forall (λ s, Span.size s ≠ 0) l.

(** The normal form of the available list. *)
Definition normalized (l : list freespan) : Prop :=
  starts_increasing l ∧ no_empty l ∧ no_adjacent l.

(** The normal form without the ban on length-zero spans. *)
Definition ordered_apart (l : list freespan) : Prop :=
  starts_increasing l ∧ no_adjacent l.

(** Page [pg] lies in some span of [l]. *)
Definition covers (l : list freespan) (pg : pgid) : Prop :=
  ∃ s, s ∈ l ∧ Span.contains s pg = true.

(** Page [pg] is recorded as free, in available or in a pending list. *)
Definition recorded (f : freelist) (pg : pgid) : Prop :=
  covers (spans f) pg ∨ ∃ t l, pending f !! t = Some l ∧ covers l pg.

Definition words_ok (l : list freespan) : Prop := Forall is_uint64 l.

(** [rm] is a sub-span of [s]. *)
Definition sub_span (rm s : freespan) : Prop :=
  Span.start s ≤ Span.start rm ∧ Span.next rm ≤ Span.next s.

(** ** Inputs of the examples *)

Definition page_of (i : pgid) (o : Z) : page :=
  {| id := i; flags := 0; count := 0; overflow := o; ptr := [] |}.

Definition blank_page (room : nat) : page :=
  {| id := 7; flags := 0; count := 0; overflow := 0; ptr := replicate room 0 |}.

Definition only_available (l : list freespan) : freelist :=
  {| spans := l; pending := ∅ |}.

(** [m] length-zero residues, as exact-fit allocations leave them, at the
    odd pages from [a] on. *)
Fixpoint residues (a : Z) (m : nat) : list freespan :=
  match m with
  | O => []
  | S m' => pack a 0 :: residues (a + 2) m'
  end.

(** The free list of an engine that has handed out [m] single pages by
    exact fit, at the odd pages from 3 on, and has two single pages left. *)
Definition residue_state (m : nat) : freelist :=
  only_available
    (residues 3 m
       ++ [pack (3 + 2 * Z.of_nat m) 1; pack (5 + 2 * Z.of_nat m) 1]).

(** ** The remaining functions of the sources *)

(** [int] arithmetic: the two's complement wrap of a 64-bit signed sum. *)
Definition wrapInt (z : Z) : Z := (z + 2 ^ 63) mod 2 ^ 64 - 2 ^ 63.

(** The loop of [appendAll], [for i := s.start(); i < s.next(); i++]. It
    runs [next - start] times, which for a span is its size. *)
Fixpoint appendAll_loop (fuel : nat) (i next : pgid) (ids : list pgid)
  : list pgid :=
  match fuel with
  | O => ids
  | S fuel' =>
      if i <? next
      then appendAll_loop fuel' (wrap64 (i + 1)) next (ids ++ [i])
      else ids
  end.

Definition appendAll (s : freespan) (ids : list pgid) : list pgid :=
  appendAll_loop (Z.to_nat (Span.next s - Span.start s))
                 (Span.start s) (Span.next s) ids.

Definition freePageCount (f : freelist) : Z :=
  foldl (λ n span, wrapInt (n + Span.size span)) 0 (spans f).

(** The pending lists are visited in the order of the map iteration; a sum
    does not depend on it. *)
Definition pendingPageCount (f : freelist) : Z :=
  foldl (λ n list, foldl (λ n span, wrapInt (n + Span.size span)) n list)
        0 (pending_lists f).

Definition pagecount (f : freelist) : Z :=
  wrapInt (freePageCount f + pendingPageCount f).

(** [allpages]: the pages of the available spans, then those of the pending
    lists in the order of the map iteration (the source calls the result
    unsorted). *)
Definition allpages (f : freelist) : list pgid :=
  foldl (λ ids list, foldl (λ ids span, appendAll span ids) ids list)
        (foldl (λ ids span, appendAll span ids) [] (spans f))
        (pending_lists f).

(** [pagesize]. The header size of a page is not among the sources and is a
    parameter; a span word takes 8 bytes. *)
Definition pagesize (pageHeaderSize : Z) (f : freelist) : Z :=
  let n := Z.of_nat (spancount f) in
  let n := if 0xFFFF <=? n then wrapInt (n + 1) else n in
  wrapInt (pageHeaderSize + wrapInt (8 * n)).

(** The pages [a, a+1, ..., a+k-1]. *)
Fixpoint page_run (a : pgid) (k : nat) : list pgid :=
  match k with
  | O => []
  | S k' => a :: page_run (a + 1) k'
  end.

(** The pages of the spans of [l], span after span. *)
Definition pages_of (l : list freespan) : list pgid :=
  concat ((λ s, page_run (Span.start s) (Z.to_nat (Span.size s))) <$> l).

(** Span [a] ends before span [b] starts, or just there. *)
Definition before (a b : freespan) : Prop :=
  Span.start a + Span.size a ≤ Span.start b.

(** The spans of a list lie one after the other without sharing a page. *)
Definition in_order (l : list freespan) : Prop := consecutive before l.

(** The span [(a, k)] shares no page with the spans of [l]. *)
Definition clear_of (l : list freespan) (a k : Z) : Prop :=
  Forall (λ s, Span.start s + Span.size s ≤ a ∨ a + k ≤ Span.start s) l.

(** Arithmetic over starts and sizes taken as unknowns. *)
Ltac hide_spans :=
  repeat match goal with
    | |- context [Span.start ?a] =>
        let v := fresh "st" in set (v := Span.start a) in *; clearbody v
    | |- context [Span.size ?a] =>
        let v := fresh "sz" in set (v := Span.size a) in *; clearbody v
    | H : context [Span.start ?a] |- _ =>
        let v := fresh "st" in set (v := Span.start a) in *; clearbody v
    | H : context [Span.size ?a] |- _ =>
        let v := fresh "sz" in set (v := Span.size a) in *; clearbody v
    end.
Ltac span_lia := hide_spans; lia.

(** * Properties *)

(** ** Words and spans *)

Lemma wrap64_small (z : Z) : 0 ≤ z < 2 ^ 64 → wrap64 z = z.
Proof. intros H. unfold wrap64. by apply Z.mod_small. Qed.

Lemma start_div (s : freespan) : Span.start s = s / 2 ^ 16.
Proof. unfold Span.start, freespanStartShift, freespanSizeBits. by rewrite Z.shiftr_div_pow2. Qed.

Lemma size_mod (s : freespan) : Span.size s = s mod 2 ^ 16.
Proof.
  unfold Span.size, freespanSizeMask, freespanSizeBits.
  change (Z.shiftl 1 16 - 1) with (Z.ones 16). by rewrite Z.land_ones.
Qed.

Lemma size_range (s : freespan) : 0 ≤ Span.size s ≤ 65535.
Proof. rewrite size_mod. pose proof (Z.mod_pos_bound s (2 ^ 16)). lia. Qed.

Lemma start_range (s : freespan) :
  is_uint64 s → 0 ≤ Span.start s ≤ freespanMaxStart.
Proof.
  unfold is_uint64. intros [H0 H1]. rewrite start_div.
  change freespanMaxStart with (2 ^ 48 - 1). split.
  - by apply Z.div_pos.
  - assert (s / 2 ^ 16 < 2 ^ 48); [| lia].
    apply Z.div_lt_upper_bound; lia.
Qed.

Lemma pack_start_size (s : freespan) : pack (Span.start s) (Span.size s) = s.
Proof.
  unfold pack. rewrite start_div, size_mod.
  pose proof (Z.div_mod s (2 ^ 16)). lia.
Qed.

Lemma start_pack (a b : Z) : 0 ≤ b < 2 ^ 16 → Span.start (pack a b) = a.
Proof.
  intros Hb. rewrite start_div. unfold pack.
  rewrite Z.div_add_l by lia. rewrite Z.div_small by lia. lia.
Qed.

Lemma size_pack (a b : Z) : 0 ≤ b < 2 ^ 16 → Span.size (pack a b) = b.
Proof.
  intros Hb. rewrite size_mod. unfold pack.
  rewrite Z.add_comm, Z.mod_add by lia. by apply Z.mod_small.
Qed.

Lemma pack_uint64 (a b : Z) :
  0 ≤ a ≤ freespanMaxStart → 0 ≤ b < 2 ^ 16 → is_uint64 (pack a b).
Proof.
  change freespanMaxStart with (2 ^ 48 - 1). unfold is_uint64, pack. lia.
Qed.

Lemma makeFreespan_ok (a b : Z) :
  0 ≤ a ≤ freespanMaxStart → 0 ≤ b ≤ freespanMaxSize →
  makeFreespan a b = Ok (pack a b).
Proof.
  intros Ha Hb. unfold makeFreespan.
  destruct (Z.gtb_spec a freespanMaxStart); [lia |].
  destruct (Z.gtb_spec b freespanMaxSize); [lia |].
  f_equal. unfold freespanStartShift, freespanSizeBits.
  rewrite Z.shiftl_mul_pow2 by lia.
  change freespanMaxStart with (2 ^ 48 - 1) in *.
  change freespanMaxSize with (2 ^ 16 - 1) in *.
  rewrite (wrap64_small (a * 2 ^ 16)) by lia.
  rewrite wrap64_small by lia. reflexivity.
Qed.

Lemma makeFreespan_same (s : freespan) :
  is_uint64 s → makeFreespan (Span.start s) (Span.size s) = Ok s.
Proof.
  intros Hs. rewrite makeFreespan_ok.
  - by rewrite pack_start_size.
  - by apply start_range.
  - pose proof (size_range s). change freespanMaxSize with 65535. lia.
Qed.

Lemma contains_spec (s : freespan) (pg : pgid) :
  is_uint64 s → is_uint64 pg →
  Span.contains s pg = true ↔
  Span.start s ≤ pg < Span.start s + Span.size s.
Proof.
  intros Hs Hp. pose proof (start_range s Hs) as Hst.
  pose proof (size_range s) as Hsz. unfold is_uint64 in Hp.
  change freespanMaxStart with (2 ^ 48 - 1) in Hst.
  unfold Span.contains. rewrite andb_true_iff, negb_true_iff.
  rewrite Z.eqb_neq, Z.ltb_lt. unfold wrap64.
  destruct (Z_lt_le_dec pg (Span.start s)) as [Hlt | Hge].
  - replace ((pg - Span.start s) mod 2 ^ 64)
      with (pg - Span.start s + 2 ^ 64).
    + lia.
    + symmetry. rewrite <- (Z.mod_add _ 1) by lia.
      rewrite Z.mul_1_l. apply Z.mod_small. lia.
  - rewrite Z.mod_small by lia. lia.
Qed.

Lemma wrap64_range (z : Z) : 0 ≤ wrap64 z < 2 ^ 64.
Proof. unfold wrap64. apply Z.mod_pos_bound. lia. Qed.

(** An operation of the outcome monad that returned did so through each of
    its two stages. *)
Lemma obind_Ok {A B : Type} (m : outcome A) (k : A → outcome B) (b : B) :
  obind m k = Ok b → ∃ a, m = Ok a ∧ k a = Ok b.
Proof. destruct m as [a | |]; simpl; intros H; [eauto | done | done]. Qed.

(** ** The model of sort.Slice and sort.Search *)

Lemma insert_sorted_perm (x : Z) (l : list Z) :
  Permutation (insert_sorted x l) (x :: l).
Proof.
  induction l as [| y l IH]; [done |]. cbn [insert_sorted].
  destruct (x <=? y); [done |].
  rewrite IH. apply perm_swap.
Qed.

Lemma insert_sorted_sorted (x : Z) (l : list Z) :
  StronglySorted Z.le l → StronglySorted Z.le (insert_sorted x l).
Proof.
  induction 1 as [| y l Hl IH Hy]; cbn [insert_sorted].
  - repeat constructor.
  - destruct (Z.leb_spec x y) as [Hxy | Hyx].
    + constructor; [by constructor |]. constructor; [done |].
      eapply Forall_impl; [exact Hy |]. intros z Hz. cbv beta in Hz. lia.
    + constructor; [exact IH |].
      rewrite insert_sorted_perm. constructor; [lia | done].
Qed.

(** [sort_Slice] returns the ascending rearrangement of its argument. *)
Lemma sort_Slice_perm (l : list Z) : Permutation (sort_Slice l) l.
Proof.
  induction l as [| x l IH]; [done |].
  cbn [sort_Slice foldr]. rewrite insert_sorted_perm. by constructor.
Qed.

Lemma sort_Slice_sorted (l : list Z) : StronglySorted Z.le (sort_Slice l).
Proof.
  induction l as [| x l IH]; [constructor |].
  cbn [sort_Slice foldr]. by apply insert_sorted_sorted.
Qed.

(** Any sorting of [l] gives the list that [sort_Slice] gives, whatever the
    order in which the parts of [l] were put together. *)
Lemma sort_Slice_unique (l l' : list Z) :
  Permutation l' l → StronglySorted Z.le l' → l' = sort_Slice l.
Proof.
  intros Hp Hs. apply (StronglySorted_unique Z.le); [done | |].
  - apply sort_Slice_sorted.
  - by rewrite sort_Slice_perm.
Qed.

Lemma sort_Slice_order (l l' : list Z) :
  Permutation l l' → sort_Slice l = sort_Slice l'.
Proof.
  intros Hp. apply sort_Slice_unique; [| apply sort_Slice_sorted].
  by rewrite sort_Slice_perm.
Qed.

(** [read] leaves the available list in ascending order of packed value. *)
Lemma read_sorted (f f' : freelist) (p : page) :
  read f p = Ok f' → StronglySorted Z.le (spans f').
Proof.
  unfold read. intros H.
  apply obind_Ok in H as ([idx cnt] & _ & H).
  destruct (cnt =? 0).
  - injection H as <-. constructor.
  - apply obind_Ok in H as (words & _ & H). injection H as <-.
    apply sort_Slice_sorted.
Qed.

(** The binary search with more fuel than the width of its interval does
    what it does with exactly that much. *)
Lemma search_loop_fuel (fuel : nat) (f : nat → bool) (i j : nat) :
  (j - i ≤ fuel)%nat → search_loop fuel f i j = search_loop (j - i) f i j.
Proof.
  revert i j. induction fuel as [fuel IH] using lt_wf_ind. intros i j Hf.
  destruct (Nat.ltb_spec i j) as [Hij | Hji].
  - destruct fuel as [| fuel]; [lia |].
    destruct (j - i)%nat as [| w] eqn:Hw; [lia |].
    cbn [search_loop]. destruct (Nat.ltb_spec i j); [| lia].
    assert (Hh : (i ≤ (i + j) / 2 < j)%nat).
    { split; [apply Nat.div_le_lower_bound; lia |].
      apply Nat.Div0.div_lt_upper_bound; lia. }
    cbv zeta. destruct (negb (f ((i + j) / 2)%nat)).
    + rewrite (IH fuel) by lia. rewrite (IH w) by lia. reflexivity.
    + rewrite (IH fuel) by lia. rewrite (IH w) by lia. reflexivity.
  - replace (j - i)%nat with 0%nat by lia.
    destruct fuel; cbn [search_loop]; [done |].
    destruct (Nat.ltb_spec i j); [lia | done].
Qed.

(** On a predicate that is false and then true, the search returns the first
    index at which it is true. *)
Lemma search_loop_first (n : nat) (f : nat → bool) (fuel i j : nat) :
  (∀ a b, (a ≤ b < n)%nat → f a = true → f b = true) →
  (j - i ≤ fuel)%nat → (i ≤ j ≤ n)%nat →
  (∀ k, (k < i)%nat → f k = false) →
  (∀ k, (j ≤ k < n)%nat → f k = true) →
  let r := search_loop fuel f i j in
  (i ≤ r ≤ j)%nat ∧
  (∀ k, (k < r)%nat → f k = false) ∧
  (∀ k, (r ≤ k < n)%nat → f k = true).
Proof.
  intros Hmono. revert i j.
  induction fuel as [| fuel IH]; intros i j Hf Hij Hlo Hhi.
  - cbn. replace j with i in * by lia. auto with lia.
  - cbn [search_loop]. destruct (Nat.ltb_spec i j) as [Hlt | Hge].
    + assert (Hh : (i ≤ (i + j) / 2 < j)%nat).
      { split; [apply Nat.div_le_lower_bound; lia |].
        apply Nat.Div0.div_lt_upper_bound; lia. }
      cbv zeta. destruct (f ((i + j) / 2)%nat) eqn:Hfh; cbn [negb].
      * destruct (IH i ((i + j) / 2)%nat) as (Hr & Hb & Ha);
          [lia | lia | done | | ].
        { intros k Hk. apply (Hmono ((i + j) / 2)%nat); [lia | done]. }
        split; [lia | done].
      * destruct (IH (S ((i + j) / 2)) j) as (Hr & Hb & Ha);
          [lia | lia | | done | ].
        { intros k Hk. destruct (f k) eqn:Hfk; [| done].
          rewrite (Hmono k ((i + j) / 2)%nat) in Hfh; [done | lia | done]. }
        split; [lia | done].
    + cbv zeta. replace j with i in * by lia. auto with lia.
Qed.

Lemma sort_Search_first (n : nat) (f : nat → bool) :
  (∀ a b, (a ≤ b < n)%nat → f a = true → f b = true) →
  let r := sort_Search n f in
  (r ≤ n)%nat ∧
  (∀ k, (k < r)%nat → f k = false) ∧
  (∀ k, (r ≤ k < n)%nat → f k = true).
Proof.
  intros Hmono. unfold sort_Search.
  destruct (search_loop_first n f n 0 n) as (Hr & Hb & Ha);
    [done | lia | lia | lia | lia |].
  split; [lia | done].
Qed.

(** ** Merging and normalising *)

(** C1. The claim asks that [mergenorm] keep exactly the pages of its inputs
    and return a sorted, merged list. The walk of the source advances its
    output cursor once per stored span and returns [dst[:out]], so the span
    under the cursor is never part of the result: a single span is dropped
    (page 5 of the list [(5,1)] is lost), three separate spans make the walk
    append a span to itself, which panics, and three adjacent pages come out
    as two overlapping spans. *)
Theorem mergenorm_loses_single_span :
  (∀ s : freespan, mergenorm_slice None [[s]] = Ok []) ∧
  covers [pack 5 1] 5 ∧
  mergenorm_slice None [[pack 5 1; pack 7 1; pack 9 1]]
    = Panic "freespan append overlaps" ∧
  mergenorm_slice None [[pack 2 1; pack 3 1; pack 4 1]]
    = Ok [pack 2 2; pack 3 2].
Proof.
  split; [| split; [| split]].
  - intros s. reflexivity.
  - exists (pack 5 1). split; [apply list_elem_of_here | reflexivity].
  - vm_compute. reflexivity.
  - vm_compute. reflexivity.
Qed.

(** ** The walk of [mergenorm] on spans that need no merging *)

Lemma size_nonzero_word (a : freespan) : Span.size a ≠ 0 → (a =? 0) = false.
Proof. intros H. apply Z.eqb_neq. intros ->. by apply H. Qed.

Lemma append_apart (a b : freespan) :
  is_uint64 a → is_uint64 b →
  Span.size a ≠ 0 → Span.size b ≠ 0 →
  Span.start a + Span.size a < Span.start b →
  Span.append a b = Ok (a, b).
Proof.
  intros Ha Hb Hsa Hsb Hab.
  pose proof (size_range a) as Hra. pose proof (start_range a Ha) as Hta.
  pose proof (start_range b Hb) as Htb.
  change freespanMaxStart with (2 ^ 48 - 1) in *.
  assert (Hov : Span.contains a (Span.start b) = false).
  { apply not_true_is_false. intros Hc.
    apply contains_spec in Hc; [span_lia | done | unfold is_uint64; lia]. }
  assert (Hza : (Span.size a =? 0) = false) by (by apply Z.eqb_neq).
  assert (Hzb : (Span.size b =? 0) = false) by (by apply Z.eqb_neq).
  unfold Span.append, Span.overlaps, Span.end_. cbv zeta.
  destruct (Z.ltb_spec (Span.start b) (Span.start a)); [span_lia |].
  rewrite Hov, Hza, Hzb. cbv iota.
  rewrite !size_nonzero_word by done. rewrite Hza. cbn [obind].
  rewrite (wrap64_small (Span.start a + Span.size a)) by span_lia.
  rewrite (wrap64_small (Span.start a + Span.size a - 1)) by span_lia.
  rewrite (wrap64_small (Span.start a + Span.size a - 1 + 1)) by span_lia.
  destruct (Z.eqb_spec (Span.start a + Span.size a - 1 + 1) (Span.start b));
    [span_lia |].
  reflexivity.
Qed.

Lemma append_self (a : freespan) :
  Span.size a ≠ 0 → Span.append a a = Panic "freespan append overlaps".
Proof.
  intros Hsa. pose proof (size_range a) as Hra.
  assert (Hza : (Span.size a =? 0) = false) by (by apply Z.eqb_neq).
  unfold Span.append, Span.overlaps, Span.contains.
  rewrite Z.ltb_irrefl, Z.sub_diag, Hza. cbn [negb andb].
  change (wrap64 0) with 0.
  destruct (Z.ltb_spec 0 (Span.size a)); [| lia]. reflexivity.
Qed.

(** Three spans that lie apart: the first two are stored and the cursor
    moves past them onto the third, which the walk then appends to itself. *)
Lemma mergenorm_three_apart (a b c : freespan) :
  is_uint64 a → is_uint64 b →
  Span.size a ≠ 0 → Span.size b ≠ 0 → Span.size c ≠ 0 →
  Span.start a + Span.size a < Span.start b →
  mergenorm_slice None [[a; b; c]] = Panic "freespan append overlaps".
Proof.
  intros Ha Hb Hsa Hsb Hsc Hab.
  unfold mergenorm_slice, mergenorm.
  cbn [concat app length replicate Nat.ltb Nat.leb Nat.eqb Nat.sub seq walk].
  unfold walk_step at 1, index. cbn [lookup list_lookup obind].
  rewrite append_apart by done. cbn [obind].
  rewrite !size_nonzero_word by done.
  cbn [list_insert insert length Nat.ltb Nat.leb obind].
  unfold walk_step, index. cbn [lookup list_lookup obind].
  rewrite append_self by done. reflexivity.
Qed.

(** ** Allocating *)

(** C8, as the claim states it, fails: on the available list [(5,1)],
    [allocate(0)] returns page 5, not the sentinel 0. *)
Lemma allocate_zero_returns_page :
  let f := only_available [pack 5 1] in
  allocate f 0 = Ok (5, f) ∧ allocate f 0 ≠ Ok (0, f).
Proof. split; [reflexivity | discriminate]. Qed.

(** C8, amended. [allocate(0)] leaves the free list as it is and returns 0
    when the available list is empty; otherwise it returns the start of the
    first available span, every span being long enough for a request of no
    pages (and panics if that span starts at page 0 or 1). *)
Theorem allocate_zero (f : freelist) :
  words_ok (spans f) →
  match spans f with
  | [] => allocate f 0 = Ok (0, f)
  | s :: _ =>
      if Span.start s <=? 1
      then allocate f 0 = Panic "invalid page allocation"
      else allocate f 0 = Ok (Span.start s, f)
  end.
Proof.
  destruct f as [l pd]. cbn [spans]. intros Hok.
  destruct l as [| s l]; [reflexivity |].
  unfold allocate. cbn [spans allocate_from].
  destruct (Span.start s <=? 1) eqn:Hst; [reflexivity |].
  apply Forall_cons in Hok as [Hs _].
  change (wrap64 0) with 0.
  pose proof (size_range s) as Hsz.
  destruct (Z.ltb_spec (Span.size s) 0); [lia |].
  pose proof (start_range s Hs) as Hr.
  change freespanMaxStart with (2 ^ 48 - 1) in Hr.
  rewrite Z.add_0_r, Z.sub_0_r.
  rewrite !wrap64_small by lia.
  rewrite makeFreespan_same by done. reflexivity.
Qed.

(** A request for no pages on the available list [(5,1)]. *)
Lemma allocate_zero_witness :
  let f := only_available [pack 5 1] in
  words_ok (spans f) ∧ allocate f 0 = Ok (Span.start (pack 5 1), f).
Proof.
  assert (H : words_ok (spans (only_available [pack 5 1]))).
  { repeat constructor; vm_compute; congruence. }
  split; [exact H |].
  exact (allocate_zero (only_available [pack 5 1]) H).
Defined.

Lemma consecutive_tail (R : freespan → freespan → Prop) (a : freespan)
    (l : list freespan) :
  consecutive R (a :: l) → consecutive R l.
Proof. destruct l as [| b l]; simpl; [done | tauto]. Qed.

(** The head of a list of spans kept apart ends before every later span
    starts. *)
Lemma no_adjacent_head (a : freespan) (l : list freespan) :
  no_adjacent (a :: l) →
  Forall (λ y, Span.start a + Span.size a < Span.start y) l.
Proof.
  revert a. induction l as [| b l IH]; intros a H; [constructor |].
  destruct H as [Hab Hl]. constructor; [done |].
  specialize (IH b Hl). eapply Forall_impl; [exact IH |].
  simpl. intros y Hy. pose proof (size_range b). lia.
Qed.

Lemma no_adjacent_split (pre post : list freespan) (s : freespan) :
  no_adjacent (pre ++ s :: post) →
  Forall (λ x, Span.start x + Span.size x < Span.start s) pre ∧
  Forall (λ y, Span.start s + Span.size s < Span.start y) post.
Proof.
  induction pre as [| a pre IH]; intros H.
  - split; [constructor |]. by apply no_adjacent_head.
  - change ((a :: pre) ++ s :: post) with (a :: (pre ++ s :: post)) in H.
    pose proof (no_adjacent_head _ _ H) as Ha.
    apply consecutive_tail in H. destruct (IH H) as [Hpre Hpost].
    split; [| done]. constructor; [| done].
    apply Forall_app in Ha as [_ Ha]. by apply Forall_cons in Ha as [Ha _].
Qed.

Lemma first_fit_split (n : Z) (l : list freespan) :
  Forall (λ s, Span.size s < n) l ∨
  ∃ pre s post, l = pre ++ s :: post ∧
                Forall (λ x, Span.size x < n) pre ∧ n ≤ Span.size s.
Proof.
  induction l as [| a l IH]; [left; constructor |].
  destruct (Z_lt_le_dec (Span.size a) n) as [Hlt | Hge].
  - destruct IH as [Hall | (pre & s & post & -> & Hpre & Hs)].
    + left. by constructor.
    + right. exists (a :: pre), s, post. repeat split; [by constructor | done].
  - right. exists [], a, l. repeat split; [constructor | done].
Qed.

(** The loop of [allocate] passes over the spans that are too short. *)
Lemma allocate_from_skip (n : Z) (all pre rest : list freespan) (i : nat) :
  Forall (λ s, 1 < Span.start s ∧ Span.size s < wrap64 n) pre →
  allocate_from n all i (pre ++ rest)
  = allocate_from n all (i + length pre) rest.
Proof.
  revert i. induction pre as [| a pre IH]; intros i H.
  - simpl. f_equal. lia.
  - apply Forall_cons in H as [[Hst Hsz] H]. cbn [app allocate_from].
    destruct (Z.leb_spec (Span.start a) 1); [lia |].
    destruct (Z.ltb_spec (Span.size a) (wrap64 n)); [| lia].
    rewrite IH by done. f_equal. simpl. lia.
Qed.

(** C3, as the claim states it, fails: the list [(1,1)] satisfies the
    sortedness invariant and its span is long enough for one page, yet
    [allocate(1)] panics instead of returning its start. *)
Lemma allocate_reserved_start_panics :
  let f := only_available [pack 1 1] in
  normalized (spans f) ∧ 1 ≤ Span.size (pack 1 1) ∧
  allocate f 1 = Panic "invalid page allocation" ∧
  ¬ returns (allocate f 1).
Proof.
  split; [| split; [| split]].
  - split; [exact I |]. split; [| exact I].
    constructor; [vm_compute; discriminate | constructor].
  - vm_compute. discriminate.
  - reflexivity.
  - intros [r Hr]. discriminate Hr.
Qed.

(** C3, amended. For every free list whose available list satisfies the
    sortedness invariant, whose spans all start above page 1, and every
    request [n >= 1] that leaves the start of the residue within 48 bits:
    [allocate(n)] returns 0 and changes nothing when no span has length
    [>= n]; otherwise it returns the start of the first such span, that start
    is not 0, the pages [start .. start+n-1] were in available before and are
    not after, and the list changes only in that span, which loses exactly
    its prefix of length [n]. *)
Theorem allocate_first_fit (f : freelist) (n : Z) :
  words_ok (spans f) →
  normalized (spans f) →
  1 ≤ n ≤ maxInt →
  Forall (λ s, 1 < Span.start s) (spans f) →
  Forall (λ s, n ≤ Span.size s → Span.start s + n ≤ freespanMaxStart)
         (spans f) →
  (Forall (λ s, Span.size s < n) (spans f) ∧ allocate f n = Ok (0, f)) ∨
  (∃ pre s post,
      spans f = pre ++ s :: post ∧
      Forall (λ x, Span.size x < n) pre ∧ n ≤ Span.size s ∧
      let s' := pack (Span.start s + n) (Span.size s - n) in
      let f' := {| spans := pre ++ s' :: post; pending := pending f |} in
      allocate f n = Ok (Span.start s, f') ∧
      Span.start s ≠ 0 ∧
      ∀ pg, Span.start s ≤ pg < Span.start s + n →
            covers (spans f) pg ∧ ¬ covers (spans f') pg).
Proof.
  destruct f as [l pd]. cbn [spans pending].
  intros Hok (_ & _ & Hadj) Hn Hres Hroom.
  assert (Hw : wrap64 n = n).
  { apply wrap64_small. unfold maxInt in Hn. lia. }
  destruct (first_fit_split n l) as [Hall | (pre & s & post & -> & Hpre & Hs)].
  - left. split; [done |]. unfold allocate. cbn [spans pending].
    rewrite <- (app_nil_r l) at 2.
    rewrite allocate_from_skip; [reflexivity |].
    rewrite Hw. rewrite Forall_forall in Hall, Hres |- *.
    intros x Hx. split; [by apply Hres | by apply Hall].
  - right. exists pre, s, post. split; [done |]. split; [done |].
    split; [done |].
    apply Forall_app in Hok as [Hokpre Hoks].
    apply Forall_cons in Hoks as [Hoks Hokpost].
    apply Forall_app in Hres as [Hrespre Hress].
    apply Forall_cons in Hress as [Hress _].
    apply Forall_app in Hroom as [_ Hrooms].
    apply Forall_cons in Hrooms as [Hrooms _]. specialize (Hrooms Hs).
    pose proof (size_range s) as Hsz.
    pose proof (start_range s Hoks) as Hst.
    change freespanMaxStart with (2 ^ 48 - 1) in *.
    destruct (no_adjacent_split _ _ _ Hadj) as [Hbefore Hafter].
    split; [| split; [lia |]].
    + unfold allocate. cbn [spans pending].
      rewrite allocate_from_skip.
      2:{ rewrite Hw. rewrite Forall_forall in Hpre, Hrespre |- *.
          intros x Hx. split; [by apply Hrespre | by apply Hpre]. }
      cbn [allocate_from]. rewrite Hw.
      destruct (Z.leb_spec (Span.start s) 1); [lia |].
      destruct (Z.ltb_spec (Span.size s) n); [lia |].
      rewrite !wrap64_small by lia.
      rewrite makeFreespan_ok
        by (change freespanMaxStart with (2 ^ 48 - 1);
            change freespanMaxSize with (2 ^ 16 - 1); lia).
      cbn [obind]. do 3 f_equal.
      replace (0 + length pre)%nat with (length pre + 0)%nat by lia.
      by rewrite insert_app_r.
    + intros pg Hpg. split.
      * exists s. split; [apply elem_of_app; right; apply list_elem_of_here |].
        apply contains_spec; [done | unfold is_uint64; lia | lia].
      * intros (x & Hx & Hc).
        assert (Hpgu : is_uint64 pg) by (unfold is_uint64; lia).
        apply elem_of_app in Hx as [Hx | Hx].
        -- rewrite Forall_forall in Hbefore, Hokpre.
           apply contains_spec in Hc; [| by apply Hokpre | done].
           specialize (Hbefore x Hx). cbv beta in Hbefore.
           span_lia.
        -- apply elem_of_cons in Hx as [-> | Hx].
           ++ apply contains_spec in Hc; [| | done].
              2:{ apply pack_uint64;
                    [change freespanMaxStart with (2 ^ 48 - 1) |]; lia. }
              rewrite start_pack in Hc by lia. span_lia.
           ++ rewrite Forall_forall in Hafter, Hokpost.
              apply contains_spec in Hc; [| by apply Hokpost | done].
              specialize (Hafter x Hx). cbv beta in Hafter.
              span_lia.
Qed.

(** The first allocation of the allocation scenario: three pages out of
    the run 3..7. *)
Lemma allocate_first_fit_witness :
  let f := only_available [pack 3 5; pack 9 1; pack 12 2; pack 18 1] in
  let f' := only_available [pack 6 2; pack 9 1; pack 12 2; pack 18 1] in
  allocate f 3 = Ok (3, f') ∧
  ((Forall (λ s, Span.size s < 3) (spans f) ∧ allocate f 3 = Ok (0, f)) ∨
   (∃ pre s post,
      spans f = pre ++ s :: post ∧
      Forall (λ x, Span.size x < 3) pre ∧ 3 ≤ Span.size s ∧
      let s' := pack (Span.start s + 3) (Span.size s - 3) in
      let f' := {| spans := pre ++ s' :: post; pending := pending f |} in
      allocate f 3 = Ok (Span.start s, f') ∧
      Span.start s ≠ 0 ∧
      ∀ pg, Span.start s ≤ pg < Span.start s + 3 →
            covers (spans f) pg ∧ ¬ covers (spans f') pg)).
Proof.
  intros f f'. split; [reflexivity |].
  apply (allocate_first_fit f 3).
  - repeat constructor; vm_compute; congruence.
  - split; [| split].
    + repeat split; vm_compute; reflexivity.
    + repeat constructor; vm_compute; discriminate.
    + repeat split; vm_compute; reflexivity.
  - split; vm_compute; discriminate.
  - repeat constructor; vm_compute; reflexivity.
  - repeat constructor; intros _; vm_compute; discriminate.
Defined.

(** ** The order of the available list *)

Lemma no_adjacent_starts (l : list freespan) :
  no_adjacent l → starts_increasing l.
Proof.
  induction l as [| a [| b l] IH]; [done | done |].
  intros [Hab Hl]. split; [| by apply IH].
  pose proof (size_range a). span_lia.
Qed.

Lemma ordered_apart_iff (l : list freespan) :
  ordered_apart l ↔ no_adjacent l.
Proof.
  split; [by intros [_ H] |]. intros H. split; [| done].
  by apply no_adjacent_starts.
Qed.

(** A span may be replaced by one that starts no earlier and ends no later. *)
Lemma no_adjacent_insert (l : list freespan) (k : nat) (s x : freespan) :
  l !! k = Some s →
  Span.start s ≤ Span.start x →
  Span.start x + Span.size x ≤ Span.start s + Span.size s →
  no_adjacent l → no_adjacent (<[k := x]> l).
Proof.
  intros Hk Hlo Hhi. revert k Hk.
  induction l as [| a l IH]; intros k Hk Hadj; [done |].
  destruct k as [| k].
  - injection Hk as ->. destruct l as [| b l]; [done |].
    destruct Hadj as [Hab Hl]. split; [span_lia | done].
  - cbn [lookup list_lookup] in Hk.
    destruct l as [| b l]; [done |].
    destruct Hadj as [Hab Hl]. specialize (IH k Hk Hl).
    destruct k as [| k].
    + injection Hk as ->. split; [span_lia | exact IH].
    + split; [exact Hab | exact IH].
Qed.

Lemma makeFreespan_Ok_inv (a b : Z) (x : freespan) :
  0 ≤ a → 0 ≤ b → makeFreespan a b = Ok x →
  x = pack a b ∧ a ≤ freespanMaxStart ∧ b ≤ freespanMaxSize.
Proof.
  intros Ha Hb H.
  assert (a ≤ freespanMaxStart ∧ b ≤ freespanMaxSize) as [Ha' Hb'].
  { unfold makeFreespan in H.
    destruct (Z.gtb_spec a freespanMaxStart); [done |].
    destruct (Z.gtb_spec b freespanMaxSize); [done |]. lia. }
  rewrite makeFreespan_ok in H by lia. injection H as <-. done.
Qed.

(** What a returning [allocate] loop has done to the slice. *)
Lemma allocate_from_Ok (n : Z) (all rest : list freespan) (i : nat)
    (a : pgid) (l' : list freespan) :
  allocate_from n all i rest = Ok (a, l') →
  l' = all ∨
  ∃ k s x, rest !! k = Some s ∧ wrap64 n ≤ Span.size s ∧
           makeFreespan (wrap64 (Span.start s + wrap64 n))
                        (wrap64 (Span.size s - wrap64 n)) = Ok x ∧
           l' = <[(i + k)%nat := x]> all.
Proof.
  revert i. induction rest as [| s rest IH]; intros i H.
  - injection H as _ <-. by left.
  - cbn [allocate_from] in H.
    destruct (Span.start s <=? 1); [done |].
    destruct (Z.ltb_spec (Span.size s) (wrap64 n)) as [Hlt | Hge].
    + destruct (IH _ H) as [-> | (k & s0 & x & Hk & Hsz & Hx & ->)];
        [by left |].
      right. exists (S k), s0, x. repeat split; try done.
      f_equal. lia.
    + apply obind_Ok in H as (x & Hx & H). injection H as _ <-.
      right. exists 0%nat, s, x. repeat split; try done.
      f_equal. lia.
Qed.

Lemma free_keeps_spans (f f' : freelist) (t : txid) (p : page) :
  free f t p = Ok f' → spans f' = spans f.
Proof.
  unfold free. destruct (id p <=? 1); [done |]. intros H.
  apply obind_Ok in H as (pspan & _ & H).
  apply obind_Ok in H as (spans1 & _ & H).
  by injection H as <-.
Qed.

Lemma allocate_keeps_apart (f f' : freelist) (n : Z) (a : pgid) :
  words_ok (spans f) → no_adjacent (spans f) →
  allocate f n = Ok (a, f') → no_adjacent (spans f').
Proof.
  intros Hok Hadj H. unfold allocate in H.
  apply obind_Ok in H as ([a' l'] & Hl & H). injection H as _ <-.
  cbn [spans].
  apply allocate_from_Ok in Hl as [-> | (k & s & x & Hk & Hsz & Hx & ->)];
    [done |].
  assert (Hs : is_uint64 s).
  { unfold words_ok in Hok. rewrite Forall_forall in Hok. apply Hok.
    by eapply list_elem_of_lookup_2. }
  pose proof (wrap64_range n) as Hm.
  pose proof (size_range s) as Hr.
  pose proof (start_range s Hs) as Hst.
  change freespanMaxStart with (2 ^ 48 - 1) in Hst.
  rewrite !(wrap64_small (_ + _)) in Hx by lia.
  rewrite !(wrap64_small (_ - _)) in Hx by lia.
  apply makeFreespan_Ok_inv in Hx as (-> & _ & _); [| lia | lia].
  eapply no_adjacent_insert; [exact Hk | | | done].
  - rewrite start_pack by lia. lia.
  - rewrite start_pack, size_pack by lia. lia.
Qed.

(** C5, as the claim states it, fails: after [allocate(1)] on the available
    list [(5,1)], which is in normal form, the list is [(6,0)] and holds a
    length-zero span. *)
Lemma allocate_leaves_empty_span :
  let f := only_available [pack 5 1] in
  normalized (spans f) ∧
  run (OpAllocate 1) f = Ok (only_available [pack 6 0]) ∧
  ¬ normalized [pack 6 0].
Proof.
  split; [| split].
  - split; [exact I |]. split; [| exact I].
    constructor; [vm_compute; discriminate | constructor].
  - reflexivity.
  - intros (_ & Hne & _). apply Forall_cons in Hne as [Hne _].
    apply Hne. reflexivity.
Qed.

(** C5, amended. After [allocate], [free], [rollback] or [write] returns on
    a free list whose available list is sorted strictly by start with no two
    consecutive spans adjacent, the available list is still sorted strictly
    by start with no two consecutive spans adjacent; [free], [rollback] and
    [write] leave it as it was, and [allocate] may leave a length-zero span,
    the residue of an exact fit. *)
Theorem in_place_keeps_order (o : op) (f f' : freelist) :
  in_place o = true →
  words_ok (spans f) →
  ordered_apart (spans f) →
  run o f = Ok f' →
  ordered_apart (spans f') ∧
  match o with
  | OpAllocate _ => True
  | _ => spans f' = spans f
  end.
Proof.
  intros Hop Hok Hord Hrun.
  destruct o as [n | t p | t | t | p | p | p]; try discriminate Hop;
    cbn [run] in Hrun.
  - split; [| done].
    apply obind_Ok in Hrun as ([a f1] & Ha & Hrun). injection Hrun as <-.
    apply ordered_apart_iff. apply ordered_apart_iff in Hord.
    by eapply allocate_keeps_apart.
  - apply free_keeps_spans in Hrun. by rewrite Hrun.
  - injection Hrun as <-. done.
  - apply obind_Ok in Hrun as (p' & _ & Hrun). injection Hrun as <-. done.
Qed.

(** An exact fit in front of a second span. *)
Lemma in_place_keeps_order_witness :
  let f := only_available [pack 5 1; pack 9 2] in
  let f' := only_available [pack 6 0; pack 9 2] in
  run (OpAllocate 1) f = Ok f' ∧ ordered_apart (spans f').
Proof.
  intros f f'. split; [reflexivity |].
  refine (proj1 (in_place_keeps_order (OpAllocate 1) f f' eq_refl _ _ eq_refl)).
  - repeat constructor; vm_compute; congruence.
  - repeat split; vm_compute; reflexivity.
Defined.

(** ** Freeing *)

(** C6. The claim asks that freeing a page that is already recorded as free
    panic. [free] looks only at the pending list of its own transaction, and
    there only at the span after the insertion point: freeing page 5 a
    second time in transaction 1 returns and leaves (5,1) twice in the list,
    and freeing an available page returns as well. *)
Theorem free_twice_returns :
  let f := {| spans := []; pending := {[ 1 := [pack 5 1] ]} |} in
  let g := only_available [pack 5 1] in
  free newFreelist 1 (page_of 5 0) = Ok f ∧
  recorded f 5 ∧
  free f 1 (page_of 5 0)
    = Ok {| spans := []; pending := {[ 1 := [pack 5 1; pack 5 1] ]} |} ∧
  recorded g 5 ∧
  free g 2 (page_of 5 0)
    = Ok {| spans := [pack 5 1]; pending := {[ 2 := [pack 5 1] ]} |}.
Proof.
  repeat split.
  - right. exists 1, [pack 5 1]. split; [reflexivity |].
    exists (pack 5 1). split; [apply list_elem_of_here | reflexivity].
  - left. exists (pack 5 1). split; [apply list_elem_of_here | reflexivity].
Qed.

(** C10. For every free list, transaction [t] and page with id above 1, a
    call of [free] that returns has changed nothing but the pending list of
    [t]: the available list and the pending list of every other transaction
    are as before. *)
Theorem free_frame (f f' : freelist) (t : txid) (p : page) :
  1 < id p →
  free f t p = Ok f' →
  spans f' = spans f ∧
  ∀ t' : txid, t' ≠ t → pending f' !! t' = pending f !! t'.
Proof.
  intros Hid Hfree. unfold free in Hfree.
  destruct (id p <=? 1); [done |].
  apply obind_Ok in Hfree as (pspan & _ & Hfree).
  apply obind_Ok in Hfree as (spans1 & _ & Hfree).
  injection Hfree as <-. simpl. split; [done |].
  intros t' Hne. by rewrite lookup_insert_ne.
Qed.

(** The frame property at the first free of page 5 in transaction 1. *)
Lemma free_frame_witness :
  let f' := {| spans := []; pending := {[ 1 := [pack 5 1] ]} |} in
  1 < id (page_of 5 0) ∧
  free newFreelist 1 (page_of 5 0) = Ok f' ∧
  spans f' = spans newFreelist ∧
  ∀ t' : txid, t' ≠ 1 → pending f' !! t' = pending newFreelist !! t'.
Proof.
  assert (H1 : 1 < id (page_of 5 0)) by (simpl; lia).
  split; [exact H1 |]. split; [reflexivity |].
  exact (free_frame newFreelist _ 1 (page_of 5 0) H1 eq_refl).
Defined.

(** ** The scenarios of the tests that the span lists can express *)

(** Freeing one page, freeing a page with three overflow pages, and freeing
    page 9 before the pending run (12,2), which takes the insertion branch of
    [free]. *)
Example free_scenarios :
  free newFreelist 100 (page_of 12 0)
    = Ok {| spans := []; pending := {[ 100 := [pack 12 1] ]} |} ∧
  free newFreelist 100 (page_of 12 3)
    = Ok {| spans := []; pending := {[ 100 := [pack 12 4] ]} |} ∧
  free {| spans := []; pending := {[ 100 := [pack 12 2] ]} |} 100 (page_of 9 0)
    = Ok {| spans := []; pending := {[ 100 := [pack 9 1; pack 12 2] ]} |} ∧
  free {| spans := []; pending := {[ 100 := [pack 12 2] ]} |} 100 (page_of 11 0)
    = Ok {| spans := []; pending := {[ 100 := [pack 11 3] ]} |}.
Proof. repeat split. Qed.

(** The insertion branch of [free] puts the two spans that [append] returned
    in the place of [spans[n]]. *)
Lemma free_insert_parts (pre rest : list freespan) (x u v : freespan) :
  <[S (length pre) := v]>
    (<[length pre := u]>
       (copy_within ((pre ++ x :: rest) ++ [0]) (S (length pre)) (length pre)))
  = pre ++ u :: v :: rest.
Proof.
  unfold copy_within. rewrite !length_app. cbn [length].
  match goal with
  | |- context [Nat.min ?a ?b] =>
      replace (Nat.min a b) with (S (length rest)) by lia
  end.
  rewrite <- (app_assoc pre). cbn [app].
  rewrite (take_app_ge pre) by lia.
  replace (S (length pre) - length pre)%nat with 1%nat by lia. cbn [take].
  rewrite drop_app_length.
  replace (x :: rest ++ [0]) with ((x :: rest) ++ [0]) by reflexivity.
  rewrite (take_app_length' (x :: rest)) by reflexivity.
  rewrite drop_ge by (rewrite !length_app; cbn [length];
                      rewrite ?length_app; cbn [length]; lia).
  rewrite app_nil_r, <- app_assoc. cbn [app].
  rewrite (insert_app_r_alt pre) by lia.
  rewrite Nat.sub_diag. cbn [insert list_insert].
  rewrite (insert_app_r_alt pre) by lia.
  replace (S (length pre) - length pre)%nat with 1%nat by lia.
  reflexivity.
Qed.

Lemma free_insert_shape (l : list freespan) (n : nat) (u v : freespan) :
  (n < length l)%nat →
  <[S n := v]> (<[n := u]> (copy_within (l ++ [0]) (S n) n))
  = take n l ++ u :: v :: drop (S n) l.
Proof.
  intros Hn. destruct (lookup_lt_is_Some_2 l n Hn) as [x Hx].
  pose proof (take_drop_middle l n x Hx) as Hl.
  assert (Hlen : length (take n l) = n) by (apply length_take_le; lia).
  pose proof (free_insert_parts (take n l) (drop (S n) l) x u v) as H.
  rewrite Hlen, Hl in H. exact H.
Qed.

(** ** Membership *)

(** C4. The claim asks that [freed], and the membership test of a sorted
    list, answer true exactly for the pages inside some span. The test looks
    at the first span above [make(p, 0)], not at the one before it, so a page
    inside a span but after its start is reported absent: page 12 of the
    span (10,5). *)
Theorem contains_misses_inner_page :
  let l := [pack 10 5] in
  covers l 12 ∧
  freespans_contains l 12 = Ok false ∧
  freed (only_available l) 12 = Ok false ∧
  freespans_contains l 10 = Ok true.
Proof.
  split; [| split; [| split]].
  - exists (pack 10 5). split; [apply list_elem_of_here | reflexivity].
  - reflexivity.
  - vm_compute. reflexivity.
  - reflexivity.
Qed.

(** ** What the membership test recognises *)

Lemma no_adjacent_lookup (l : list freespan) (i j : nat) (a b : freespan) :
  no_adjacent l → (i < j)%nat → l !! i = Some a → l !! j = Some b →
  Span.start a + Span.size a < Span.start b.
Proof.
  revert i j. induction l as [| x l IH]; intros i j Hadj Hij Hi Hj; [done |].
  destruct j as [| j]; [lia |]. cbn [lookup list_lookup] in Hj.
  destruct i as [| i].
  - injection Hi as ->. apply no_adjacent_head in Hadj.
    rewrite Forall_lookup in Hadj. exact (Hadj j b Hj).
  - cbn [lookup list_lookup] in Hi. apply consecutive_tail in Hadj.
    apply (IH i j); [done | lia | done | done].
Qed.

Lemma word_lt_of_start_lt (a b : freespan) :
  Span.start a < Span.start b → a < b.
Proof.
  intros H. rewrite <- (pack_start_size a), <- (pack_start_size b).
  pose proof (size_range a). pose proof (size_range b).
  unfold pack. span_lia.
Qed.

Lemma start_le_of_word_le (a b : freespan) : a ≤ b → Span.start a ≤ Span.start b.
Proof.
  intros H. destruct (Z_lt_le_dec (Span.start b) (Span.start a)) as [Hlt | ?];
    [| done].
  apply word_lt_of_start_lt in Hlt. lia.
Qed.

Lemma at_lookup (l : list freespan) (i : nat) (x : freespan) :
  l !! i = Some x → at_ l i = x.
Proof. intros H. unfold at_. rewrite nth_lookup, H. reflexivity. Qed.

(** On a list of spans kept apart, the membership test of the source answers
    true exactly for the first page of a span that is not empty; the other
    pages of a span are reported absent. *)
Lemma freespans_contains_first_page (l : list freespan) (pg : pgid) :
  words_ok l → no_adjacent l → 0 ≤ pg ≤ freespanMaxStart →
  freespans_contains l pg = Ok true ↔
  ∃ s, s ∈ l ∧ Span.start s = pg ∧ Span.size s ≠ 0.
Proof.
  intros Hok Hadj Hpg. unfold freespans_contains.
  rewrite makeFreespan_ok by (change freespanMaxSize with 65535; lia).
  cbn [obind].
  set (f := λ i : nat, at_ l i >? pack pg 0).
  assert (Hmono : ∀ a b, (a ≤ b < length l)%nat → f a = true → f b = true).
  { intros i j Hij Hfi. unfold f in *.
    destruct (lookup_lt_is_Some_2 l i) as [a Ha]; [lia |].
    destruct (lookup_lt_is_Some_2 l j) as [b Hb]; [lia |].
    rewrite (at_lookup _ _ _ Ha) in Hfi. rewrite (at_lookup _ _ _ Hb).
    apply Z.gtb_lt in Hfi. apply Z.gtb_lt.
    destruct (decide (i = j)) as [-> | Hne]; [congruence |].
    assert (Span.start a + Span.size a < Span.start b) as Hab
      by (eapply (no_adjacent_lookup l i j); [done | lia | done | done]).
    assert (a < b); [| lia].
    apply word_lt_of_start_lt. pose proof (size_range a). span_lia. }
  destruct (sort_Search_first (length l) f Hmono) as (Hr & Hbefore & Hafter).
  set (r := sort_Search (length l) f) in *.
  assert (Hmax : freespanMaxStart = 2 ^ 48 - 1) by reflexivity.
  assert (Hup : is_uint64 pg) by (unfold is_uint64; lia).
  destruct (Nat.eqb_spec r (length l)) as [Hend | Hin].
  - split; [done |]. intros (s & Hs & Hst & Hsz). exfalso.
    apply list_elem_of_lookup in Hs as [k Hk].
    pose proof (lookup_lt_Some _ _ _ Hk) as Hlt.
    specialize (Hbefore k ltac:(lia)). unfold f in Hbefore.
    rewrite (at_lookup _ _ _ Hk) in Hbefore.
    rewrite Z.gtb_ltb, Z.ltb_ge in Hbefore.
    rewrite <- (pack_start_size s), Hst in Hbefore.
    pose proof (size_range s). unfold pack in Hbefore. span_lia.
  - destruct (lookup_lt_is_Some_2 l r) as [sr Hsr]; [lia |].
    unfold index. rewrite Hsr. cbn [obind].
    assert (Husr : is_uint64 sr).
    { unfold words_ok in Hok. rewrite Forall_lookup in Hok. by eapply Hok. }
    assert (Hfr : pack pg 0 < sr).
    { specialize (Hafter r ltac:(lia)). unfold f in Hafter.
      rewrite (at_lookup _ _ _ Hsr) in Hafter. by apply Z.gtb_lt in Hafter. }
    assert (Hge : pg ≤ Span.start sr).
    { apply Z.lt_le_incl, start_le_of_word_le in Hfr.
      by rewrite start_pack in Hfr by lia. }
    split.
    + intros Hc. injection Hc as Hc.
      apply contains_spec in Hc; [| done | done].
      exists sr. split; [by eapply list_elem_of_lookup_2 |].
      split; [lia | span_lia].
    + intros (s & Hs & Hst & Hsz). f_equal.
      apply list_elem_of_lookup in Hs as [k Hk].
      assert (Hk_r : k = r).
      { destruct (lt_eq_lt_dec k r) as [[Hlt | ?] | Hgt]; [| done |].
        - specialize (Hbefore k Hlt). unfold f in Hbefore.
          rewrite (at_lookup _ _ _ Hk) in Hbefore.
          rewrite Z.gtb_ltb, Z.ltb_ge in Hbefore.
          rewrite <- (pack_start_size s), Hst in Hbefore.
          pose proof (size_range s). unfold pack in Hbefore. span_lia.
        - pose proof (no_adjacent_lookup l r k sr s Hadj Hgt Hsr Hk).
          pose proof (size_range sr). span_lia. }
      subst k. rewrite Hsr in Hk. injection Hk as ->.
      apply contains_spec; [done | done |]. pose proof (size_range s).
      span_lia.
Qed.

(** ** Serialising *)

(** C2. The claim asks that [write] followed by [read] into a fresh free list
    give back every available and pending page. With the one available span
    (5,1) and nothing pending, [write] stores a count of 0 and [read] yields
    an empty available list; with the lists of the repository's own write
    test (available 12 and 39, pending 11, 28 and 3) [write] panics. *)
Theorem write_read_loses_available :
  let f := only_available [pack 5 1] in
  covers (spans f) 5 ∧
  (∃ p', write f (blank_page 4) = Ok p' ∧ count p' = 0 ∧
         read newFreelist p' = Ok newFreelist) ∧
  write {| spans := [pack 12 1; pack 39 1];
           pending := {[ 100 := [pack 11 1; pack 28 1]; 101 := [pack 3 1] ]} |}
        (blank_page 8)
    = Panic "freespan append overlaps".
Proof.
  split; [| split].
  - exists (pack 5 1). split; [apply list_elem_of_here | reflexivity].
  - eexists. split; [vm_compute; reflexivity |]. split; reflexivity.
  - vm_compute. reflexivity.
Qed.

(** ** The large-count encoding *)

Lemma append_empty_both (s t : freespan) :
  Span.size s = 0 → Span.size t = 0 → Span.start s ≤ Span.start t →
  Span.append s t = Ok (0, 0).
Proof.
  intros Hs Ht Hst. unfold Span.append, Span.overlaps, Span.contains.
  destruct (Z.ltb_spec (Span.start t) (Span.start s)); [lia |].
  rewrite Hs, Ht. reflexivity.
Qed.

Lemma append_empty_left (s t : freespan) :
  Span.size s = 0 → Span.size t ≠ 0 → Span.start s ≤ Span.start t →
  Span.append s t = Ok (t, 0).
Proof.
  intros Hs Ht Hst. unfold Span.append, Span.overlaps, Span.contains.
  destruct (Z.ltb_spec (Span.start t) (Span.start s)); [lia |].
  rewrite Hs. cbn [Z.eqb negb andb].
  destruct (Z.eqb_spec (Span.size t) 0); [done |]. reflexivity.
Qed.

(** The walk passes over length-zero spans without moving its cursor, as
    long as the span under the cursor is itself of length zero. *)
Lemma walk_over_empty (idxs rest : list nat) (dst : list freespan)
    (z0 : freespan) :
  dst !! 0%nat = Some z0 → Span.size z0 = 0 →
  Forall (λ i, ∃ z, dst !! i = Some z ∧ Span.size z = 0 ∧
                    Span.start z0 ≤ Span.start z) idxs →
  walk (idxs ++ rest) dst 0 = walk rest dst 0.
Proof.
  intros H0 Hz0. induction idxs as [| i idxs IH]; intros Hall; [done |].
  apply Forall_cons in Hall as [(z & Hi & Hz & Hle) Hall].
  cbn [app walk]. unfold walk_step, index. rewrite H0, Hi. cbn [obind].
  rewrite append_empty_both by done. cbn [obind Z.eqb]. by apply IH.
Qed.

Lemma residues_length (a : Z) (m : nat) : length (residues a m) = m.
Proof. revert a. induction m as [| m IH]; intros a; simpl; [done |]. by rewrite IH. Qed.

Lemma residues_lookup (a : Z) (m i : nat) :
  (i < m)%nat → residues a m !! i = Some (pack (a + 2 * Z.of_nat i) 0).
Proof.
  revert a i. induction m as [| m IH]; intros a i Hi; [lia |].
  destruct i as [| i].
  - cbn [residues lookup list_lookup]. f_equal. unfold pack. lia.
  - cbn [residues lookup list_lookup].
    change (residues (a + 2) m !! i = Some (pack (a + 2 * Z.of_nat (S i)) 0)).
    rewrite IH by lia. f_equal. unfold pack. lia.
Qed.

(** [read] of a page in the large-count encoding whose first word is [k]
    takes the words [1 .. k-1] of the payload: [k - 1] spans. *)
Lemma read_large_count (g : freelist) (p : page) (k : Z)
    (mem : list freespan) :
  count p = 0xFFFF → ptr p = k :: mem →
  1 ≤ k ≤ Z.of_nat (length mem) → k < 2 ^ 63 →
  read g p = Ok {| spans := sort_Slice (take (Z.to_nat (k - 1)) mem);
                   pending := pending g |}.
Proof.
  intros Hc Hp Hk Hk63. unfold read. rewrite Hc, Hp.
  cbn [Z.eqb Pos.eqb peek lookup list_lookup obind].
  unfold int_of_uint64. destruct (Z.ltb_spec k (2 ^ 63)); [| lia].
  destruct (Z.eqb_spec k 0); [lia |].
  unfold view. destruct (Z.ltb_spec k 1); [lia |].
  destruct (Z.ltb_spec 1 0); [lia |]. cbn [orb].
  match goal with
  | |- context [Z.of_nat ?len <? k] =>
      destruct (Z.ltb_spec (Z.of_nat len) k) as [Hlt | _]
  end.
  { cbn [length] in Hlt. lia. }
  cbn [obind]. change (Z.to_nat 1) with 1%nat. cbn [drop]. reflexivity.
Qed.

Lemma walk_residues (m : nat) (a b : freespan) :
  (2 ≤ m)%nat →
  Span.size a ≠ 0 → Span.size b ≠ 0 →
  3 ≤ Span.start a → 5 ≤ Span.start b →
  walk (seq 1 (m + 1)) (residues 3 m ++ [a; b]) 0
  = Ok (<[1%nat := b]> (<[0%nat := a]> (residues 3 m ++ [a; b])), 2%nat).
Proof.
  intros Hm Ha Hb Hsa Hsb.
  set (dst := residues 3 m ++ [a; b]).
  assert (Hlen : length dst = (m + 2)%nat).
  { unfold dst. rewrite length_app, residues_length. reflexivity. }
  assert (Hres : ∀ i, (i < m)%nat →
                      dst !! i = Some (pack (3 + 2 * Z.of_nat i) 0)).
  { intros i Hi. unfold dst.
    rewrite lookup_app_l by (rewrite residues_length; lia).
    by apply residues_lookup. }
  assert (Hat : ∀ j, dst !! (m + j)%nat = [a; b] !! j).
  { intros j. unfold dst.
    rewrite lookup_app_r by (rewrite residues_length; lia).
    rewrite residues_length. f_equal. lia. }
  assert (Ha0 : (a =? 0) = false).
  { apply Z.eqb_neq. intros ->. by apply Ha. }
  assert (Hb0 : (b =? 0) = false).
  { apply Z.eqb_neq. intros ->. by apply Hb. }
  replace (m + 1)%nat with ((m - 1) + 2)%nat by lia.
  rewrite seq_app.
  rewrite (walk_over_empty _ _ dst (pack 3 0)).
  - replace (1 + (m - 1))%nat with (m + 0)%nat by lia.
    cbn [seq walk]. unfold walk_step at 1, index.
    rewrite (Hres 0%nat) by lia. rewrite (Hat 0%nat).
    cbn [lookup list_lookup obind].
    rewrite append_empty_left;
      [| by apply size_pack | done | rewrite start_pack by lia; lia].
    cbn [obind]. rewrite Ha0. cbn [Z.eqb obind].
    unfold walk_step, index.
    rewrite list_lookup_insert_ne by lia. rewrite (Hres 1%nat) by lia.
    rewrite list_lookup_insert_ne by lia.
    replace (S (m + 0)) with (m + 1)%nat by lia. rewrite (Hat 1%nat).
    cbn [lookup list_lookup obind].
    rewrite append_empty_left;
      [| by apply size_pack | done | rewrite start_pack by lia; lia].
    cbn [obind]. rewrite Hb0. cbn [Z.eqb obind]. reflexivity.
  - rewrite (Hres 0%nat) by lia. reflexivity.
  - by apply size_pack.
  - apply Forall_forall. intros i Hi. apply elem_of_seq in Hi.
    exists (pack (3 + 2 * Z.of_nat i) 0). split; [apply Hres; lia |].
    split; [by apply size_pack |]. rewrite !start_pack by lia. lia.
Qed.

Lemma mergenorm_residues (m : nat) (a b : freespan) (buf : list freespan) :
  (2 ≤ m)%nat → (m + 2 ≤ length buf)%nat →
  Span.size a ≠ 0 → Span.size b ≠ 0 →
  3 ≤ Span.start a → 5 ≤ Span.start b →
  mergenorm (Some buf) [residues 3 m ++ [a; b]]
  = Ok (<[1%nat := b]> (<[0%nat := a]> (residues 3 m ++ [a; b]))
          ++ drop (m + 2) buf, 2%nat).
Proof.
  intros Hm Hbuf Ha Hb Hsa Hsb. unfold mergenorm.
  cbn [concat]. rewrite app_nil_r.
  assert (Hlen : length (residues 3 m ++ [a; b]) = (m + 2)%nat).
  { rewrite length_app, residues_length. reflexivity. }
  rewrite Hlen.
  destruct (Nat.ltb_spec (length buf) (m + 2)); [lia |].
  destruct (Nat.eqb_spec (m + 2) 0); [lia |].
  cbn [length]. change (1 <? 1)%nat with false. cbn iota.
  replace (m + 2 - 1)%nat with (m + 1)%nat by lia.
  rewrite walk_residues by done. reflexivity.
Qed.

Lemma pending_lists_only_available (l : list freespan) :
  pending_lists (only_available l) = [].
Proof.
  unfold pending_lists, only_available. cbn [pending].
  by rewrite map_to_list_empty.
Qed.

Lemma spancount_only_available (l : list freespan) :
  spancount (only_available l) = length l.
Proof.
  unfold spancount, pendingSpanCount, freeSpanCount.
  rewrite pending_lists_only_available. cbn [foldr spans only_available]. lia.
Qed.

Lemma residues_ok (a : Z) (m : nat) :
  0 ≤ a → a + 2 * Z.of_nat m ≤ freespanMaxStart → words_ok (residues a m).
Proof.
  revert a. induction m as [| m IH]; intros a Ha Hm; [constructor |].
  cbn [residues]. constructor.
  - apply pack_uint64; lia.
  - apply IH; lia.
Qed.

(** C7. The claim asks that a page written in the large-count encoding be
    read back without losing a span. Take the available list that [m] exact
    single-page allocations leave behind, [m] length-zero residues, followed
    by two free single pages: [m + 2 >= 0xFFFF] spans. [write] sets the count
    field to 0xFFFF and stores the two remaining spans after a first word
    holding 2; [read] then takes the words from 1 up to, but not including,
    2 and recovers only the first span: the last page is lost. *)
Theorem write_read_large_count_loses_span (m room : nat) :
  65533 ≤ Z.of_nat m ≤ 2 ^ 40 → (m + 3 ≤ room)%nat →
  let a := pack (3 + 2 * Z.of_nat m) 1 in
  let b := pack (5 + 2 * Z.of_nat m) 1 in
  let f := residue_state m in
  words_ok (spans f) ∧
  0xFFFF ≤ Z.of_nat (spancount f) ∧
  covers (spans f) (5 + 2 * Z.of_nat m) ∧
  ∃ p', write f (blank_page room) = Ok p' ∧
        count p' = 0xFFFF ∧
        take 3 (ptr p') = [2; a; b] ∧
        read newFreelist p' = Ok (only_available [a]) ∧
        ¬ covers [a] (5 + 2 * Z.of_nat m).
Proof.
  intros Hm Hroom a b f.
  assert (Hmax : freespanMaxStart = 2 ^ 48 - 1) by reflexivity.
  assert (Hua : is_uint64 a) by (apply pack_uint64; lia).
  assert (Hub : is_uint64 b) by (apply pack_uint64; lia).
  assert (Hcount : spancount f = (m + 2)%nat).
  { unfold f, residue_state. rewrite spancount_only_available.
    rewrite length_app, residues_length. reflexivity. }
  split; [| split; [| split]].
  - unfold f, residue_state, only_available, words_ok. cbn [spans].
    apply Forall_app. split; [apply residues_ok; lia |].
    constructor; [exact Hua |]. constructor; [exact Hub |]. constructor.
  - rewrite Hcount. lia.
  - exists b. split.
    + unfold f, residue_state, only_available. cbn [spans].
      apply elem_of_app. right. apply list_elem_of_further, list_elem_of_here.
    + apply contains_spec; [done | unfold is_uint64; lia |].
      unfold b. rewrite start_pack, size_pack by lia. lia.
  - destruct room as [| room]; [lia |].
    destruct m as [| [| m']]; [lia | lia |].
    set (m := S (S m')) in *.
    eexists. split; [| split; [| split; [| split]]].
    + unfold write. rewrite Hcount.
      destruct (Nat.eqb_spec (m + 2) 0); [lia |].
      destruct (Z.ltb_spec (Z.of_nat (m + 2)) 65535); [lia |].
      unfold blank_page. cbn [ptr replicate flags id overflow].
      unfold copyall, f, residue_state.
      rewrite pending_lists_only_available. cbn [spans only_available].
      rewrite mergenorm_residues; [| lia | rewrite length_replicate; lia | ..].
      * cbn [obind]. reflexivity.
      * unfold a. rewrite size_pack by lia. lia.
      * unfold b. rewrite size_pack by lia. lia.
      * rewrite start_pack by lia. lia.
      * rewrite start_pack by lia. lia.
    + reflexivity.
    + cbn [ptr]. unfold m. cbn [residues app]. reflexivity.
    + erewrite read_large_count with (k := 2); [| reflexivity | reflexivity | | lia].
      * unfold m. cbn [residues app]. reflexivity.
      * rewrite length_app, length_insert, length_insert, length_app,
          residues_length. cbn [length]. lia.
    + intros (x & Hx & Hc). apply list_elem_of_singleton in Hx as ->.
      apply contains_spec in Hc; [| done | unfold is_uint64; lia].
      unfold a in Hc. rewrite start_pack, size_pack in Hc by lia. lia.
Qed.

(** The smallest such free list: 65,533 residues and two free pages. *)
Lemma write_read_large_count_loses_span_witness :
  let m := Z.to_nat 65533 in
  let a := pack (3 + 2 * Z.of_nat m) 1 in
  let b := pack (5 + 2 * Z.of_nat m) 1 in
  let f := residue_state m in
  (65533 ≤ Z.of_nat m ≤ 2 ^ 40 ∧ (m + 3 ≤ Z.to_nat 65536)%nat) ∧
  words_ok (spans f) ∧
  0xFFFF ≤ Z.of_nat (spancount f) ∧
  covers (spans f) (5 + 2 * Z.of_nat m) ∧
  ∃ p', write f (blank_page (Z.to_nat 65536)) = Ok p' ∧
        count p' = 0xFFFF ∧
        take 3 (ptr p') = [2; a; b] ∧
        read newFreelist p' = Ok (only_available [a]) ∧
        ¬ covers [a] (5 + 2 * Z.of_nat m).
Proof.
  intros m a b f.
  assert (H1 : 65533 ≤ Z.of_nat m ≤ 2 ^ 40) by (unfold m; lia).
  assert (H2 : (m + 3 ≤ Z.to_nat 65536)%nat) by (unfold m; lia).
  split; [exact (conj H1 H2) |].
  exact (write_read_large_count_loses_span m (Z.to_nat 65536) H1 H2).
Defined.

(** ** Reloading *)

(** C9. The claim asks that [reload] return and remove every pending span
    when each is a sub-span of an available span. With the page holding
    (10,5) and the pending spans (11,1) and (13,1), both inside it, the
    search for (11,1) runs past the end of the list and the read of
    [f.spans[n]] is out of range. With (11,1) alone pending, the merged
    pending list is empty and page 11 stays available. *)
Theorem reload_panics_on_inner_span :
  let p := {| id := 7; flags := 0; count := 1; overflow := 0;
              ptr := [pack 10 5] |} in
  let f := {| spans := [];
              pending := {[ 1 := [pack 11 1]; 2 := [pack 13 1] ]} |} in
  let g := {| spans := []; pending := {[ 1 := [pack 11 1] ]} |} in
  read f p = Ok {| spans := [pack 10 5]; pending := pending f |} ∧
  mergenorm_slice None (pending_lists f) = Ok [pack 11 1; pack 13 1] ∧
  sub_span (pack 11 1) (pack 10 5) ∧ sub_span (pack 13 1) (pack 10 5) ∧
  reload f p = Panic "index out of range" ∧
  reload g p = Ok {| spans := [pack 10 5]; pending := pending g |} ∧
  covers [pack 10 5] 11.
Proof.
  intros p f g.
  split; [vm_compute; reflexivity |].
  split; [vm_compute; reflexivity |].
  split; [vm_compute; split; discriminate |].
  split; [vm_compute; split; discriminate |].
  split; [vm_compute; reflexivity |].
  split; [vm_compute; reflexivity |].
  exists (pack 10 5). split; [apply list_elem_of_here | reflexivity].
Qed.

(** ** Searches that run past the end *)

Lemma sort_Search_none (n : nat) (f : nat → bool) :
  (∀ k, (k < n)%nat → f k = false) → sort_Search n f = n.
Proof.
  intros Hnone.
  destruct (sort_Search_first n f) as (Hr & _ & Hafter).
  { intros a b Hab Hfa. rewrite Hnone in Hfa by lia. done. }
  destruct (decide (sort_Search n f = n)) as [| Hne]; [done |].
  specialize (Hafter (sort_Search n f) ltac:(lia)).
  rewrite Hnone in Hafter by lia. done.
Qed.

Lemma search_above_none (l : list freespan) (x : freespan) :
  Forall (λ s, s ≤ x) l →
  sort_Search (length l) (λ i, at_ l i >? x) = length l.
Proof.
  intros Hall. apply sort_Search_none. intros k Hk.
  destruct (lookup_lt_is_Some_2 l k Hk) as [s Hs].
  rewrite (at_lookup _ _ _ Hs). rewrite Forall_lookup in Hall.
  specialize (Hall k s Hs). cbv beta in Hall.
  rewrite Z.gtb_ltb. apply Z.ltb_ge. done.
Qed.

(** [reload] cannot remove a span that no available span lies above: the
    search returns the length of the list, and the list is read there. This
    is the case of every span to remove that matches the last available
    span, or is a suffix or a middle part of it. *)
Lemma reload_remove_past_end (l : list freespan) (rm : freespan) :
  Forall (λ s, s ≤ rm) l →
  reload_remove l rm = Panic "index out of range".
Proof.
  intros Hall. unfold reload_remove. rewrite search_above_none by done.
  unfold index. rewrite lookup_ge_None_2 by lia. reflexivity.
Qed.

(** [free] returns whenever no pending span of the transaction lies above
    the freed run, whatever is recorded as free already: in particular when
    the same run is freed again. *)
Lemma free_past_end (f : freelist) (t : txid) (p : page) :
  1 < id p ≤ freespanMaxStart → 0 ≤ overflow p < 65535 →
  Forall (λ s, s ≤ pack (id p) (overflow p + 1)) (default [] (pending f !! t)) →
  free f t p
  = Ok {| spans := spans f;
          pending := <[t := default [] (pending f !! t)
                               ++ [pack (id p) (overflow p + 1)]]> (pending f) |}.
Proof.
  intros Hid Hov Hall. unfold free.
  destruct (Z.leb_spec (id p) 1); [lia |].
  rewrite wrap64_small by lia.
  rewrite makeFreespan_ok by (change freespanMaxSize with 65535; lia).
  cbn [obind]. rewrite search_above_none by done.
  rewrite Nat.eqb_refl. reflexivity.
Qed.

(** * Further properties of the code *)

(** ** Packing and unpacking a span *)

(** X1. [makeFreespan] accepts exactly the starts up to 2^48 - 1 and the
    sizes up to 65,535, and the span it builds gives both back. *)
Theorem makeFreespan_roundtrip (a b : Z) :
  0 ≤ a → 0 ≤ b →
  if (a <=? freespanMaxStart) && (b <=? freespanMaxSize)
  then ∃ s, makeFreespan a b = Ok s ∧ is_uint64 s ∧
            Span.start s = a ∧ Span.size s = b
  else ¬ returns (makeFreespan a b).
Proof.
  intros Ha Hb.
  destruct (Z.leb_spec a freespanMaxStart) as [Ha' | Ha'];
    [destruct (Z.leb_spec b freespanMaxSize) as [Hb' | Hb'] |]; cbn [andb].
  - exists (pack a b). change freespanMaxSize with 65535 in Hb'.
    split; [apply makeFreespan_ok; change freespanMaxSize with 65535; lia |].
    split; [apply pack_uint64; lia |].
    split; [apply start_pack; lia | apply size_pack; lia].
  - intros [s Hs]. unfold makeFreespan in Hs.
    destruct (Z.gtb_spec a freespanMaxStart); [done |].
    destruct (Z.gtb_spec b freespanMaxSize); [done | lia].
  - intros [s Hs]. unfold makeFreespan in Hs.
    destruct (Z.gtb_spec a freespanMaxStart); [done | lia].
Qed.

Lemma makeFreespan_roundtrip_witness :
  ∃ s, makeFreespan 15 7 = Ok s ∧ is_uint64 s ∧
       Span.start s = 15 ∧ Span.size s = 7.
Proof.
  exact (makeFreespan_roundtrip 15 7 ltac:(lia) ltac:(lia)).
Defined.

(** X2. Every 64-bit word is a span: building a span from the start and the
    size of a word gives the word back, without a panic. *)
Theorem span_repack (s : freespan) :
  is_uint64 s → makeFreespan (Span.start s) (Span.size s) = Ok s.
Proof. apply makeFreespan_same. Qed.

Lemma span_repack_witness : makeFreespan (Span.start 983047) (Span.size 983047) = Ok 983047.
Proof. apply span_repack. unfold is_uint64. lia. Defined.

(** X3. A span contains exactly the pages from its start up to, but not
    including, its start plus its size; an empty span contains none, and the
    unsigned subtraction keeps the pages below the start out. *)
Theorem contains_iff_in_range (s : freespan) (pg : pgid) :
  is_uint64 s → is_uint64 pg →
  Span.contains s pg = true ↔
  Span.start s ≤ pg < Span.start s + Span.size s.
Proof. apply contains_spec. Qed.

Lemma contains_iff_in_range_witness :
  Span.contains (pack 15 7) 21 = true ↔
  Span.start (pack 15 7) ≤ 21 < Span.start (pack 15 7) + Span.size (pack 15 7).
Proof.
  apply contains_iff_in_range; unfold is_uint64, pack; lia.
Defined.

(** X4. [end] panics exactly on the empty spans; on the others it is the
    last page, [start + size - 1], and [next] is the page after it. [next]
    is [start + size] on every span, without wrap-around. *)
Theorem end_next (s : freespan) :
  is_uint64 s →
  Span.next s = Span.start s + Span.size s ∧
  if Span.size s =? 0
  then Span.end_ s = Panic "size 0 spans have no end"
  else Span.end_ s = Ok (Span.next s - 1).
Proof.
  intros Hs. pose proof (start_range s Hs) as Hst.
  pose proof (size_range s) as Hsz.
  change freespanMaxStart with (2 ^ 48 - 1) in Hst.
  assert (Hn : Span.next s = Span.start s + Span.size s).
  { unfold Span.next. apply wrap64_small. span_lia. }
  split; [exact Hn |]. unfold Span.end_. cbv zeta.
  destruct (Z.eqb_spec (Span.size s) 0) as [| Hne]; [done |].
  f_equal. rewrite Hn.
  rewrite (wrap64_small (Span.start s + Span.size s)) by span_lia.
  apply wrap64_small. span_lia.
Qed.

Lemma end_next_witness :
  Span.next (pack 15 7) = Span.start (pack 15 7) + Span.size (pack 15 7) ∧
  Span.end_ (pack 15 7) = Ok (Span.next (pack 15 7) - 1).
Proof.
  apply (end_next (pack 15 7)). unfold is_uint64, pack. lia.
Defined.

(** ** Overlap and the merge of two spans *)

Lemma overlaps_false_ordered (s t : freespan) :
  is_uint64 s → is_uint64 t → Span.start s ≤ Span.start t →
  Span.overlaps s t = false ↔
  Span.size s = 0 ∨ Span.start s + Span.size s ≤ Span.start t.
Proof.
  intros Hs Ht Hst. unfold Span.overlaps.
  destruct (Z.ltb_spec (Span.start t) (Span.start s)); [lia |].
  pose proof (start_range t Ht) as Hr.
  change freespanMaxStart with (2 ^ 48 - 1) in Hr.
  assert (Hu : is_uint64 (Span.start t)) by (unfold is_uint64; lia).
  pose proof (contains_spec s (Span.start t) Hs Hu) as Hc.
  pose proof (size_range s) as Hsz.
  destruct (Span.contains s (Span.start t)).
  - split; [done |]. intros Hx. exfalso.
    assert (Span.start s ≤ Span.start t < Span.start s + Span.size s) as Hin
      by (by apply Hc).
    span_lia.
  - split; [| done]. intros _.
    destruct (Z.eq_dec (Span.size s) 0) as [| Hne]; [by left |]. right.
    destruct (Z_lt_le_dec (Span.start t) (Span.start s + Span.size s))
      as [Hlt | Hge]; [| done].
    exfalso. assert (false = true); [| done]. apply Hc. lia.
Qed.

(** The ways in which [append] returns. *)
Lemma append_cases (s t u v : freespan) :
  is_uint64 s → is_uint64 t →
  Span.append s t = Ok (u, v) →
  Span.start s ≤ Span.start t ∧
  ((Span.size s = 0 ∧ Span.size t = 0 ∧ u = 0 ∧ v = 0) ∨
   (Span.size s = 0 ∧ Span.size t ≠ 0 ∧ u = t ∧ v = 0) ∨
   (Span.size s ≠ 0 ∧ Span.size t = 0 ∧ u = s ∧ v = 0 ∧
    Span.start s + Span.size s ≤ Span.start t) ∨
   (Span.size s ≠ 0 ∧ Span.size t ≠ 0 ∧ u = s ∧ v = t ∧
    Span.start s + Span.size s < Span.start t) ∨
   (Span.size s ≠ 0 ∧ Span.size t ≠ 0 ∧
    Span.start s + Span.size s = Span.start t ∧
    Span.size s + Span.size t ≤ 65535 ∧
    u = pack (Span.start s) (Span.size s + Span.size t) ∧ v = 0) ∨
   (Span.size s ≠ 0 ∧ Span.size t ≠ 0 ∧
    Span.start s + Span.size s = Span.start t ∧
    65535 < Span.size s + Span.size t ∧
    Span.start s + 65535 ≤ freespanMaxStart ∧
    u = pack (Span.start s) 65535 ∧
    v = pack (Span.start s + 65535) (Span.size s + Span.size t - 65535))).
Proof.
  intros Hs Ht H.
  pose proof (start_range s Hs) as Hrs. pose proof (start_range t Ht) as Hrt.
  pose proof (size_range s) as Hzs. pose proof (size_range t) as Hzt.
  change freespanMaxStart with (2 ^ 48 - 1) in Hrs, Hrt.
  unfold Span.append in H.
  destruct (Z.ltb_spec (Span.start t) (Span.start s)) as [| Hord]; [done |].
  destruct (Span.overlaps s t) eqn:Hov; [done |].
  apply overlaps_false_ordered in Hov; [| done | done | done].
  split; [done |]. cbv zeta in H.
  destruct (Z.eqb_spec (Span.size s) 0) as [Hs0 | Hs0];
    destruct (Z.eqb_spec (Span.size t) 0) as [Ht0 | Ht0].
  - cbn [Z.eqb] in H. injection H as <- <-. by left.
  - cbn [Z.eqb] in H. injection H as <- <-. right. by left.
  - rewrite (size_nonzero_word s) in H by done. cbn [Z.eqb] in H.
    injection H as <- <-. do 2 right. left.
    repeat split; try done. destruct Hov; [done | done].
  - rewrite (size_nonzero_word s), (size_nonzero_word t) in H by done.
    destruct Hov as [| Hov]; [done |].
    unfold Span.end_ in H. cbv zeta in H.
    rewrite (proj2 (Z.eqb_neq _ _) Hs0) in H. cbn [obind] in H.
    rewrite (wrap64_small (Span.start s + Span.size s)) in H by span_lia.
    rewrite (wrap64_small (Span.start s + Span.size s - 1)) in H by span_lia.
    rewrite (wrap64_small (Span.start s + Span.size s - 1 + 1)) in H
      by span_lia.
    rewrite (wrap64_small (Span.size s + Span.size t)) in H by span_lia.
    destruct (Z.eqb_spec (Span.start s + Span.size s - 1 + 1) (Span.start t))
      as [Hadj | Hapart]; cbn [negb] in H.
    + change freespanMaxSize with 65535 in H.
      destruct (Z.gtb_spec (Span.size s + Span.size t) 65535) as [Hbig | Hfit].
      * apply obind_Ok in H as (first & Hfirst & H).
        apply obind_Ok in H as (second & Hsecond & H).
        injection H as <- <-.
        apply makeFreespan_Ok_inv in Hfirst as (-> & _ & _); [| lia | lia].
        destruct (Z_le_gt_dec (Span.start s + 65535) (2 ^ 48 - 1))
          as [Hroom | Hnoroom].
        -- rewrite (wrap64_small (Span.start s + 65535)) in Hsecond
             by span_lia.
           rewrite (wrap64_small (Span.size s + Span.size t - 65535))
             in Hsecond by span_lia.
           apply makeFreespan_Ok_inv in Hsecond as (-> & _ & _);
             [| span_lia | span_lia].
           do 5 right. repeat split; try done; try span_lia.
        -- exfalso. unfold makeFreespan in Hsecond.
           rewrite (wrap64_small (Span.start s + 65535)) in Hsecond
             by span_lia.
           change freespanMaxStart with (2 ^ 48 - 1) in Hsecond.
           destruct (Z.gtb_spec (Span.start s + 65535) (2 ^ 48 - 1));
             [done | span_lia].
      * apply obind_Ok in H as (m & Hm & H). injection H as <- <-.
        apply makeFreespan_Ok_inv in Hm as (-> & _ & _);
          [| span_lia | span_lia].
        do 4 right. left. repeat split; try done; span_lia.
    + injection H as <- <-. do 3 right. left.
      repeat split; try done. span_lia.
Qed.

(** X5. Two spans that are not empty overlap exactly when they share a
    page, whichever of the two is asked. *)
Theorem overlaps_iff_share (s t : freespan) :
  is_uint64 s → is_uint64 t → Span.size s ≠ 0 → Span.size t ≠ 0 →
  (Span.overlaps s t = true ↔
   ∃ pg, is_uint64 pg ∧ Span.contains s pg = true ∧
         Span.contains t pg = true) ∧
  Span.overlaps s t = Span.overlaps t s.
Proof.
  intros Hs Ht Hs0 Ht0.
  pose proof (start_range s Hs) as Hrs. pose proof (start_range t Ht) as Hrt.
  pose proof (size_range s) as Hzs. pose proof (size_range t) as Hzt.
  change freespanMaxStart with (2 ^ 48 - 1) in Hrs, Hrt.
  assert (Hus : is_uint64 (Span.start s)) by (unfold is_uint64; lia).
  assert (Hut : is_uint64 (Span.start t)) by (unfold is_uint64; lia).
  assert (Hshare : (∃ pg, is_uint64 pg ∧ Span.contains s pg = true ∧
                          Span.contains t pg = true) ↔
                   Span.start t < Span.start s + Span.size s ∧
                   Span.start s < Span.start t + Span.size t).
  { split.
    - intros (pg & Hpg & Hcs & Hct).
      apply contains_spec in Hcs; [| done | done].
      apply contains_spec in Hct; [| done | done]. lia.
    - intros [H1 H2]. exists (Z.max (Span.start s) (Span.start t)).
      assert (Hm : is_uint64 (Z.max (Span.start s) (Span.start t)))
        by (unfold is_uint64 in *; lia).
      split; [done |].
      split; (apply contains_spec; [done | done | span_lia]). }
  assert (Hst : Span.overlaps s t = true ↔
                Span.start t < Span.start s + Span.size s ∧
                Span.start s < Span.start t + Span.size t).
  { unfold Span.overlaps.
    destruct (Z.ltb_spec (Span.start t) (Span.start s)).
    - rewrite contains_spec by done. span_lia.
    - rewrite contains_spec by done. span_lia. }
  assert (Hts : Span.overlaps t s = true ↔
                Span.start t < Span.start s + Span.size s ∧
                Span.start s < Span.start t + Span.size t).
  { unfold Span.overlaps.
    destruct (Z.ltb_spec (Span.start s) (Span.start t)).
    - rewrite contains_spec by done. span_lia.
    - rewrite contains_spec by done. span_lia. }
  split; [by rewrite Hshare |].
  destruct (Span.overlaps s t), (Span.overlaps t s); try done.
  - symmetry. apply Hts. by apply Hst.
  - apply Hst. by apply Hts.
Qed.

Lemma overlaps_iff_share_witness :
  (Span.overlaps (pack 10 5) (pack 12 6) = true ↔
   ∃ pg, is_uint64 pg ∧ Span.contains (pack 10 5) pg = true ∧
         Span.contains (pack 12 6) pg = true) ∧
  Span.overlaps (pack 10 5) (pack 12 6) = Span.overlaps (pack 12 6) (pack 10 5).
Proof.
  apply overlaps_iff_share.
  - unfold is_uint64, pack. lia.
  - unfold is_uint64, pack. lia.
  - vm_compute. discriminate.
  - vm_compute. discriminate.
Defined.

(** The pages of what [append] returns. *)
Lemma append_pages_aux (s t u v : freespan) (pg : pgid) :
  is_uint64 s → is_uint64 t → is_uint64 pg →
  Span.append s t = Ok (u, v) →
  Span.contains u pg || Span.contains v pg
  = Span.contains s pg || Span.contains t pg.
Proof.
  intros Hs Ht Hpg H.
  pose proof (start_range s Hs) as Hrs. pose proof (start_range t Ht) as Hrt.
  pose proof (size_range s) as Hzs. pose proof (size_range t) as Hzt.
  change freespanMaxStart with (2 ^ 48 - 1) in Hrs, Hrt.
  assert (Hempty : ∀ x, Span.size x = 0 → Span.contains x pg = false).
  { intros x Hx. unfold Span.contains. by rewrite Hx. }
  assert (Hzero : Span.contains 0 pg = false) by (by apply Hempty).
  apply append_cases in H as (Hord & H); [| done | done].
  destruct H as [(Hs0 & Ht0 & -> & ->) | [(Hs0 & Ht0 & -> & ->) |
    [(Hs0 & Ht0 & -> & -> & _) | [(Hs0 & Ht0 & -> & -> & _) |
    [(Hs0 & Ht0 & Hadj & Hfit & -> & ->) |
     (Hs0 & Ht0 & Hadj & Hbig & Hroom & -> & ->)]]]]].
  - by rewrite !Hempty.
  - by rewrite Hzero, (Hempty s), orb_false_r.
  - by rewrite Hzero, (Hempty t).
  - done.
  - rewrite Hzero, orb_false_r.
    assert (Hu : is_uint64 (pack (Span.start s) (Span.size s + Span.size t)))
      by (apply pack_uint64; [change freespanMaxStart with (2 ^ 48 - 1) |];
          span_lia).
    apply eq_true_iff_eq. rewrite orb_true_iff.
    rewrite !contains_spec by done.
    rewrite start_pack, size_pack by span_lia. span_lia.
  - change freespanMaxStart with (2 ^ 48 - 1) in Hroom.
    assert (Hu : is_uint64 (pack (Span.start s) 65535))
      by (apply pack_uint64; [change freespanMaxStart with (2 ^ 48 - 1) |];
          span_lia).
    assert (Hv : is_uint64 (pack (Span.start s + 65535)
                                 (Span.size s + Span.size t - 65535)))
      by (apply pack_uint64; [change freespanMaxStart with (2 ^ 48 - 1) |];
          span_lia).
    apply eq_true_iff_eq. rewrite !orb_true_iff.
    rewrite !contains_spec by done.
    rewrite !start_pack, !size_pack by span_lia. span_lia.
Qed.

(** X6. Whenever [append] returns, the spans it returns hold exactly the
    pages of its two arguments; an absent result, the word 0, holds none. *)
Theorem append_keeps_pages (s t u v : freespan) (pg : pgid) :
  is_uint64 s → is_uint64 t → is_uint64 pg →
  Span.append s t = Ok (u, v) →
  Span.contains u pg || Span.contains v pg
  = Span.contains s pg || Span.contains t pg.
Proof. apply append_pages_aux. Qed.

Lemma append_keeps_pages_witness :
  Span.append (pack 10 1) (pack 11 3) = Ok (pack 10 4, 0) ∧
  Span.contains (pack 10 4) 12 || Span.contains 0 12
  = Span.contains (pack 10 1) 12 || Span.contains (pack 11 3) 12.
Proof.
  split; [reflexivity |].
  apply (append_keeps_pages (pack 10 1) (pack 11 3) (pack 10 4) 0 12);
    try (unfold is_uint64, pack; lia).
  reflexivity.
Defined.

(** The shape of what [append] returns. *)
Lemma append_result_shape_aux (s t u v : freespan) :
  is_uint64 s → is_uint64 t →
  Span.append s t = Ok (u, v) →
  (u = 0 → v = 0) ∧
  (u ≠ 0 → Span.size u ≠ 0) ∧
  (v ≠ 0 →
   Span.size v ≠ 0 ∧
   Span.start u + Span.size u ≤ Span.start v ∧
   (Span.start u + Span.size u = Span.start v → Span.size u = 65535)).
Proof.
  intros Hs Ht H.
  pose proof (start_range s Hs) as Hrs. pose proof (start_range t Ht) as Hrt.
  pose proof (size_range s) as Hzs. pose proof (size_range t) as Hzt.
  change freespanMaxStart with (2 ^ 48 - 1) in Hrs, Hrt.
  apply append_cases in H as (Hord & H); [| done | done].
  destruct H as [(Hs0 & Ht0 & -> & ->) | [(Hs0 & Ht0 & -> & ->) |
    [(Hs0 & Ht0 & -> & -> & _) | [(Hs0 & Ht0 & -> & -> & Hgap) |
    [(Hs0 & Ht0 & Hadj & Hfit & -> & ->) |
     (Hs0 & Ht0 & Hadj & Hbig & Hroom & -> & ->)]]]]].
  - done.
  - done.
  - done.
  - split; [| split].
    + intros ->. exfalso. apply Hs0. reflexivity.
    + done.
    + intros _. split; [done |]. split; [span_lia | intros ?; span_lia].
  - split; [| split]; [| | done].
    + intros Hu. exfalso. apply (f_equal Span.size) in Hu.
      rewrite size_pack in Hu by span_lia.
      change (Span.size 0) with 0 in Hu. span_lia.
    + intros _. rewrite size_pack by span_lia. span_lia.
  - split; [| split].
    + intros Hu. exfalso. apply (f_equal Span.size) in Hu.
      rewrite size_pack in Hu by lia. discriminate.
    + intros _. rewrite size_pack by lia. lia.
    + intros _. rewrite !start_pack, !size_pack by span_lia.
      split; [span_lia |]. split; [lia | done].
Qed.

(** X7. The shape of what [append] returns: a result in the second place
    comes only with one in the first; the spans returned are not empty; the
    second starts at or after the end of the first, and it starts exactly
    there only when the first already has the maximal size 65,535. *)
Theorem append_result_shape (s t u v : freespan) :
  is_uint64 s → is_uint64 t →
  Span.append s t = Ok (u, v) →
  (u = 0 → v = 0) ∧
  (u ≠ 0 → Span.size u ≠ 0) ∧
  (v ≠ 0 →
   Span.size v ≠ 0 ∧
   Span.start u + Span.size u ≤ Span.start v ∧
   (Span.start u + Span.size u = Span.start v → Span.size u = 65535)).
Proof. apply append_result_shape_aux. Qed.

Lemma append_result_shape_witness :
  let u := pack 10 65535 in
  let v := pack 65545 1 in
  Span.append (pack 10 65533) (pack 65543 3) = Ok (u, v) ∧
  (u = 0 → v = 0) ∧
  (u ≠ 0 → Span.size u ≠ 0) ∧
  (v ≠ 0 →
   Span.size v ≠ 0 ∧
   Span.start u + Span.size u ≤ Span.start v ∧
   (Span.start u + Span.size u = Span.start v → Span.size u = 65535)).
Proof.
  intros u v. split; [reflexivity |].
  apply (append_result_shape (pack 10 65533) (pack 65543 3));
    try (unfold is_uint64, pack; lia).
  reflexivity.
Defined.

Lemma append_empty_right (s t : freespan) :
  is_uint64 s → is_uint64 t →
  Span.size s ≠ 0 → Span.size t = 0 →
  Span.start s + Span.size s ≤ Span.start t →
  Span.append s t = Ok (s, 0).
Proof.
  intros Hs Ht Hs0 Ht0 Hst. pose proof (size_range s) as Hzs.
  assert (Hov : Span.overlaps s t = false)
    by (apply overlaps_false_ordered; [done | done | span_lia | by right]).
  unfold Span.append. rewrite Hov.
  destruct (Z.ltb_spec (Span.start t) (Span.start s)); [span_lia |].
  cbv zeta. rewrite Ht0, (proj2 (Z.eqb_neq _ _) Hs0). cbn [Z.eqb].
  rewrite size_nonzero_word by done. reflexivity.
Qed.

(** The merge of two spans that touch. *)
Lemma append_touching (s t : freespan) :
  is_uint64 s → is_uint64 t →
  Span.size s ≠ 0 → Span.size t ≠ 0 →
  Span.start s + Span.size s = Span.start t →
  Span.start s + 65535 ≤ freespanMaxStart →
  Span.append s t
  = if Span.size s + Span.size t <=? 65535
    then Ok (pack (Span.start s) (Span.size s + Span.size t), 0)
    else Ok (pack (Span.start s) 65535,
             pack (Span.start s + 65535) (Span.size s + Span.size t - 65535)).
Proof.
  intros Hs Ht Hs0 Ht0 Hadj Hroom.
  pose proof (start_range s Hs) as Hrs. pose proof (start_range t Ht) as Hrt.
  pose proof (size_range s) as Hzs. pose proof (size_range t) as Hzt.
  change freespanMaxStart with (2 ^ 48 - 1) in *.
  assert (Hov : Span.overlaps s t = false)
    by (apply overlaps_false_ordered; [done | done | span_lia |];
        right; span_lia).
  unfold Span.append, Span.end_. rewrite Hov.
  destruct (Z.ltb_spec (Span.start t) (Span.start s)); [span_lia |].
  cbv zeta.
  rewrite (proj2 (Z.eqb_neq _ _) Hs0), (proj2 (Z.eqb_neq _ _) Ht0).
  rewrite (size_nonzero_word s), (size_nonzero_word t) by done.
  rewrite (proj2 (Z.eqb_neq _ _) Hs0). cbn [obind].
  rewrite (wrap64_small (Span.start s + Span.size s)) by span_lia.
  rewrite (wrap64_small (Span.start s + Span.size s - 1)) by span_lia.
  rewrite (wrap64_small (Span.start s + Span.size s - 1 + 1)) by span_lia.
  rewrite (wrap64_small (Span.size s + Span.size t)) by span_lia.
  destruct (Z.eqb_spec (Span.start s + Span.size s - 1 + 1) (Span.start t));
    [| span_lia].
  cbn [negb]. change freespanMaxSize with 65535.
  destruct (Z.gtb_spec (Span.size s + Span.size t) 65535) as [Hbig | Hfit];
    destruct (Z.leb_spec (Span.size s + Span.size t) 65535); try lia.
  - rewrite makeFreespan_ok
      by (change freespanMaxStart with (2 ^ 48 - 1);
          change freespanMaxSize with 65535; lia).
    cbn [obind].
    rewrite (wrap64_small (Span.start s + 65535)) by span_lia.
    rewrite (wrap64_small (Span.size s + Span.size t - 65535)) by span_lia.
    rewrite makeFreespan_ok
      by (change freespanMaxStart with (2 ^ 48 - 1);
          change freespanMaxSize with 65535; span_lia).
    reflexivity.
  - rewrite makeFreespan_ok
      by (change freespanMaxStart with (2 ^ 48 - 1);
          change freespanMaxSize with 65535; span_lia).
    reflexivity.
Qed.

(** X9. Two spans that are not empty and of which the second starts where
    the first ends are merged: into one span of the summed size when that is
    at most 65,535, and otherwise into a span of 65,535 pages followed by
    the remainder. *)
Theorem append_adjacent (s t : freespan) :
  is_uint64 s → is_uint64 t →
  Span.size s ≠ 0 → Span.size t ≠ 0 →
  Span.start s + Span.size s = Span.start t →
  Span.start s + 65535 ≤ freespanMaxStart →
  Span.append s t
  = if Span.size s + Span.size t <=? 65535
    then Ok (pack (Span.start s) (Span.size s + Span.size t), 0)
    else Ok (pack (Span.start s) 65535,
             pack (Span.start s + 65535) (Span.size s + Span.size t - 65535)).
Proof. apply append_touching. Qed.

Lemma append_adjacent_witness :
  Span.append (pack 10 1) (pack 11 3) = Ok (pack 10 4, 0).
Proof.
  apply (append_adjacent (pack 10 1) (pack 11 3));
    try (unfold is_uint64, pack; lia);
    vm_compute; congruence.
Defined.

(** X8. [append] returns exactly when its first argument does not start
    after the second and the two do not overlap, as long as a merged span
    has room below 2^48. An empty second argument that starts inside the
    first counts as overlapping. *)
Theorem append_returns_iff (s t : freespan) :
  is_uint64 s → is_uint64 t →
  Span.start s + 65535 ≤ freespanMaxStart →
  returns (Span.append s t) ↔
  Span.start s ≤ Span.start t ∧
  (Span.size s = 0 ∨ Span.start s + Span.size s ≤ Span.start t).
Proof.
  intros Hs Ht Hroom. split.
  - intros [[u v] H]. unfold Span.append in H.
    destruct (Z.ltb_spec (Span.start t) (Span.start s)) as [| Hord];
      [done |].
    destruct (Span.overlaps s t) eqn:Hov; [done |].
    apply overlaps_false_ordered in Hov; done.
  - intros [Hord Hclear].
    destruct (Z.eq_dec (Span.size s) 0) as [Hs0 | Hs0];
      destruct (Z.eq_dec (Span.size t) 0) as [Ht0 | Ht0].
    + eexists. by apply append_empty_both.
    + eexists. by apply append_empty_left.
    + eexists. apply append_empty_right; try done. by destruct Hclear.
    + destruct Hclear as [| Hclear]; [done |].
      destruct (Z.eq_dec (Span.start s + Span.size s) (Span.start t))
        as [Hadj | Hgap].
      * rewrite append_touching by done.
        destruct (Span.size s + Span.size t <=? 65535); eexists; reflexivity.
      * eexists. apply append_apart; try done. lia.
Qed.

Lemma append_returns_iff_witness :
  returns (Span.append (pack 10 5) (pack 12 0)) ↔
  Span.start (pack 10 5) ≤ Span.start (pack 12 0) ∧
  (Span.size (pack 10 5) = 0 ∨
   Span.start (pack 10 5) + Span.size (pack 10 5) ≤ Span.start (pack 12 0)).
Proof.
  apply append_returns_iff; try (unfold is_uint64, pack; lia).
  vm_compute. discriminate.
Defined.

(** ** Listing and counting pages *)

Lemma wrapInt_small (z : Z) : - 2 ^ 63 ≤ z < 2 ^ 63 → wrapInt z = z.
Proof. intros H. unfold wrapInt. rewrite Z.mod_small by lia. lia. Qed.

Lemma page_run_length (a : pgid) (k : nat) : length (page_run a k) = k.
Proof. revert a. induction k as [| k IH]; intros a; simpl; [done |]. by rewrite IH. Qed.

Lemma elem_of_page_run (a pg : pgid) (k : nat) :
  pg ∈ page_run a k ↔ a ≤ pg < a + Z.of_nat k.
Proof.
  revert a. induction k as [| k IH]; intros a.
  - cbn [page_run]. rewrite elem_of_nil. lia.
  - cbn [page_run]. rewrite elem_of_cons, IH. lia.
Qed.

(** The loop of [appendAll] with enough fuel appends the run from [i] up
    to [next]; fuel beyond the width of the run is not used. *)
Lemma appendAll_loop_run (fuel : nat) (i next : pgid) (ids : list pgid) :
  0 ≤ i ≤ next → next < 2 ^ 64 → (Z.to_nat (next - i) ≤ fuel)%nat →
  appendAll_loop fuel i next ids = ids ++ page_run i (Z.to_nat (next - i)).
Proof.
  revert i ids. induction fuel as [| fuel IH]; intros i ids Hi Hn Hf.
  - replace (Z.to_nat (next - i)) with 0%nat by lia.
    cbn. by rewrite app_nil_r.
  - cbn [appendAll_loop]. destruct (Z.ltb_spec i next) as [Hlt | Hge].
    + rewrite wrap64_small by lia. rewrite IH by lia.
      replace (Z.to_nat (next - i)) with (S (Z.to_nat (next - (i + 1))))
        by lia.
      cbn [page_run]. by rewrite <- app_assoc.
    + replace (Z.to_nat (next - i)) with 0%nat by lia.
      cbn. by rewrite app_nil_r.
Qed.

Lemma appendAll_run (s : freespan) (ids : list pgid) :
  is_uint64 s →
  appendAll s ids = ids ++ page_run (Span.start s) (Z.to_nat (Span.size s)).
Proof.
  intros Hs. pose proof (start_range s Hs) as Hst.
  pose proof (size_range s) as Hsz.
  change freespanMaxStart with (2 ^ 48 - 1) in Hst.
  assert (Hn : Span.next s = Span.start s + Span.size s).
  { unfold Span.next. apply wrap64_small. span_lia. }
  unfold appendAll. rewrite appendAll_loop_run; [| span_lia | span_lia | lia].
  rewrite Hn. do 3 f_equal. lia.
Qed.

(** X10. [appendAll] appends the pages of the span in ascending order, as
    many as its size, and they are exactly the pages the span contains. *)
Theorem appendAll_pages (s : freespan) (ids : list pgid) :
  is_uint64 s →
  appendAll s ids = ids ++ page_run (Span.start s) (Z.to_nat (Span.size s)) ∧
  Z.of_nat (length (appendAll s ids))
    = Z.of_nat (length ids) + Span.size s ∧
  ∀ pg, is_uint64 pg →
        (pg ∈ appendAll s [] ↔ Span.contains s pg = true).
Proof.
  intros Hs. pose proof (size_range s) as Hsz.
  split; [by apply appendAll_run |]. split.
  - rewrite appendAll_run by done.
    rewrite length_app, page_run_length. lia.
  - intros pg Hpg. rewrite appendAll_run by done. cbn [app].
    rewrite elem_of_page_run, contains_spec by done. lia.
Qed.

Lemma appendAll_pages_witness :
  appendAll (pack 12 4) [3] = [3; 12; 13; 14; 15].
Proof.
  assert (H : is_uint64 (pack 12 4)) by (unfold is_uint64, pack; lia).
  exact (proj1 (appendAll_pages (pack 12 4) [3] H)).
Defined.

Lemma pages_of_cons (s : freespan) (l : list freespan) :
  pages_of (s :: l)
  = page_run (Span.start s) (Z.to_nat (Span.size s)) ++ pages_of l.
Proof. reflexivity. Qed.

Lemma pages_of_app (l k : list freespan) :
  pages_of (l ++ k) = pages_of l ++ pages_of k.
Proof. unfold pages_of. by rewrite fmap_app, concat_app. Qed.

Lemma elem_of_pages_of (l : list freespan) (pg : pgid) :
  words_ok l → is_uint64 pg → pg ∈ pages_of l ↔ covers l pg.
Proof.
  intros Hok Hpg. induction l as [| s l IH].
  - split; [by intros ?%elem_of_nil |]. by intros (s & ?%elem_of_nil & _).
  - apply Forall_cons in Hok as [Hs Hok]. pose proof (size_range s).
    rewrite pages_of_cons, elem_of_app, elem_of_page_run, IH by done.
    split.
    + intros [Hin | (x & Hx & Hc)].
      * exists s. split; [apply list_elem_of_here |].
        apply contains_spec; [done | done | lia].
      * exists x. split; [by apply list_elem_of_further | done].
    + intros (x & Hx & Hc). apply elem_of_cons in Hx as [-> | Hx].
      * left. apply contains_spec in Hc; [lia | done | done].
      * right. by exists x.
Qed.

Lemma foldl_appendAll (l : list freespan) (ids : list pgid) :
  words_ok l →
  foldl (λ ids span, appendAll span ids) ids l = ids ++ pages_of l.
Proof.
  revert ids. induction l as [| s l IH]; intros ids Hok.
  - cbn. by rewrite app_nil_r.
  - apply Forall_cons in Hok as [Hs Hok]. cbn [foldl].
    rewrite IH, appendAll_run, pages_of_cons by done. by rewrite <- app_assoc.
Qed.

Lemma foldl_appendAll_lists (ls : list (list freespan)) (ids : list pgid) :
  Forall words_ok ls →
  foldl (λ ids list, foldl (λ ids span, appendAll span ids) ids list) ids ls
  = ids ++ pages_of (concat ls).
Proof.
  revert ids. induction ls as [| l ls IH]; intros ids Hok.
  - cbn. by rewrite app_nil_r.
  - apply Forall_cons in Hok as [Hl Hok]. cbn [foldl concat].
    rewrite IH, foldl_appendAll, pages_of_app by done. by rewrite <- app_assoc.
Qed.

Lemma foldl_count (l : list freespan) (acc : Z) :
  0 ≤ acc → acc + Z.of_nat (length (pages_of l)) ≤ maxInt →
  foldl (λ n span, wrapInt (n + Span.size span)) acc l
  = acc + Z.of_nat (length (pages_of l)).
Proof.
  revert acc. induction l as [| s l IH]; intros acc Hacc Hmax.
  - cbn. lia.
  - pose proof (size_range s) as Hsz. unfold maxInt in *.
    rewrite pages_of_cons, length_app, page_run_length in Hmax |- *.
    cbn [foldl]. rewrite wrapInt_small by lia.
    rewrite IH by lia. lia.
Qed.

Lemma foldl_count_lists (ls : list (list freespan)) (acc : Z) :
  0 ≤ acc → acc + Z.of_nat (length (pages_of (concat ls))) ≤ maxInt →
  foldl (λ n list, foldl (λ n span, wrapInt (n + Span.size span)) n list)
        acc ls
  = acc + Z.of_nat (length (pages_of (concat ls))).
Proof.
  revert acc. induction ls as [| l ls IH]; intros acc Hacc Hmax.
  - cbn. lia.
  - cbn [foldl concat] in *.
    rewrite pages_of_app, length_app in Hmax |- *.
    rewrite foldl_count by lia. rewrite IH by lia. lia.
Qed.

Lemma elem_of_concat {A : Type} (x : A) (ls : list (list A)) :
  x ∈ concat ls ↔ ∃ l, x ∈ l ∧ l ∈ ls.
Proof.
  induction ls as [| l ls IH]; cbn [concat].
  - split; [by intros ?%elem_of_nil |]. by intros (l & _ & ?%elem_of_nil).
  - rewrite elem_of_app, IH. split.
    + intros [Hx | (l' & Hx & Hl)].
      * exists l. split; [done | apply list_elem_of_here].
      * exists l'. split; [done | by apply list_elem_of_further].
    + intros (l' & Hx & Hl). apply elem_of_cons in Hl as [-> | Hl].
      * by left.
      * right. by exists l'.
Qed.

Lemma elem_of_pending_lists (f : freelist) (l : list freespan) :
  l ∈ pending_lists f ↔ ∃ t, pending f !! t = Some l.
Proof.
  unfold pending_lists. rewrite list_elem_of_fmap. split.
  - intros ([t l'] & -> & Hin). exists t. by apply elem_of_map_to_list.
  - intros (t & Ht). exists (t, l). split; [done |].
    by apply elem_of_map_to_list.
Qed.

(** X11. [allpages] lists every page of the available spans and of the
    pending spans, each as often as it is recorded, so a page is listed
    exactly when it is recorded as free; [pagecount], the capacity asked for
    the list, is its length, and it is the sum of [freePageCount] and
    [pendingPageCount]. *)
Theorem allpages_count (f : freelist) :
  words_ok (spans f) → Forall words_ok (pending_lists f) →
  Z.of_nat (length (allpages f)) ≤ maxInt →
  pagecount f = Z.of_nat (length (allpages f)) ∧
  pagecount f = freePageCount f + pendingPageCount f ∧
  freePageCount f = Z.of_nat (length (pages_of (spans f))) ∧
  ∀ pg, is_uint64 pg → (pg ∈ allpages f ↔ recorded f pg).
Proof.
  intros Hok Hoks Hmax.
  assert (Hall : allpages f
                 = pages_of (spans f) ++ pages_of (concat (pending_lists f))).
  { unfold allpages. rewrite foldl_appendAll by done.
    by rewrite foldl_appendAll_lists. }
  rewrite Hall, length_app in Hmax.
  assert (Hfree : freePageCount f = Z.of_nat (length (pages_of (spans f)))).
  { unfold freePageCount. rewrite foldl_count by lia. lia. }
  assert (Hpend : pendingPageCount f
                  = Z.of_nat (length (pages_of (concat (pending_lists f))))).
  { unfold pendingPageCount. rewrite foldl_count_lists by lia. lia. }
  assert (Hsum : pagecount f = freePageCount f + pendingPageCount f).
  { unfold pagecount. apply wrapInt_small. unfold maxInt in Hmax. lia. }
  split; [| split; [done | split; [done |]]].
  - rewrite Hsum, Hfree, Hpend, Hall, length_app. lia.
  - intros pg Hpg. rewrite Hall, elem_of_app.
    rewrite elem_of_pages_of by done.
    assert (Hc : words_ok (concat (pending_lists f))).
    { unfold words_ok. apply Forall_concat. exact Hoks. }
    rewrite elem_of_pages_of by done. unfold recorded.
    split; (intros [Ha | Hp]; [by left | right]).
    + destruct Hp as (s & Hs & Hcs).
      apply elem_of_concat in Hs as (l & Hsl & Hl).
      apply elem_of_pending_lists in Hl as [t Ht].
      exists t, l. split; [done |]. by exists s.
    + destruct Hp as (t & l & Ht & s & Hs & Hcs).
      exists s. split; [| done]. apply elem_of_concat.
      exists l. split; [done |]. apply elem_of_pending_lists. by exists t.
Qed.

Lemma allpages_count_witness :
  let f := {| spans := [pack 12 1; pack 39 1];
              pending := {[ 100 := [pack 11 1; pack 28 2] ]} |} in
  allpages f = [12; 39; 11; 28; 29] ∧ pagecount f = 5 ∧
  pagecount f = Z.of_nat (length (allpages f)).
Proof.
  intros f. split; [reflexivity |]. split; [reflexivity |].
  refine (proj1 (allpages_count f _ _ _)).
  - repeat constructor; unfold pack; lia.
  - replace (pending_lists f) with [[pack 11 1; pack 28 2]] by reflexivity.
    repeat constructor; unfold pack; lia.
  - replace (allpages f) with [12; 39; 11; 28; 29] by reflexivity.
    unfold maxInt. cbn [length]. lia.
Defined.

(** ** What [mergenorm] keeps to *)

Lemma makeFreespan_no_fault (a b : Z) : makeFreespan a b ≠ MemFault.
Proof.
  unfold makeFreespan.
  destruct (a >? freespanMaxStart); [done |].
  destruct (b >? freespanMaxSize); done.
Qed.

Lemma obind_no_fault {A B : Type} (m : outcome A) (k : A → outcome B) :
  m ≠ MemFault → (∀ a, k a ≠ MemFault) → obind m k ≠ MemFault.
Proof. destruct m as [a | |]; cbn [obind]; [auto | done | done]. Qed.

Lemma append_no_fault (s t : freespan) : Span.append s t ≠ MemFault.
Proof.
  unfold Span.append, Span.end_.
  repeat match goal with
         | |- (if ?c then _ else _) ≠ _ => destruct c
         | |- obind _ _ ≠ _ =>
             apply obind_no_fault; [try apply makeFreespan_no_fault | intros ?]
         | |- (let x := _ in _) ≠ _ => cbv zeta
         | |- Ok _ ≠ _ => discriminate
         | |- Panic _ ≠ _ => discriminate
         end.
Qed.

Lemma index_no_fault {A : Type} (l : list A) (i : nat) : index l i ≠ MemFault.
Proof. unfold index. destruct (l !! i); done. Qed.

Lemma walk_step_no_fault (dst : list freespan) (out i : nat) :
  walk_step dst out i ≠ MemFault.
Proof.
  unfold walk_step.
  apply obind_no_fault; [apply index_no_fault | intros s].
  apply obind_no_fault; [apply index_no_fault | intros t].
  apply obind_no_fault; [apply append_no_fault | intros [u v]].
  destruct (u =? 0); [done |]. destruct (v =? 0); [done |].
  cbv zeta. destruct (S out <? length (<[out:=u]> dst))%nat; done.
Qed.

Lemma walk_no_fault (idxs : list nat) (dst : list freespan) (out : nat) :
  walk idxs dst out ≠ MemFault.
Proof.
  revert dst out. induction idxs as [| i idxs IH]; intros dst out; [done |].
  cbn [walk]. apply obind_no_fault; [apply walk_step_no_fault |].
  intros [dst' out']. apply IH.
Qed.

Lemma index_Ok {A : Type} (l : list A) (i : nat) (x : A) :
  index l i = Ok x → l !! i = Some x.
Proof. unfold index. destruct (l !! i); [by intros [= ->] | done]. Qed.

Lemma walk_step_bounds (dst dst' : list freespan) (out out' i : nat) :
  walk_step dst out i = Ok (dst', out') →
  length dst' = length dst ∧ (out ≤ out' ≤ length dst)%nat.
Proof.
  unfold walk_step. intros H.
  apply obind_Ok in H as (s & Hs & H). apply index_Ok in Hs.
  apply lookup_lt_Some in Hs.
  apply obind_Ok in H as (t & _ & H).
  apply obind_Ok in H as ([u v] & _ & H).
  destruct (u =? 0); [injection H as <- <-; lia |].
  destruct (v =? 0).
  - injection H as <- <-. rewrite length_insert. lia.
  - cbv zeta in H.
    destruct (Nat.ltb_spec (S out) (length (<[out:=u]> dst))) as [Hlt |];
      [| done].
    injection H as <- <-. rewrite length_insert in Hlt.
    rewrite !length_insert. lia.
Qed.

Lemma walk_bounds (idxs : list nat) (dst dst' : list freespan)
    (out out' : nat) :
  (out ≤ length dst)%nat →
  walk idxs dst out = Ok (dst', out') →
  length dst' = length dst ∧ (out ≤ out' ≤ length dst)%nat.
Proof.
  revert dst out. induction idxs as [| i idxs IH]; intros dst out Hout H.
  - injection H as <- <-. lia.
  - cbn [walk] in H. apply obind_Ok in H as ([d o] & Hstep & H).
    apply walk_step_bounds in Hstep as [Hlen Ho].
    apply IH in H as [Hlen' Ho']; [| lia]. rewrite Hlen in *. lia.
Qed.

(** What a returning [mergenorm] has done to the array it was given. *)
Lemma mergenorm_Ok (dst : option (list freespan))
    (all : list (list freespan)) (arr : list freespan) (out : nat) :
  mergenorm dst all = Ok (arr, out) →
  (out ≤ length (concat all))%nat ∧
  match dst with
  | None => length arr = length (concat all)
  | Some buf =>
      (length (concat all) ≤ length buf)%nat ∧
      length arr = length buf ∧
      drop (length (concat all)) arr = drop (length (concat all)) buf
  end.
Proof.
  unfold mergenorm.
  set (n := length (concat all)).
  set (backing := match dst with None => replicate n 0 | Some buf => buf end).
  assert (Hb : length backing = match dst with
                                | None => n
                                | Some buf => length buf
                                end).
  { unfold backing. destruct dst; [done | apply length_replicate]. }
  destruct (Nat.ltb_spec (length backing) n) as [| Hfit]; [done |].
  destruct (Nat.eqb_spec n 0) as [Hn0 | Hn0].
  - intros [= <- <-]. split; [lia |].
    destruct dst as [buf |]; [| lia]. rewrite <- Hb. done.
  - intros H. apply obind_Ok in H as ([data' out'] & Hw & H).
    injection H as <- <-.
    apply walk_bounds in Hw as [Hlen Hout]; [| lia].
    assert (Hdata : length data' = n).
    { rewrite Hlen. destruct (1 <? length all)%nat; [| done].
      by rewrite (Permutation_length (sort_Slice_perm _)). }
    split; [lia |]. rewrite length_app, length_drop.
    destruct dst as [buf |].
    + rewrite Hb in Hfit. split; [done |]. split; [unfold backing; lia |].
      rewrite drop_app_length' by done. done.
    + rewrite Hb. lia.
Qed.

(** X14. [mergenorm] never returns more spans than it was given; it writes
    only the first words of the array it is handed, as many as it was given
    spans, and leaves the rest of the array as it was. *)
Theorem mergenorm_bounds (buf : list freespan) (all : list (list freespan))
    (arr : list freespan) (out : nat) :
  mergenorm (Some buf) all = Ok (arr, out) →
  (out ≤ length (concat all) ≤ length buf)%nat ∧
  length arr = length buf ∧
  drop (length (concat all)) arr = drop (length (concat all)) buf.
Proof.
  intros H. apply mergenorm_Ok in H as (Hout & Hfit & Hlen & Hrest).
  split; [lia | done].
Qed.

Lemma mergenorm_bounds_witness :
  let all := [[pack 13 1]; [pack 12 1]] in
  let arr := [pack 12 2; pack 13 1; 6; 7; 8] in
  mergenorm (Some [5; 6; 6; 7; 8]) all = Ok (arr, 1%nat) ∧
  (1 ≤ length (concat all) ≤ 5)%nat ∧
  length arr = 5%nat ∧
  drop (length (concat all)) arr = [6; 7; 8].
Proof.
  intros all arr. split; [reflexivity |].
  exact (mergenorm_bounds [5; 6; 6; 7; 8] all arr 1 eq_refl).
Defined.

Lemma concat_perm (ls ls' : list (list freespan)) :
  Permutation ls ls' → Permutation (concat ls) (concat ls').
Proof.
  induction 1 as [| l ls ls' _ IH | l k ls | ls1 ls2 ls3 _ IH1 _ IH2].
  - done.
  - cbn [concat]. by rewrite IH.
  - cbn [concat]. rewrite !app_assoc. f_equiv. apply Permutation_app_comm.
  - by rewrite IH1.
Qed.

(** X13. The result of [mergenorm] does not depend on the order in which
    the lists are handed to it, so [copyall], [release] and [reload] do not
    depend on the order in which Go visits the pending map. *)
Theorem mergenorm_order (dst : option (list freespan))
    (all all' : list (list freespan)) :
  Permutation all all' → mergenorm dst all = mergenorm dst all'.
Proof.
  intros Hp.
  pose proof (Permutation_length Hp) as Hlen.
  pose proof (Permutation_length (concat_perm _ _ Hp)) as Hclen.
  destruct (decide (1 < length all)%nat) as [Hmany | Hfew].
  - unfold mergenorm. rewrite <- Hclen, <- Hlen.
    destruct (Nat.ltb_spec 1 (length all)); [| lia].
    by rewrite (sort_Slice_order _ _ (concat_perm _ _ Hp)).
  - destruct all as [| l [| l2 all]]; [| | cbn [length] in Hfew; lia].
    + apply Permutation_nil_l in Hp. by subst.
    + apply Permutation_singleton_l in Hp. by subst.
Qed.

Lemma mergenorm_order_witness :
  mergenorm None [[pack 12 1]; [pack 39 1]; [pack 13 1]]
  = mergenorm None [[pack 12 1]; [pack 13 1]; [pack 39 1]].
Proof.
  apply mergenorm_order. apply perm_skip, perm_swap.
Defined.

(** X15. On a list of two spans [mergenorm] is right: whenever it returns,
    the spans it returns hold exactly the pages of the two, none of them is
    empty, and they lie in order without sharing a page. *)
Theorem mergenorm_two_spans (s t : freespan) (l : list freespan) :
  is_uint64 s → is_uint64 t →
  mergenorm_slice None [[s; t]] = Ok l →
  no_empty l ∧ in_order l ∧
  ∀ pg, is_uint64 pg →
        (covers l pg ↔
         Span.contains s pg = true ∨ Span.contains t pg = true).
Proof.
  intros Hs Ht H. unfold mergenorm_slice, mergenorm in H.
  cbn [concat app length replicate Nat.ltb Nat.leb Nat.eqb Nat.sub seq walk]
    in H.
  unfold walk_step, index in H. cbn [lookup list_lookup obind] in H.
  destruct (Span.append s t) as [[u v] | |] eqn:Happ; [| done | done].
  pose proof (append_result_shape_aux s t u v Hs Ht Happ) as (Hu0 & Hu & Hv).
  assert (Hpages : ∀ pg, is_uint64 pg →
            Span.contains u pg || Span.contains v pg
            = Span.contains s pg || Span.contains t pg)
    by (intros pg Hpg; by apply append_pages_aux).
  assert (Hzero : ∀ pg, Span.contains 0 pg = false) by done.
  cbn [obind] in H.
  destruct (Z.eqb_spec u 0) as [-> | Hune].
  - injection H as <-. rewrite (Hu0 eq_refl) in Hpages.
    split; [constructor |]. split; [exact I |].
    intros pg Hpg. specialize (Hpages pg Hpg). rewrite !Hzero in Hpages.
    symmetry in Hpages. apply orb_false_iff in Hpages as [Hcs Hct].
    rewrite Hcs, Hct. split; [| by intros [|]].
    by intros (x & ?%elem_of_nil & _).
  - destruct (Z.eqb_spec v 0) as [-> | Hvne].
    + cbn [obind list_insert insert take] in H. injection H as <-.
      split; [constructor; [by apply Hu | constructor] |].
      split; [exact I |].
      intros pg Hpg. specialize (Hpages pg Hpg).
      rewrite Hzero, orb_false_r in Hpages.
      rewrite <- orb_true_iff, <- Hpages. split.
      * intros (x & Hx & Hc). by apply list_elem_of_singleton in Hx as ->.
      * intros Hc. exists u. split; [apply list_elem_of_here | done].
    + cbn [obind list_insert insert length Nat.ltb Nat.leb take] in H.
      injection H as <-. destruct (Hv Hvne) as (Hvs & Hord & _).
      split; [constructor; [by apply Hu |]; constructor; [done | constructor] |].
      split; [split; [done | exact I] |].
      intros pg Hpg. specialize (Hpages pg Hpg).
      rewrite <- orb_true_iff, <- Hpages, orb_true_iff. split.
      * intros (x & Hx & Hc). apply elem_of_cons in Hx as [-> | Hx];
          [by left |].
        apply list_elem_of_singleton in Hx as ->. by right.
      * intros [Hc | Hc].
        -- exists u. split; [apply list_elem_of_here | done].
        -- exists v. split;
             [apply list_elem_of_further, list_elem_of_here | done].
Qed.

Lemma mergenorm_two_spans_witness :
  let l := [pack 9 1; pack 12 2] in
  mergenorm_slice None [[pack 9 1; pack 12 2]] = Ok l ∧
  no_empty l ∧ in_order l.
Proof.
  intros l. split; [reflexivity |].
  assert (H9 : is_uint64 (pack 9 1)) by (unfold is_uint64, pack; lia).
  assert (H12 : is_uint64 (pack 12 2)) by (unfold is_uint64, pack; lia).
  pose proof (mergenorm_two_spans (pack 9 1) (pack 12 2) l H9 H12 eq_refl)
    as (Hne & Hord & _).
  exact (conj Hne Hord).
Defined.

(** ** Room on the page and the small encoding *)

Lemma spancount_concat (f : freelist) :
  length (concat (spans f :: pending_lists f)) = spancount f.
Proof.
  unfold spancount, freeSpanCount, pendingSpanCount.
  cbn [concat]. rewrite length_app. f_equal.
  induction (pending_lists f) as [| l ls IH]; [done |].
  cbn [concat foldr]. rewrite length_app, IH. lia.
Qed.

Lemma copyall_Ok (f : freelist) (buf mem : list freespan) (k : nat) :
  copyall f buf = Ok (mem, k) →
  (k ≤ spancount f ≤ length buf)%nat ∧ length mem = length buf ∧
  drop (spancount f) mem = drop (spancount f) buf.
Proof.
  unfold copyall. intros H. apply mergenorm_Ok in H.
  rewrite spancount_concat in H. destruct H as (Hk & Hfit & Hlen & Hrest).
  split; [lia | done].
Qed.

Lemma copyall_no_fault (f : freelist) (buf : list freespan) :
  (spancount f ≤ length buf)%nat → copyall f buf ≠ MemFault.
Proof.
  intros Hroom. unfold copyall, mergenorm. rewrite spancount_concat.
  destruct (Nat.ltb_spec (length buf) (spancount f)); [lia |].
  destruct (spancount f =? 0)%nat; [done |].
  apply obind_no_fault; [apply walk_no_fault |]. by intros [d o].
Qed.

Lemma pagesize_words (hdr : Z) (f : freelist) :
  0 ≤ hdr → hdr + 8 * (Z.of_nat (spancount f) + 1) ≤ maxInt →
  pagesize hdr f
  = hdr + 8 * (Z.of_nat (spancount f)
               + if 0xFFFF <=? Z.of_nat (spancount f) then 1 else 0).
Proof.
  intros Hh Hmax. unfold pagesize, maxInt in *. cbv zeta.
  destruct (0xFFFF <=? Z.of_nat (spancount f)).
  - rewrite (wrapInt_small (_ + 1)) by lia.
    rewrite (wrapInt_small (8 * _)) by lia. apply wrapInt_small. lia.
  - rewrite (wrapInt_small (8 * _)) by lia.
    rewrite Z.add_0_r. apply wrapInt_small. lia.
Qed.

(** X12. A page with as many bytes as [pagesize] says has room for
    [write]: the write stays inside the page, it touches no word beyond
    those [pagesize] counts, and it leaves the id and the overflow of the
    page alone. *)
Theorem write_fits (hdr : Z) (f : freelist) (p : page) :
  0 ≤ hdr → hdr + 8 * (Z.of_nat (spancount f) + 1) ≤ maxInt →
  pagesize hdr f ≤ hdr + 8 * Z.of_nat (length (ptr p)) →
  write f p ≠ MemFault ∧
  ∀ p', write f p = Ok p' →
        id p' = id p ∧ overflow p' = overflow p ∧
        length (ptr p') = length (ptr p) ∧
        let words := Z.to_nat ((pagesize hdr f - hdr) / 8) in
        drop words (ptr p') = drop words (ptr p).
Proof.
  intros Hh Hmax Hroom. rewrite pagesize_words in * by done.
  set (n := spancount f) in *.
  replace ((hdr + 8 * (Z.of_nat n + (if 65535 <=? Z.of_nat n then 1 else 0))
            - hdr) / 8)
    with (Z.of_nat n + (if 65535 <=? Z.of_nat n then 1 else 0))
    by (rewrite Z.add_simpl_l, Z.mul_comm, Z.div_mul; lia).
  unfold write. fold n.
  destruct (Nat.eqb_spec n 0) as [Hn0 | Hn0].
  - split; [done |]. intros p' [= <-]. cbn [id overflow ptr]. done.
  - destruct (Z.ltb_spec (Z.of_nat n) 65535) as [Hsmall | Hlarge].
    + destruct (Z.leb_spec 65535 (Z.of_nat n)); [lia |].
      rewrite Z.add_0_r, Nat2Z.id in *.
      split.
      * apply obind_no_fault; [apply copyall_no_fault; fold n; lia |].
        by intros [mem k].
      * intros p' Hw. apply obind_Ok in Hw as ([mem k] & Hc & Hw).
        injection Hw as <-. cbn [id overflow ptr].
        apply copyall_Ok in Hc as (_ & Hlen & Hrest). done.
    + destruct (Z.leb_spec 65535 (Z.of_nat n)); [| lia].
      destruct (ptr p) as [| w0 rest] eqn:Hptr; [cbn [length] in Hroom; lia |].
      cbn [length] in Hroom.
      split.
      * apply obind_no_fault; [apply copyall_no_fault; fold n; lia |].
        by intros [mem k].
      * intros p' Hw. apply obind_Ok in Hw as ([mem k] & Hc & Hw).
        injection Hw as <-. cbn [id overflow ptr].
        apply copyall_Ok in Hc as (_ & Hlen & Hrest). fold n in Hrest.
        split; [done |]. split; [done |]. split; [cbn [length]; lia |].
        cbv zeta. replace (Z.to_nat (Z.of_nat n + 1)) with (S n) by lia.
        cbn [drop]. done.
Qed.

Lemma write_fits_witness :
  let f := {| spans := [pack 12 1; pack 39 1];
              pending := {[ 100 := [pack 28 1] ]} |} in
  pagesize 16 f = 40 ∧ write f (blank_page 3) ≠ MemFault.
Proof.
  intros f. split; [reflexivity |].
  refine (proj1 (write_fits 16 f (blank_page 3) _ _ _)).
  - lia.
  - replace (spancount f) with 3%nat by reflexivity. unfold maxInt. lia.
  - replace (pagesize 16 f) with 40 by reflexivity. cbn. lia.
Defined.

(** X16. In the small encoding the page holds what [copyall] returned and
    [read] gets it back: the count field is the number of spans written, it
    is never 0xFFFF, and a [read] of the written page leaves exactly those
    spans, sorted, in the available list, whatever the pending map of the
    reader. *)
Theorem write_read_small (f g : freelist) (p p' : page) :
  Z.of_nat (spancount f) < 0xFFFF →
  write f p = Ok p' →
  count p' < 0xFFFF ∧
  ∃ l, mergenorm_slice (Some (ptr p)) (spans f :: pending_lists f) = Ok l ∧
       count p' = Z.of_nat (length l) ∧
       read g p' = Ok {| spans := sort_Slice l; pending := pending g |}.
Proof.
  intros Hsmall Hw. unfold write in Hw.
  destruct (Nat.eqb_spec (spancount f) 0) as [Hn0 | Hn0].
  - injection Hw as <-. cbn [count]. split; [lia |]. exists [].
    split; [| split; [done | reflexivity]].
    unfold mergenorm_slice, mergenorm. rewrite spancount_concat, Hn0.
    reflexivity.
  - destruct (Z.ltb_spec (Z.of_nat (spancount f)) 65535); [| lia].
    apply obind_Ok in Hw as ([mem k] & Hc & Hw). injection Hw as <-.
    pose proof (copyall_Ok _ _ _ _ Hc) as (Hk & Hlen & _).
    unfold copyall in Hc. cbn [count].
    rewrite Z.mod_small by lia. split; [lia |].
    exists (take k mem). split; [| split].
    + unfold mergenorm_slice. rewrite Hc. reflexivity.
    + rewrite length_take. lia.
    + unfold read. cbn [count ptr].
      destruct (Z.eqb_spec (Z.of_nat k) 65535); [lia |]. cbn [obind].
      destruct (Z.eqb_spec (Z.of_nat k) 0) as [Hk0 | Hk0].
      * replace k with 0%nat by lia. reflexivity.
      * unfold view. destruct (Z.ltb_spec (Z.of_nat k) 0); [lia |].
        destruct (Z.ltb_spec 0 0); [lia |]. cbn [orb].
        destruct (Z.ltb_spec (Z.of_nat (length mem)) (Z.of_nat k)); [lia |].
        cbn [obind]. rewrite Z.sub_0_r, Nat2Z.id. reflexivity.
Qed.

Lemma write_read_small_witness :
  let f := {| spans := [pack 12 1]; pending := {[ 100 := [pack 28 1] ]} |} in
  ∃ p', write f (blank_page 4) = Ok p' ∧ count p' = 2 ∧
        read newFreelist p' = Ok (only_available [pack 12 1; pack 28 1]).
Proof.
  intros f.
  destruct (write f (blank_page 4)) as [p' | |] eqn:Hw; try discriminate Hw.
  exists p'. split; [reflexivity |].
  assert (Hs : Z.of_nat (spancount f) < 0xFFFF)
    by (replace (spancount f) with 2%nat by reflexivity; lia).
  destruct (write_read_small f newFreelist (blank_page 4) p' Hs Hw)
    as (_ & l & Hl & Hcount & Hread).
  injection Hl as <-. split; [exact Hcount | exact Hread].
Defined.

(** ** Releasing and rolling back *)

(** X17. A [release] that returns has dropped from the pending map exactly
    the transactions up to the given one; the pending lists of the later
    transactions are as before. *)
Theorem release_pending (f f' : freelist) (t t' : txid) :
  release f t = Ok f' →
  pending f' !! t' = if decide (t' ≤ t) then None else pending f !! t'.
Proof.
  unfold release. intros H.
  apply obind_Ok in H as ([arr out] & _ & H). injection H as <-.
  cbn [pending]. destruct (decide (t' ≤ t)) as [Hle | Hgt].
  - apply map_lookup_filter_None. right. intros x _ Hp. by apply Hp.
  - destruct (pending f !! t') as [l |] eqn:Hl.
    + by apply map_lookup_filter_Some.
    + apply map_lookup_filter_None. by left.
Qed.

Lemma release_pending_witness :
  let f := {| spans := [];
              pending := {[ 100 := [pack 9 1; pack 12 2];
                            102 := [pack 39 1] ]} |} in
  ∃ f', release f 100 = Ok f' ∧ spans f' = [pack 9 1; pack 12 2] ∧
        pending f' !! 100 = None ∧
        pending f' !! 102 = Some [pack 39 1].
Proof.
  intros f.
  destruct (release f 100) as [f' | |] eqn:Hr; try discriminate Hr.
  exists f'. split; [reflexivity |].
  split; [by injection Hr as <- |].
  split.
  - exact (release_pending f f' 100 100 Hr).
  - exact (release_pending f f' 100 102 Hr).
Defined.

(** X18. [rollback] discards whatever [free] recorded for the transaction:
    a [free] followed by the [rollback] of its transaction leaves the free
    list that the [rollback] alone leaves, and so the free list as it was
    when the transaction had freed nothing before. *)
Theorem free_rollback (f f' : freelist) (t : txid) (p : page) :
  free f t p = Ok f' →
  rollback f' t = rollback f t ∧
  (pending f !! t = None → rollback f' t = f).
Proof.
  intros H. unfold free in H. destruct (id p <=? 1); [done |].
  apply obind_Ok in H as (pspan & _ & H).
  apply obind_Ok in H as (spans1 & _ & H). injection H as <-.
  unfold rollback. cbn [spans pending]. rewrite delete_insert_eq.
  split; [done |]. intros Hnone. rewrite delete_id by done.
  by destruct f.
Qed.

Lemma free_rollback_witness :
  ∃ f', free newFreelist 100 (page_of 12 3) = Ok f' ∧
        rollback f' 100 = newFreelist.
Proof.
  destruct (free newFreelist 100 (page_of 12 3)) as [f' | |] eqn:Hf;
    try discriminate Hf.
  exists f'. split; [reflexivity |].
  exact (proj2 (free_rollback newFreelist f' 100 (page_of 12 3) Hf) eq_refl).
Defined.

(** ** What [freed] reports *)

Lemma freespans_contains_sound (l : list freespan) (pg : pgid) :
  freespans_contains l pg = Ok true → covers l pg.
Proof.
  unfold freespans_contains. intros H.
  apply obind_Ok in H as (pspan & _ & H).
  destruct (_ =? length l)%nat; [done |].
  apply obind_Ok in H as (sn & Hsn & H). injection H as H.
  apply index_Ok in Hsn. exists sn. split; [| done].
  by eapply list_elem_of_lookup_2.
Qed.

Lemma freed_pending_sound (ls : list (list freespan)) (pg : pgid) :
  freed_pending ls pg = Ok true → ∃ l, l ∈ ls ∧ covers l pg.
Proof.
  induction ls as [| l ls IH]; [done |]. cbn [freed_pending]. intros H.
  apply obind_Ok in H as (b & Hb & H). destruct b.
  - exists l. split; [apply list_elem_of_here |].
    by apply freespans_contains_sound.
  - destruct (IH H) as (l' & Hl' & Hc). exists l'.
    split; [by apply list_elem_of_further | done].
Qed.

(** X19. [freed] never reports a page that is not recorded: when it answers
    true, some available or pending span contains the page. For a page id
    above 2^48 - 1 it does not answer at all: the search key cannot be built
    and the call panics. *)
Theorem freed_sound (f : freelist) (pg : pgid) :
  (freed f pg = Ok true → recorded f pg) ∧
  (freespanMaxStart < pg →
   freed f pg = Panic "makeFreespan start too large").
Proof.
  split.
  - unfold freed. intros H. apply obind_Ok in H as (b & Hb & H).
    destruct b.
    + left. by apply freespans_contains_sound.
    + right. apply freed_pending_sound in H as (l & Hl & Hc).
      apply elem_of_pending_lists in Hl as [t Ht]. by exists t, l.
  - intros Hpg. unfold freed, freespans_contains, makeFreespan.
    destruct (Z.gtb_spec pg freespanMaxStart); [done | lia].
Qed.

Lemma freed_sound_witness :
  let f := {| spans := [pack 10 5]; pending := {[ 7 := [pack 20 2] ]} |} in
  freed f 20 = Ok true ∧ recorded f 20 ∧
  freed f (2 ^ 48) = Panic "makeFreespan start too large".
Proof.
  intros f. split; [reflexivity |].
  pose proof (freed_sound f 20) as [Hs _].
  pose proof (freed_sound f (2 ^ 48)) as [_ Hp].
  split; [exact (Hs eq_refl) | apply Hp; reflexivity].
Defined.

(** ** More on allocating *)

(** X20. A request for more than 65,535 pages, or for a negative number of
    pages, is never served: [allocate] looks at one span at a time, so it
    returns 0 and changes nothing, also when maximal spans that follow one
    another make up a longer run. *)
Theorem allocate_out_of_range (f : freelist) (n : Z) :
  Forall (λ s, 1 < Span.start s) (spans f) →
  65535 < n ≤ maxInt ∨ - 2 ^ 63 ≤ n < 0 →
  allocate f n = Ok (0, f).
Proof.
  intros Hres Hn. unfold allocate.
  rewrite <- (app_nil_r (spans f)) at 2.
  rewrite allocate_from_skip.
  - cbn [allocate_from obind]. by destruct f.
  - eapply Forall_impl; [exact Hres |]. intros s Hs. cbv beta in *.
    split; [done |]. pose proof (size_range s).
    assert (65535 < wrap64 n); [| lia].
    unfold wrap64, maxInt in *. destruct Hn as [Hn | Hn].
    + rewrite Z.mod_small by lia. lia.
    + replace (n mod 2 ^ 64) with (n + 2 ^ 64); [lia |].
      symmetry. rewrite <- (Z.mod_add _ 1) by lia.
      rewrite Z.mul_1_l. apply Z.mod_small. lia.
Qed.

Lemma allocate_out_of_range_witness :
  let f := only_available [pack 10 65535; pack 65545 65535] in
  allocate f 65536 = Ok (0, f).
Proof.
  intros f. apply allocate_out_of_range.
  - repeat constructor; vm_compute; reflexivity.
  - left. unfold maxInt. lia.
Defined.

(** What a returning [allocate] loop has found. *)
Lemma allocate_from_found (n : Z) (all rest : list freespan) (i : nat)
    (a : pgid) (l' : list freespan) :
  allocate_from n all i rest = Ok (a, l') →
  (a = 0 ∧ l' = all) ∨
  ∃ k s x, rest !! k = Some s ∧ 1 < Span.start s ∧ a = Span.start s ∧
           wrap64 n ≤ Span.size s ∧
           makeFreespan (wrap64 (Span.start s + wrap64 n))
                        (wrap64 (Span.size s - wrap64 n)) = Ok x ∧
           l' = <[(i + k)%nat := x]> all.
Proof.
  revert i. induction rest as [| s rest IH]; intros i H.
  - injection H as <- <-. by left.
  - cbn [allocate_from] in H.
    destruct (Z.leb_spec (Span.start s) 1) as [| Hst]; [done |].
    destruct (Z.ltb_spec (Span.size s) (wrap64 n)) as [Hlt | Hge].
    + destruct (IH _ H) as [[-> ->] | (k & s0 & x & Hk & Hs0 & -> & Hsz & Hx & ->)];
        [by left |].
      right. exists (S k), s0, x. repeat split; try done.
      f_equal. lia.
    + apply obind_Ok in H as (x & Hx & H). injection H as <- <-.
      right. exists 0%nat, s, x. repeat split; try done.
      f_equal. lia.
Qed.

Lemma pages_of_insert_length (l : list freespan) (k : nat) (s x : freespan) :
  l !! k = Some s →
  Z.of_nat (length (pages_of (<[k := x]> l)))
  = Z.of_nat (length (pages_of l)) - Span.size s + Span.size x.
Proof.
  revert k. induction l as [| a l IH]; intros k Hk; [done |].
  destruct k as [| k].
  - injection Hk as ->. change (<[0%nat := x]> (s :: l)) with (x :: l).
    rewrite !pages_of_cons, !length_app, !page_run_length.
    pose proof (size_range s). pose proof (size_range x). lia.
  - cbn [lookup list_lookup] in Hk.
    change (<[S k := x]> (a :: l)) with (a :: <[k := x]> l).
    rewrite !pages_of_cons, !length_app, !Nat2Z.inj_add, (IH k Hk). lia.
Qed.

(** X21. [allocate] never hands out page 0 or 1 and never touches the
    pending map or the number of available spans; when it hands out a run,
    the pages held by the available spans become fewer by exactly the
    number asked for, and when it returns 0 the free list is unchanged. *)
Theorem allocate_result (f f' : freelist) (n : Z) (a : pgid) :
  words_ok (spans f) → 0 ≤ n ≤ maxInt →
  allocate f n = Ok (a, f') →
  (a = 0 ∨ 1 < a) ∧
  pending f' = pending f ∧
  length (spans f') = length (spans f) ∧
  (a = 0 → f' = f) ∧
  (a ≠ 0 →
   Z.of_nat (length (pages_of (spans f')))
   = Z.of_nat (length (pages_of (spans f))) - n).
Proof.
  intros Hok Hn H. unfold allocate in H.
  apply obind_Ok in H as ([a' l'] & Hl & H). injection H as <- <-.
  cbn [spans pending].
  assert (Hw : wrap64 n = n)
    by (apply wrap64_small; unfold maxInt in Hn; lia).
  apply allocate_from_found in Hl
    as [[-> ->] | (k & s & x & Hk & Hst & -> & Hsz & Hx & ->)].
  - repeat split; try done; [by left | by destruct f].
  - assert (Hs : is_uint64 s).
    { unfold words_ok in Hok. rewrite Forall_lookup in Hok. by eapply Hok. }
    pose proof (size_range s) as Hr. pose proof (start_range s Hs) as Hrs.
    change freespanMaxStart with (2 ^ 48 - 1) in Hrs.
    rewrite Hw in *.
    rewrite (wrap64_small (_ + _)) in Hx by lia.
    rewrite (wrap64_small (_ - _)) in Hx by lia.
    apply makeFreespan_Ok_inv in Hx as (-> & _ & _); [| lia | lia].
    split; [by right |]. split; [done |].
    split; [by rewrite length_insert |].
    split; [intros Ha0; span_lia |]. intros _.
    rewrite (pages_of_insert_length _ _ s) by done.
    rewrite size_pack by lia. lia.
Qed.

Lemma allocate_result_witness :
  let f := only_available [pack 3 5; pack 9 1] in
  let f' := only_available [pack 6 2; pack 9 1] in
  allocate f 3 = Ok (3, f') ∧
  Z.of_nat (length (pages_of (spans f')))
  = Z.of_nat (length (pages_of (spans f))) - 3.
Proof.
  intros f f'. split; [reflexivity |].
  assert (Hok : words_ok (spans f))
    by (repeat constructor; unfold pack; lia).
  assert (Hn : 0 ≤ 3 ≤ maxInt) by (unfold maxInt; lia).
  pose proof (allocate_result f f' 3 3 Hok Hn eq_refl) as (_ & _ & _ & _ & H).
  apply H. discriminate.
Defined.

(** ** What [read] leaves *)

(** X22. [read] never touches the pending map and leaves the available
    list in ascending order of packed value; in the small encoding, where
    the count field is not 0xFFFF, the list is a rearrangement of the first
    [count] words of the payload. *)
Theorem read_result (g g' : freelist) (p : page) :
  read g p = Ok g' →
  pending g' = pending g ∧
  StronglySorted Z.le (spans g') ∧
  (count p ≠ 0xFFFF →
   Permutation (spans g') (take (Z.to_nat (count p)) (ptr p))).
Proof.
  intros H. split; [| split; [by eapply read_sorted |]].
  - unfold read in H. apply obind_Ok in H as ([idx cnt] & _ & H).
    destruct (cnt =? 0); [by injection H as <- |].
    apply obind_Ok in H as (words & _ & H). by injection H as <-.
  - intros Hc. unfold read in H.
    destruct (Z.eqb_spec (count p) 65535); [done |]. cbn [obind] in H.
    destruct (Z.eqb_spec (count p) 0) as [H0 | H0].
    + injection H as <-. rewrite H0. done.
    + apply obind_Ok in H as (words & Hv & H). injection H as <-.
      cbn [spans]. rewrite sort_Slice_perm. unfold view in Hv.
      destruct ((count p <? 0) || (0 <? 0)); [done |].
      destruct (Z.of_nat (length (ptr p)) <? count p); [done |].
      injection Hv as <-. by rewrite Z.sub_0_r.
Qed.

Lemma read_result_witness :
  let p := {| id := 7; flags := 0; count := 2; overflow := 0;
              ptr := [pack 50 1; pack 23 1; 99] |} in
  ∃ g', read newFreelist p = Ok g' ∧
        spans g' = [pack 23 1; pack 50 1] ∧
        Permutation (spans g') [pack 50 1; pack 23 1].
Proof.
  intros p.
  destruct (read newFreelist p) as [g' | |] eqn:Hr; try discriminate Hr.
  exists g'. split; [reflexivity |].
  split; [by injection Hr as <- |].
  pose proof (read_result newFreelist g' p Hr) as (_ & _ & H).
  apply H. discriminate.
Defined.

(** ** What [free] records *)

Lemma in_order_strong (l : list freespan) :
  in_order l ↔ StronglySorted before l.
Proof.
  induction l as [| a [| b l] IH].
  - split; [constructor | done].
  - split; [repeat constructor | done].
  - split.
    + intros [Hab Hl]. apply IH in Hl. constructor; [done |].
      constructor; [done |].
      apply StronglySorted_inv in Hl as [_ Hb].
      eapply Forall_impl; [exact Hb |]. intros y Hy.
      unfold before in *. pose proof (size_range b). span_lia.
    + intros H. apply StronglySorted_inv in H as [Hl Ha].
      split; [by apply Forall_cons in Ha as [? _] | by apply IH].
Qed.

Lemma covers_nil (pg : pgid) : covers [] pg ↔ False.
Proof. split; [| done]. by intros (s & ?%elem_of_nil & _). Qed.

Lemma covers_cons (s : freespan) (l : list freespan) (pg : pgid) :
  covers (s :: l) pg ↔ Span.contains s pg = true ∨ covers l pg.
Proof.
  split.
  - intros (x & Hx & Hc). apply elem_of_cons in Hx as [-> | Hx];
      [by left | right; by exists x].
  - intros [Hc | (x & Hx & Hc)].
    + exists s. split; [apply list_elem_of_here | done].
    + exists x. split; [by apply list_elem_of_further | done].
Qed.

Lemma covers_app (l k : list freespan) (pg : pgid) :
  covers (l ++ k) pg ↔ covers l pg ∨ covers k pg.
Proof.
  induction l as [| s l IH]; cbn [app].
  - rewrite covers_nil. tauto.
  - rewrite !covers_cons, IH. tauto.
Qed.

Lemma in_order_splice (pre mid post : list freespan) (lo : Z) :
  StronglySorted before pre → StronglySorted before mid →
  StronglySorted before post →
  Forall (λ a, Span.start a + Span.size a ≤ lo) pre →
  Forall (λ b, lo ≤ Span.start b) mid →
  Forall (λ b, lo ≤ Span.start b) post →
  (∀ a b, a ∈ mid → b ∈ post → before a b) →
  in_order (pre ++ mid ++ post).
Proof.
  intros Hpre Hmid Hpost Hlo Hmlo Hplo Hmp.
  rewrite Forall_forall in Hlo, Hmlo, Hplo.
  apply in_order_strong. apply StronglySorted_app_2; [| done |].
  - intros a b Ha Hb. unfold before. specialize (Hlo a Ha). cbv beta in Hlo.
    apply elem_of_app in Hb as [Hb | Hb].
    + specialize (Hmlo b Hb). cbv beta in Hmlo. lia.
    + specialize (Hplo b Hb). cbv beta in Hplo. lia.
  - by apply StronglySorted_app_2.
Qed.

Lemma sorted_lookup_le (l : list freespan) (i j : nat) (a b : freespan) :
  StronglySorted Z.le l → (i ≤ j)%nat →
  l !! i = Some a → l !! j = Some b → a ≤ b.
Proof.
  intros Hs Hij Hi Hj. destruct (decide (i = j)) as [-> | Hne].
  - rewrite Hi in Hj. injection Hj as ->. lia.
  - rewrite <- (take_drop j l) in Hs.
    eapply (StronglySorted_app_1_elem_of Z.le); [exact Hs | |].
    + apply elem_of_take. exists i. split; [done | lia].
    + apply (list_elem_of_lookup_2 _ 0). rewrite lookup_drop.
      by rewrite Nat.add_0_r.
Qed.

(** The search for the first word above [x] cuts a sorted list into the
    words up to [x] and the words above it. *)
Lemma search_above_split (l : list freespan) (x : freespan) :
  StronglySorted Z.le l →
  let n := sort_Search (length l) (λ i, at_ l i >? x) in
  (n ≤ length l)%nat ∧
  Forall (λ s, s ≤ x) (take n l) ∧ Forall (λ s, x < s) (drop n l).
Proof.
  intros Hs. set (f := λ i : nat, at_ l i >? x).
  assert (Hmono : ∀ a b, (a ≤ b < length l)%nat → f a = true → f b = true).
  { intros i j Hij Hfi. unfold f in *.
    destruct (lookup_lt_is_Some_2 l i) as [a Ha]; [lia |].
    destruct (lookup_lt_is_Some_2 l j) as [b Hb]; [lia |].
    rewrite (at_lookup _ _ _ Ha) in Hfi. rewrite (at_lookup _ _ _ Hb).
    apply Z.gtb_lt in Hfi. apply Z.gtb_lt.
    assert (a ≤ b) by (eapply (sorted_lookup_le l i j); [done | lia | done | done]).
    lia. }
  destruct (sort_Search_first (length l) f Hmono) as (Hr & Hbefore & Hafter).
  cbv zeta. fold f. set (n := sort_Search (length l) f) in *.
  clearbody n. split; [done |]. split.
  - apply Forall_forall. intros s Hin. apply elem_of_take in Hin as (i & Hi & Hlt).
    specialize (Hbefore i Hlt). unfold f in Hbefore.
    rewrite (at_lookup _ _ _ Hi), Z.gtb_ltb, Z.ltb_ge in Hbefore. done.
  - apply Forall_forall. intros s Hin.
    apply list_elem_of_lookup in Hin as [i Hi]. rewrite lookup_drop in Hi.
    pose proof (lookup_lt_Some _ _ _ Hi) as Hlt.
    specialize (Hafter (n + i)%nat (conj (Nat.le_add_r n i) Hlt)).
    unfold f in Hafter.
    rewrite (at_lookup _ _ _ Hi) in Hafter. by apply Z.gtb_lt in Hafter.
Qed.

Lemma in_order_words (l : list freespan) :
  StronglySorted before l → no_empty l → StronglySorted Z.le l.
Proof.
  induction 1 as [| a l Hl IH Ha]; intros Hne; [constructor |].
  apply Forall_cons in Hne as [Hane Hne]. constructor; [by apply IH |].
  eapply Forall_impl; [exact Ha |]. intros y Hy. unfold before in Hy.
  apply Z.lt_le_incl, word_lt_of_start_lt.
  pose proof (size_range a). span_lia.
Qed.

(** X23. Freeing a run that shares no page with the spans already pending
    for the transaction records exactly that run: [free] returns, the
    pending list of the transaction holds the pages it held plus the pages
    of the run and no others, and it is again a list of spans that are not
    empty and lie in order without sharing a page. *)
Theorem free_records (f : freelist) (t : txid) (p : page) :
  let l := default [] (pending f !! t) in
  let k := overflow p + 1 in
  words_ok l → no_empty l → in_order l →
  1 < id p → id p + 65535 ≤ freespanMaxStart → 0 ≤ overflow p < 65535 →
  clear_of l (id p) k →
  ∃ l', free f t p
        = Ok {| spans := spans f; pending := <[t := l']> (pending f) |} ∧
        words_ok l' ∧ no_empty l' ∧ in_order l' ∧
        ∀ pg, is_uint64 pg →
              (covers l' pg ↔ covers l pg ∨ id p ≤ pg < id p + k).
Proof.
  intros l k Hok Hne Hord Hid Hroom Hov Hclear.
  assert (Hmax : freespanMaxStart = 2 ^ 48 - 1) by reflexivity.
  set (pspan := pack (id p) k).
  assert (Hpu : is_uint64 pspan) by (apply pack_uint64; lia).
  assert (Hpst : Span.start pspan = id p) by (apply start_pack; lia).
  assert (Hpsz : Span.size pspan = k) by (apply size_pack; lia).
  assert (Hpne : Span.size pspan ≠ 0) by lia.
  assert (Hpc : ∀ pg, is_uint64 pg →
            (Span.contains pspan pg = true ↔ id p ≤ pg < id p + k)).
  { intros pg Hpg. rewrite contains_spec by done. lia. }
  apply in_order_strong in Hord.
  pose proof (in_order_words l Hord Hne) as Hsorted.
  destruct (search_above_split l pspan Hsorted) as (Hn & Hle & Hgt).
  set (n := sort_Search (length l) (λ i, at_ l i >? pspan)) in *.
  (* the spans before the insertion point end before the run, the others
     start after it *)
  pose proof Hord as Hord2. rewrite <- (take_drop n l) in Hord2.
  apply StronglySorted_app in Hord2 as (Hcross & Hpre & Hpost).
  pose proof Hok as Hok2. unfold words_ok in Hok2.
  rewrite <- (take_drop n l), Forall_app in Hok2. destruct Hok2 as [Hokpre Hokpost].
  pose proof Hne as Hne2. unfold no_empty in Hne2.
  rewrite <- (take_drop n l), Forall_app in Hne2. destruct Hne2 as [Hnepre Hnepost].
  pose proof Hclear as Hcl2. unfold clear_of in Hcl2.
  rewrite <- (take_drop n l), Forall_app in Hcl2. destruct Hcl2 as [Hclpre Hclpost].
  assert (Hends : Forall (λ a, Span.start a + Span.size a ≤ id p) (take n l)).
  { rewrite Forall_forall in Hle, Hclpre |- *. intros s Hs.
    specialize (Hle s Hs). specialize (Hclpre s Hs). cbv beta in *.
    apply start_le_of_word_le in Hle. rewrite Hpst in Hle.
    destruct Hclpre; [done | lia]. }
  assert (Hstarts : Forall (λ b, id p + k ≤ Span.start b) (drop n l)).
  { rewrite Forall_forall in Hgt, Hclpost, Hnepost |- *. intros s Hs.
    specialize (Hgt s Hs). specialize (Hclpost s Hs).
    specialize (Hnepost s Hs). cbv beta in *.
    apply Z.lt_le_incl, start_le_of_word_le in Hgt. rewrite Hpst in Hgt.
    pose proof (size_range s). destruct Hclpost; [span_lia | done]. }
  assert (Hcov : ∀ pg, covers l pg ↔ covers (take n l) pg ∨ covers (drop n l) pg).
  { intros pg. by rewrite <- covers_app, take_drop. }
  unfold free. destruct (Z.leb_spec (id p) 1); [lia |].
  rewrite wrap64_small by lia. fold k.
  rewrite makeFreespan_ok by (change freespanMaxSize with 65535; lia).
  fold pspan. cbn [obind]. fold l. fold n.
  destruct (Nat.eqb_spec n (length l)) as [Hend | Hin].
  - (* the run goes to the end of the list *)
    exists (l ++ [pspan]). cbn [obind]. split; [done |].
    rewrite Hend, take_ge in Hends by lia.
    split; [apply Forall_app; split; [done | by constructor] |].
    split; [apply Forall_app; split; [done | by constructor] |].
    split.
    + rewrite <- (app_nil_r [pspan]).
      apply (in_order_splice l [pspan] [] (id p)); try done.
      * repeat constructor.
      * constructor.
      * constructor; [lia | constructor].
      * intros a b _ Hb. by apply elem_of_nil in Hb.
    + intros pg Hpg. rewrite covers_app, covers_cons, covers_nil, Hpc by done.
      tauto.
  - (* a pending span lies above the run *)
    destruct (lookup_lt_is_Some_2 l n) as [sn Hsn]; [lia |].
    assert (Hdrop : drop n l = sn :: drop (S n) l).
    { symmetry. rewrite <- (take_drop_middle l n sn Hsn) at 2.
      rewrite drop_app_length'; [done |]. rewrite length_take. lia. }
    rewrite Hdrop in *.
    apply Forall_cons in Hokpost as [Hsnu Hokrest].
    apply Forall_cons in Hnepost as [Hsnne Hnerest].
    apply Forall_cons in Hstarts as [Hsnst Hstrest].
    apply StronglySorted_inv in Hpost as [Hrest Hsnrest].
    pose proof (size_range sn) as Hsnsz.
    pose proof (start_range sn Hsnu) as Hsnr. rewrite Hmax in Hsnr.
    unfold index. rewrite Hsn. cbn [obind].
    assert (Hcovl : ∀ pg, covers l pg ↔
              covers (take n l) pg ∨ Span.contains sn pg = true
              ∨ covers (drop (S n) l) pg).
    { intros pg. by rewrite Hcov, covers_cons. }
    destruct (Z.eq_dec (id p + k) (Span.start sn)) as [Htouch | Hgap].
    + (* the run ends where the span starts *)
      rewrite append_touching; try done; [| rewrite Hpst, Hpsz; lia | rewrite Hpst; lia].
      rewrite Hpst, Hpsz.
      destruct (Z.leb_spec (k + Span.size sn) 65535) as [Hfit | Hbig].
      * set (u := pack (id p) (k + Span.size sn)).
        assert (Huu : is_uint64 u) by (apply pack_uint64; span_lia).
        assert (Hust : Span.start u = id p) by (apply start_pack; span_lia).
        assert (Husz : Span.size u = k + Span.size sn)
          by (apply size_pack; span_lia).
        cbn [obind Z.eqb].
        exists (take n l ++ [u] ++ drop (S n) l).
        split; [by rewrite insert_take_drop by lia |].
        split; [apply Forall_app; split; [done |]; by constructor |].
        split; [apply Forall_app; split; [done |];
                constructor; [span_lia | done] |].
        split.
        -- apply (in_order_splice _ _ _ (id p)); try done.
           ++ repeat constructor.
           ++ constructor; [lia | constructor].
           ++ eapply Forall_impl; [exact Hstrest |]. intros b Hb.
              cbv beta in Hb. lia.
           ++ intros a b Ha Hb. apply list_elem_of_singleton in Ha as ->.
              rewrite Forall_forall in Hsnrest. specialize (Hsnrest b Hb).
              unfold before in *. rewrite Hust, Husz. span_lia.
        -- intros pg Hpg. rewrite Hcovl, !covers_app, covers_cons, covers_nil.
           assert (Hc : Span.contains u pg = true ↔
                        id p ≤ pg < id p + k ∨ Span.contains sn pg = true).
           { rewrite !contains_spec by done. rewrite Hust, Husz. span_lia. }
           rewrite Hc. tauto.
      * set (u := pack (id p) 65535).
        set (v := pack (id p + 65535) (k + Span.size sn - 65535)).
        assert (Huu : is_uint64 u) by (apply pack_uint64; span_lia).
        assert (Hvu : is_uint64 v) by (apply pack_uint64; span_lia).
        assert (Hust : Span.start u = id p) by (apply start_pack; lia).
        assert (Husz : Span.size u = 65535) by (apply size_pack; lia).
        assert (Hvst : Span.start v = id p + 65535)
          by (apply start_pack; span_lia).
        assert (Hvsz : Span.size v = k + Span.size sn - 65535)
          by (apply size_pack; span_lia).
        assert (Hv0 : (v =? 0) = false)
          by (apply size_nonzero_word; span_lia).
        cbn [obind]. rewrite Hv0.
        exists (take n l ++ [u; v] ++ drop (S n) l).
        split; [by rewrite free_insert_shape by lia |].
        split; [apply Forall_app; split; [done |];
                constructor; [done |]; by constructor |].
        split; [apply Forall_app; split; [done |];
                constructor; [lia |]; constructor; [span_lia | done] |].
        split.
        -- apply (in_order_splice _ _ _ (id p)); try done.
           ++ constructor; [repeat constructor |].
              constructor; [| constructor]. unfold before. lia.
           ++ constructor; [lia |]. constructor; [lia | constructor].
           ++ eapply Forall_impl; [exact Hstrest |]. intros b Hb.
              cbv beta in Hb. lia.
           ++ intros a b Ha Hb.
              rewrite Forall_forall in Hsnrest. specialize (Hsnrest b Hb).
              unfold before in *.
              apply elem_of_cons in Ha as [-> | Ha];
                [| apply list_elem_of_singleton in Ha as ->]; span_lia.
        -- intros pg Hpg.
           rewrite Hcovl, !covers_app, !covers_cons, covers_nil.
           assert (Hc : Span.contains u pg = true ∨ Span.contains v pg = true
                        ↔ id p ≤ pg < id p + k ∨ Span.contains sn pg = true).
           { rewrite !contains_spec by done.
             rewrite Hust, Husz, Hvst, Hvsz. span_lia. }
           tauto.
    + (* the run and the span lie apart *)
      rewrite append_apart; try done; [| rewrite Hpst, Hpsz; lia].
      cbn [obind]. rewrite (size_nonzero_word sn) by done.
      exists (take n l ++ [pspan] ++ sn :: drop (S n) l).
      split; [by rewrite free_insert_shape by lia |].
      split; [apply Forall_app; split; [done |];
              constructor; [done |]; by constructor |].
      split; [apply Forall_app; split; [done |];
              constructor; [done |]; by constructor |].
      split.
      * apply (in_order_splice _ _ _ (id p)); try done.
        -- repeat constructor.
        -- by constructor.
        -- constructor; [lia | constructor].
        -- constructor; [lia |]. eapply Forall_impl; [exact Hstrest |].
           intros b Hb. cbv beta in Hb. lia.
        -- intros a b Ha Hb. apply list_elem_of_singleton in Ha as ->.
           unfold before. rewrite Hpst, Hpsz.
           apply elem_of_cons in Hb as [-> | Hb]; [lia |].
           rewrite Forall_forall in Hstrest. by apply Hstrest.
      * intros pg Hpg.
        rewrite Hcovl, !covers_app, !covers_cons, covers_nil, Hpc by done.
        tauto.
Qed.

Lemma free_records_witness :
  let f := {| spans := []; pending := {[ 100 := [pack 12 2] ]} |} in
  ∃ l', free f 100 (page_of 9 0)
        = Ok {| spans := []; pending := <[100 := l']> (pending f) |} ∧
        words_ok l' ∧ no_empty l' ∧ in_order l' ∧
        ∀ pg, is_uint64 pg →
              (covers l' pg ↔ covers [pack 12 2] pg ∨ 9 ≤ pg < 9 + (0 + 1)).
Proof.
  intros f. apply (free_records f 100 (page_of 9 0)).
  - change (words_ok [pack 12 2]). repeat constructor; unfold pack; lia.
  - change (no_empty [pack 12 2]).
    constructor; [| constructor]. vm_compute. discriminate.
  - exact I.
  - cbn. lia.
  - cbn. change freespanMaxStart with (2 ^ 48 - 1). lia.
  - cbn. lia.
  - change (clear_of [pack 12 2] 9 1).
    constructor; [| constructor]. right. vm_compute. discriminate.
Defined.

(** ** One removal of [reload] *)

Lemma word_lt_iff (a b : freespan) :
  a < b ↔
  Span.start a < Span.start b ∨
  (Span.start a = Span.start b ∧ Span.size a < Span.size b).
Proof.
  rewrite <- (pack_start_size a), <- (pack_start_size b) at 1.
  pose proof (size_range a). pose proof (size_range b).
  unfold pack. span_lia.
Qed.

Lemma word_le_of_before (a b : freespan) : before a b → a ≤ b.
Proof.
  unfold before. intros H. pose proof (size_range a).
  pose proof (size_range b).
  destruct (Z_le_gt_dec a b) as [| Hgt]; [done |]. exfalso.
  assert (b < a) as Hlt by lia. apply word_lt_iff in Hlt. span_lia.
Qed.

Lemma before_words (l : list freespan) :
  StronglySorted before l → StronglySorted Z.le l.
Proof.
  induction 1 as [| a l Hl IH Ha]; [constructor |].
  constructor; [done |]. eapply Forall_impl; [exact Ha |].
  intros y Hy. by apply word_le_of_before.
Qed.

Lemma before_lookup (l : list freespan) (i j : nat) (a b : freespan) :
  StronglySorted before l → (i < j)%nat →
  l !! i = Some a → l !! j = Some b → before a b.
Proof.
  intros Hs Hij Hi Hj. rewrite <- (take_drop j l) in Hs.
  eapply (StronglySorted_app_1_elem_of before); [exact Hs | |].
  - apply elem_of_take. exists i. split; [done | lia].
  - apply (list_elem_of_lookup_2 _ 0). rewrite lookup_drop.
    by rewrite Nat.add_0_r.
Qed.

(** Where the search of [reload] lands for a span [rm] inside [l[k]]: on
    [k] when [rm] is a strict prefix, and on [k + 1] otherwise. *)
Lemma reload_search (l : list freespan) (rm s : freespan) (k : nat) :
  StronglySorted before l → Span.size rm ≠ 0 →
  l !! k = Some s →
  Span.start s ≤ Span.start rm →
  Span.start rm + Span.size rm ≤ Span.start s + Span.size s →
  sort_Search (length l) (λ i, at_ l i >? rm)
  = if (Span.start rm =? Span.start s) && (Span.size rm <? Span.size s)
    then k else S k.
Proof.
  intros Hord Hrm Hk Hlo Hhi.
  pose proof (size_range rm) as Hrsz. pose proof (size_range s) as Hssz.
  destruct (search_above_split l rm (before_words l Hord)) as (Hn & Hle & Hgt).
  set (n := sort_Search (length l) (λ i, at_ l i >? rm)) in *. clearbody n.
  pose proof (lookup_lt_Some _ _ _ Hk) as Hklen.
  rewrite Forall_forall in Hle, Hgt.
  assert (Hlow : (k ≤ n)%nat).
  { destruct (le_lt_dec k n) as [| Hlt]; [done |]. exfalso.
    destruct (lookup_lt_is_Some_2 l n) as [x Hx]; [lia |].
    assert (rm < x) as Hrx.
    { apply Hgt. apply (list_elem_of_lookup_2 _ 0).
      by rewrite lookup_drop, Nat.add_0_r. }
    pose proof (before_lookup l n k x s Hord Hlt Hx Hk) as Hb.
    unfold before in Hb. apply word_lt_iff in Hrx.
    pose proof (size_range x). span_lia. }
  assert (Hhigh : (n ≤ S k)%nat).
  { destruct (le_lt_dec n (S k)) as [| Hlt]; [done |]. exfalso.
    destruct (lookup_lt_is_Some_2 l (S k)) as [x Hx]; [lia |].
    assert (x ≤ rm) as Hxr.
    { apply Hle. apply elem_of_take. exists (S k). split; [done | lia]. }
    pose proof (before_lookup l k (S k) s x Hord ltac:(lia) Hk Hx) as Hb.
    unfold before in Hb.
    assert (rm < x); [| lia]. apply word_lt_iff. span_lia. }
  assert (Hiff : rm < s ↔
                 Span.start rm = Span.start s ∧ Span.size rm < Span.size s).
  { rewrite word_lt_iff. span_lia. }
  destruct (Z.eqb_spec (Span.start rm) (Span.start s)) as [Hst | Hst];
    [destruct (Z.ltb_spec (Span.size rm) (Span.size s)) as [Hsz | Hsz] |];
    cbn [andb].
  - destruct (decide (n = k)) as [| Hne]; [done |]. exfalso.
    assert (rm < s) as Hlt by (apply Hiff; done).
    assert (s ≤ rm); [| lia].
    apply Hle. apply elem_of_take. exists k. split; [done | lia].
  - destruct (decide (n = S k)) as [| Hne]; [done |]. exfalso.
    assert (rm < s) as Hlt.
    { apply Hgt. apply (list_elem_of_lookup_2 _ 0).
      rewrite lookup_drop. replace (n + 0)%nat with k by lia. done. }
    apply Hiff in Hlt. lia.
  - destruct (decide (n = S k)) as [| Hne]; [done |]. exfalso.
    assert (rm < s) as Hlt.
    { apply Hgt. apply (list_elem_of_lookup_2 _ 0).
      rewrite lookup_drop. replace (n + 0)%nat with k by lia. done. }
    apply Hiff in Hlt. lia.
Qed.

Lemma split_at (l : list freespan) (k : nat) (s : freespan) :
  StronglySorted before l → l !! k = Some s →
  StronglySorted before (take k l) ∧
  StronglySorted before (drop (S k) l) ∧
  Forall (λ a, Span.start a + Span.size a ≤ Span.start s) (take k l) ∧
  Forall (λ b, Span.start s + Span.size s ≤ Span.start b) (drop (S k) l).
Proof.
  intros Hord Hk. rewrite <- (take_drop_middle l k s Hk) in Hord.
  apply StronglySorted_app in Hord as (Hcross & Hpre & Hpost).
  apply StronglySorted_inv in Hpost as [Hpost Hs].
  split; [done |]. split; [done |]. split; [| done].
  apply Forall_forall. intros a Ha. apply (Hcross a s Ha).
  apply list_elem_of_here.
Qed.

(** Putting the list [mid], which lies inside [l[k]], in the place of
    [l[k]]. *)
Lemma replace_inside (l mid : list freespan) (k : nat) (s : freespan) :
  StronglySorted before l → l !! k = Some s →
  StronglySorted before mid →
  Forall (λ a, Span.start s ≤ Span.start a ∧
               Span.start a + Span.size a ≤ Span.start s + Span.size s) mid →
  in_order (take k l ++ mid ++ drop (S k) l).
Proof.
  intros Hord Hk Hmid Hin.
  destruct (split_at l k s Hord Hk) as (Hpre & Hpost & Hends & Hstarts).
  pose proof (size_range s) as Hsz.
  rewrite Forall_forall in Hin.
  apply (in_order_splice _ _ _ (Span.start s)); try done.
  - apply Forall_forall. intros a Ha. exact (proj1 (Hin a Ha)).
  - eapply Forall_impl; [exact Hstarts |]. intros b Hb. cbv beta in Hb.
    span_lia.
  - intros a b Ha Hb. rewrite Forall_forall in Hstarts.
    specialize (Hstarts b Hb). specialize (Hin a Ha). cbv beta in *.
    unfold before. lia.
Qed.

Lemma replace_inside_covers (l mid : list freespan) (k : nat)
    (s rm : freespan) (pg : pgid) :
  words_ok l → StronglySorted before l → l !! k = Some s →
  is_uint64 rm → is_uint64 pg →
  Span.start s ≤ Span.start rm →
  Span.start rm + Span.size rm ≤ Span.start s + Span.size s →
  (covers mid pg ↔
   Span.contains s pg = true ∧ Span.contains rm pg = false) →
  covers (take k l ++ mid ++ drop (S k) l) pg ↔
  covers l pg ∧ Span.contains rm pg = false.
Proof.
  intros Hok Hord Hk Hrm Hpg Hlo Hhi Hmid.
  destruct (split_at l k s Hord Hk) as (_ & _ & Hends & Hstarts).
  unfold words_ok in Hok. pose proof Hok as Hok2.
  rewrite <- (take_drop_middle l k s Hk) in Hok2.
  apply Forall_app in Hok2 as [Hokpre Hokpost].
  apply Forall_cons in Hokpost as [Hsu Hokpost].
  assert (Hout : ∀ x, is_uint64 x →
            (Span.start x + Span.size x ≤ Span.start s ∨
             Span.start s + Span.size s ≤ Span.start x) →
            Span.contains x pg = true → Span.contains rm pg = false).
  { intros x Hx Hside Hc. apply not_true_is_false. intros Hr.
    apply contains_spec in Hc; [| done | done].
    apply contains_spec in Hr; [| done | done]. lia. }
  assert (Hpre : covers (take k l) pg → Span.contains rm pg = false).
  { intros (x & Hx & Hc). rewrite Forall_forall in Hends, Hokpre.
    apply (Hout x); [by apply Hokpre | left; by apply Hends | done]. }
  assert (Hpost : covers (drop (S k) l) pg → Span.contains rm pg = false).
  { intros (x & Hx & Hc). rewrite Forall_forall in Hstarts, Hokpost.
    apply (Hout x); [by apply Hokpost | right; by apply Hstarts | done]. }
  rewrite <- (take_drop_middle l k s Hk) at 3.
  rewrite !covers_app, covers_cons, Hmid. tauto.
Qed.

(** One removal of [reload], with the spans that take the place of
    [l[k]]: they lie inside [l[k]], hold its pages outside [rm], and every
    span inside [l[k]] that is apart from [rm] lies inside one of them. *)
Lemma reload_remove_aux (l : list freespan) (rm s : freespan) (k : nat) :
  words_ok l → StronglySorted before l → is_uint64 rm → Span.size rm ≠ 0 →
  l !! k = Some s →
  Span.start s ≤ Span.start rm →
  Span.start rm + Span.size rm ≤ Span.start s + Span.size s →
  Span.start s + Span.size s ≤ freespanMaxStart →
  if (S k =? length l)%nat
     && negb ((Span.start rm =? Span.start s)
              && (Span.size rm <? Span.size s))
  then reload_remove l rm = Panic "index out of range"
  else ∃ mid, reload_remove l rm = Ok (take k l ++ mid ++ drop (S k) l) ∧
              words_ok mid ∧ StronglySorted before mid ∧
              Forall (λ a, Span.start s ≤ Span.start a ∧
                           Span.start a + Span.size a
                           ≤ Span.start s + Span.size s) mid ∧
              (∀ pg, is_uint64 pg →
                     (covers mid pg ↔
                      Span.contains s pg = true ∧
                      Span.contains rm pg = false)) ∧
              ∀ r, Span.size r ≠ 0 →
                   Span.start s ≤ Span.start r →
                   Span.start r + Span.size r ≤ Span.start s + Span.size s →
                   Span.start r + Span.size r ≤ Span.start rm ∨
                   Span.start rm + Span.size rm ≤ Span.start r →
                   ∃ a, a ∈ mid ∧ Span.start a ≤ Span.start r ∧
                        Span.start r + Span.size r
                        ≤ Span.start a + Span.size a.
Proof.
  intros Hok Hord Hrm Hrmne Hk Hlo Hhi Hroom.
  assert (Hmax : freespanMaxStart = 2 ^ 48 - 1) by reflexivity.
  rewrite Hmax in Hroom.
  pose proof (lookup_lt_Some _ _ _ Hk) as Hklen.
  assert (Hsu : is_uint64 s).
  { unfold words_ok in Hok. rewrite Forall_lookup in Hok. by eapply Hok. }
  pose proof (size_range rm) as Hrsz. pose proof (size_range s) as Hssz.
  pose proof (start_range rm Hrm) as Hrst. pose proof (start_range s Hsu) as Hsst.
  assert (Hokpre : words_ok (take k l)) by (by apply Forall_take).
  assert (Hokpost : words_ok (drop (S k) l)) by (by apply Forall_drop).
  assert (Hnext : ∀ x, is_uint64 x →
            Span.next x = Span.start x + Span.size x).
  { intros x Hx. pose proof (start_range x Hx). pose proof (size_range x).
    unfold Span.next. apply wrap64_small. span_lia. }
  assert (Hone : ∀ x pg, covers [x] pg ↔ Span.contains x pg = true).
  { intros x pg. rewrite covers_cons, covers_nil. tauto. }
  assert (Hnotc : ∀ x pg, Span.contains x pg = false ↔
                          ¬ Span.contains x pg = true).
  { intros x pg. destruct (Span.contains x pg); split; done. }
  unfold reload_remove.
  rewrite (reload_search l rm s k Hord Hrmne Hk Hlo Hhi).
  destruct (Z.eqb_spec (Span.start rm) (Span.start s)) as [Hst | Hst];
    [destruct (Z.ltb_spec (Span.size rm) (Span.size s)) as [Hsz | Hsz] |];
    cbn [andb negb]; rewrite ?andb_false_r, ?andb_true_r.
  - (* a strict prefix *)
    unfold index. rewrite Hk. cbn [obind].
    destruct (Z.eqb_spec (Span.start rm) (Span.start s)); [| done].
    rewrite (wrap64_small (_ + _)) by span_lia.
    rewrite (wrap64_small (_ - _)) by span_lia.
    rewrite makeFreespan_ok
      by (try rewrite Hmax; try change freespanMaxSize with 65535; span_lia).
    cbn [obind].
    set (x := pack (Span.start s + Span.size rm) (Span.size s - Span.size rm)).
    assert (Hxu : is_uint64 x) by (apply pack_uint64; span_lia).
    assert (Hxst : Span.start x = Span.start s + Span.size rm)
      by (apply start_pack; span_lia).
    assert (Hxsz : Span.size x = Span.size s - Span.size rm)
      by (apply size_pack; span_lia).
    exists [x]. split; [by rewrite insert_take_drop by lia |].
    split; [by constructor |]. split; [repeat constructor |].
    split; [constructor; [| constructor]; rewrite Hxst, Hxsz; span_lia |].
    split; [intros pg Hpg; rewrite Hone, Hnotc, !contains_spec by done;
            rewrite Hxst, Hxsz; span_lia |].
    intros r Hrne Hrlo Hrhi Hap. pose proof (size_range r) as Hrr.
    exists x. split; [apply list_elem_of_here |].
    rewrite Hxst, Hxsz. span_lia.
  - (* the whole span, or none of the cases of the source *)
    destruct (Nat.eqb_spec (S k) (length l)) as [Hlast | Hmore].
    + unfold index. rewrite lookup_ge_None_2 by lia. reflexivity.
    + destruct (lookup_lt_is_Some_2 l (S k)) as [s' Hs']; [lia |].
      pose proof (before_lookup l k (S k) s s' Hord ltac:(lia) Hk Hs') as Hb.
      unfold before in Hb.
      unfold index. rewrite Hs', Hk. cbn [obind].
      destruct (Z.eqb_spec (Span.start rm) (Span.start s')); [span_lia |].
      destruct (Z.eqb_spec (Span.start s) (Span.start rm)); [| span_lia].
      destruct (Z.eqb_spec (Span.size rm) (Span.size s)); [| span_lia].
      cbn [negb].
      rewrite makeFreespan_ok
        by (try rewrite Hmax; try change freespanMaxSize with 65535; span_lia).
      cbn [obind]. set (x := pack (Span.start s) 0).
      assert (Hxu : is_uint64 x) by (apply pack_uint64; span_lia).
      assert (Hxst : Span.start x = Span.start s) by (by apply start_pack).
      assert (Hxsz : Span.size x = 0) by (by apply size_pack).
      exists [x]. split; [by rewrite insert_take_drop by lia |].
      split; [by constructor |]. split; [repeat constructor |].
      split; [constructor; [| constructor]; rewrite Hxst, Hxsz; span_lia |].
      split; [intros pg Hpg; rewrite Hone, Hnotc, !contains_spec by done;
              rewrite Hxst, Hxsz; span_lia |].
      intros r Hrne Hrlo Hrhi Hap. pose proof (size_range r) as Hrr.
      exists x. split; [apply list_elem_of_here |].
      rewrite Hxst, Hxsz. span_lia.
  - (* a suffix or a middle part *)
    destruct (Nat.eqb_spec (S k) (length l)) as [Hlast | Hmore].
    + unfold index. rewrite lookup_ge_None_2 by lia. reflexivity.
    + destruct (lookup_lt_is_Some_2 l (S k)) as [s' Hs']; [lia |].
      pose proof (before_lookup l k (S k) s s' Hord ltac:(lia) Hk Hs') as Hb.
      unfold before in Hb.
      unfold index. rewrite Hs', Hk. cbn [obind].
      destruct (Z.eqb_spec (Span.start rm) (Span.start s')); [span_lia |].
      destruct (Z.eqb_spec (Span.start s) (Span.start rm)); [span_lia |].
      assert (Hin : Span.contains s (Span.start rm) = true).
      { apply contains_spec; [done | unfold is_uint64; span_lia | span_lia]. }
      rewrite Hin. cbn [negb]. rewrite !Hnext by done.
      destruct (Z.eqb_spec (Span.start s + Span.size s)
                           (Span.start rm + Span.size rm)) as [Hsuf | Hmid].
      * rewrite (wrap64_small (_ - _)) by span_lia.
        rewrite makeFreespan_ok
          by (try rewrite Hmax; try change freespanMaxSize with 65535; span_lia).
        cbn [obind].
        set (x := pack (Span.start s) (Span.size s - Span.size rm)).
        assert (Hxu : is_uint64 x) by (apply pack_uint64; span_lia).
        assert (Hxst : Span.start x = Span.start s)
          by (apply start_pack; span_lia).
        assert (Hxsz : Span.size x = Span.size s - Span.size rm)
          by (apply size_pack; span_lia).
        exists [x]. split; [by rewrite insert_take_drop by lia |].
        split; [by constructor |]. split; [repeat constructor |].
        split; [constructor; [| constructor]; rewrite Hxst, Hxsz; span_lia |].
        split; [intros pg Hpg; rewrite Hone, Hnotc, !contains_spec by done;
                rewrite Hxst, Hxsz; span_lia |].
        intros r Hrne Hrlo Hrhi Hap. pose proof (size_range r) as Hrr.
        exists x. split; [apply list_elem_of_here |].
        rewrite Hxst, Hxsz. span_lia.
      * rewrite (wrap64_small (Span.start rm - Span.start s)) by span_lia.
        rewrite makeFreespan_ok
          by (try rewrite Hmax; try change freespanMaxSize with 65535; span_lia).
        cbn [obind].
        rewrite (wrap64_small (_ - _)) by span_lia.
        rewrite makeFreespan_ok
          by (try rewrite Hmax; try change freespanMaxSize with 65535; span_lia).
        cbn [obind].
        set (x := pack (Span.start s) (Span.start rm - Span.start s)).
        set (y := pack (Span.start rm + Span.size rm)
                       (Span.start s + Span.size s
                        - (Span.start rm + Span.size rm))).
        assert (Hxu : is_uint64 x) by (apply pack_uint64; span_lia).
        assert (Hyu : is_uint64 y) by (apply pack_uint64; span_lia).
        assert (Hxst : Span.start x = Span.start s)
          by (apply start_pack; span_lia).
        assert (Hxsz : Span.size x = Span.start rm - Span.start s)
          by (apply size_pack; span_lia).
        assert (Hyst : Span.start y = Span.start rm + Span.size rm)
          by (apply start_pack; span_lia).
        assert (Hysz : Span.size y = Span.start s + Span.size s
                                     - (Span.start rm + Span.size rm))
          by (apply size_pack; span_lia).
        exists [x; y]. split; [by rewrite free_insert_shape by lia |].
        split; [constructor; [done |]; by constructor |].
        split.
        { constructor; [repeat constructor |].
          constructor; [| constructor]. unfold before.
          rewrite Hxst, Hxsz, Hyst. span_lia. }
        split.
        { constructor; [rewrite Hxst, Hxsz; span_lia |].
          constructor; [| constructor]. rewrite Hyst, Hysz. span_lia. }
        split.
        { intros pg Hpg.
          rewrite !covers_cons, covers_nil, Hnotc, !contains_spec by done.
          rewrite Hxst, Hxsz, Hyst, Hysz. span_lia. }
        intros r Hrne Hrlo Hrhi [Hap | Hap]; pose proof (size_range r) as Hrr.
        -- exists x. split; [apply list_elem_of_here |].
           rewrite Hxst, Hxsz. span_lia.
        -- exists y.
           split; [apply list_elem_of_further, list_elem_of_here |].
           rewrite Hyst, Hysz. span_lia.
Qed.

(** X24. One removal of [reload]. Let [rm] be a span that is not empty and
    lies inside the span [l[k]] of a list of spans in order. When [l[k]] is
    the last span and [rm] is not a strict prefix of it, the removal panics
    on an index out of range. In every other case it returns a list, again
    in order, that holds exactly the pages of [l] outside [rm]. *)
Theorem reload_remove_spec (l : list freespan) (rm s : freespan) (k : nat) :
  words_ok l → in_order l → is_uint64 rm → Span.size rm ≠ 0 →
  l !! k = Some s →
  Span.start s ≤ Span.start rm →
  Span.start rm + Span.size rm ≤ Span.start s + Span.size s →
  Span.start s + Span.size s ≤ freespanMaxStart →
  if (S k =? length l)%nat
     && negb ((Span.start rm =? Span.start s)
              && (Span.size rm <? Span.size s))
  then reload_remove l rm = Panic "index out of range"
  else ∃ l', reload_remove l rm = Ok l' ∧
             words_ok l' ∧ in_order l' ∧
             ∀ pg, is_uint64 pg →
                   (covers l' pg ↔
                    covers l pg ∧ Span.contains rm pg = false).
Proof.
  intros Hok Hord Hrm Hrmne Hk Hlo Hhi Hroom.
  apply in_order_strong in Hord.
  pose proof (reload_remove_aux l rm s k Hok Hord Hrm Hrmne Hk Hlo Hhi Hroom)
    as H.
  destruct ((S k =? length l)%nat
            && negb ((Span.start rm =? Span.start s)
                     && (Span.size rm <? Span.size s))); [done |].
  destruct H as (mid & Heq & Hmok & Hms & Hmin & Hmc & _).
  exists (take k l ++ mid ++ drop (S k) l). split; [done |].
  split; [| split].
  - apply Forall_app. split; [by apply Forall_take |].
    apply Forall_app. split; [done | by apply Forall_drop].
  - by apply (replace_inside l mid k s).
  - intros pg Hpg. apply (replace_inside_covers l mid k s rm pg); try done.
    by apply Hmc.
Qed.

Lemma reload_remove_spec_witness :
  ∃ l', reload_remove [pack 10 5; pack 20 4] (pack 11 1) = Ok l' ∧
        words_ok l' ∧ in_order l' ∧
        ∀ pg, is_uint64 pg →
              (covers l' pg ↔
               covers [pack 10 5; pack 20 4] pg ∧
               Span.contains (pack 11 1) pg = false).
Proof.
  apply (reload_remove_spec [pack 10 5; pack 20 4] (pack 11 1) (pack 10 5) 0).
  - constructor; [unfold is_uint64, pack; lia |].
    constructor; [unfold is_uint64, pack; lia | constructor].
  - split; [| exact I]. vm_compute. discriminate.
  - unfold is_uint64, pack. lia.
  - vm_compute. discriminate.
  - reflexivity.
  - vm_compute. discriminate.
  - vm_compute. discriminate.
  - vm_compute. discriminate.
Defined.

(** ** The removal loop of [reload] *)

Lemma next_sum (x : freespan) :
  is_uint64 x → Span.next x = Span.start x + Span.size x.
Proof.
  intros Hx. pose proof (start_range x Hx) as Hs.
  pose proof (size_range x) as Hz.
  change freespanMaxStart with (2 ^ 48 - 1) in Hs.
  unfold Span.next. apply wrap64_small. span_lia.
Qed.

(** The loop leaves the last span [z] alone when every span to remove lies
    inside an earlier one. *)
Lemma reload_loop_aux (rms : list freespan) :
  ∀ (l : list freespan) (z : freespan),
    words_ok (l ++ [z]) → StronglySorted before (l ++ [z]) →
    words_ok rms → no_empty rms → StronglySorted before rms →
    Forall (λ r, ∃ s, s ∈ l ∧ Span.start s ≤ Span.start r ∧
                      Span.start r + Span.size r
                      ≤ Span.start s + Span.size s) rms →
    ∃ l', reload_loop rms (l ++ [z]) = Ok (l' ++ [z]) ∧
          words_ok l' ∧ StronglySorted before (l' ++ [z]) ∧
          ∀ pg, is_uint64 pg →
                (covers l' pg ↔
                 covers l pg ∧
                 Forall (λ r, Span.contains r pg = false) rms).
Proof.
  induction rms as [| rm rms IH]; intros l z Hok Hord Hrok Hne Hrs Hin.
  - exists l. split; [reflexivity |].
    split; [by apply Forall_app in Hok as [? _] |]. split; [done |].
    intros pg Hpg. split; [intros Hc; split; [done | constructor] |].
    by intros [Hc _].
  - apply Forall_cons in Hrok as [Hrm Hrok].
    apply Forall_cons in Hne as [Hrmne Hne].
    apply StronglySorted_inv in Hrs as [Hrs Hafter].
    apply Forall_cons in Hin as [(s & Hs & Hlo & Hhi) Hin].
    apply list_elem_of_lookup_1 in Hs as [k Hk].
    pose proof (lookup_lt_Some _ _ _ Hk) as Hklen.
    pose proof (lookup_app_l_Some l [z] k s Hk) as Hk'.
    pose proof Hok as Hok2. apply Forall_app in Hok2 as [Hlok Hzok].
    apply Forall_cons in Hzok as [Hz _].
    pose proof Hord as Hord2.
    apply StronglySorted_app in Hord2 as (Hcross & Hlord & _).
    assert (Hsz : before s z).
    { apply Hcross; [by eapply list_elem_of_lookup_2 | apply list_elem_of_here]. }
    unfold before in Hsz.
    pose proof (start_range z Hz) as Hzr.
    assert (Hroom : Span.start s + Span.size s ≤ freespanMaxStart)
      by span_lia.
    pose proof (reload_remove_aux (l ++ [z]) rm s k
                  Hok Hord Hrm Hrmne Hk' Hlo Hhi Hroom) as H.
    assert (Hnl : (S k =? length (l ++ [z]))%nat = false).
    { apply Nat.eqb_neq. rewrite length_app. cbn [length]. lia. }
    rewrite Hnl in H. cbn [andb] in H.
    destruct H as (mid & Heq & Hmok & Hms & Hmin & Hmc & Hrest).
    set (l1 := take k l ++ mid ++ drop (S k) l).
    assert (Hshape : take k (l ++ [z]) ++ mid ++ drop (S k) (l ++ [z])
                     = l1 ++ [z]).
    { rewrite take_app_le, drop_app_le by lia. unfold l1.
      by rewrite <- !app_assoc. }
    rewrite Hshape in Heq.
    assert (Hl1ok : words_ok l1).
    { apply Forall_app. split; [by apply Forall_take |].
      apply Forall_app. split; [done | by apply Forall_drop]. }
    assert (Hl1okz : words_ok (l1 ++ [z])).
    { apply Forall_app. split; [done | by constructor]. }
    assert (Hl1ord : StronglySorted before (l1 ++ [z])).
    { apply in_order_strong. rewrite <- Hshape.
      by apply (replace_inside (l ++ [z]) mid k s). }
    assert (Hin1 : Forall (λ r, ∃ s0, s0 ∈ l1 ∧
                             Span.start s0 ≤ Span.start r ∧
                             Span.start r + Span.size r
                             ≤ Span.start s0 + Span.size s0) rms).
    { rewrite Forall_forall in Hin, Hafter. unfold no_empty in Hne.
      rewrite Forall_forall in Hne.
      apply Forall_forall. intros r Hr.
      destruct (Hin r Hr) as (s0 & Hs0 & Hlo0 & Hhi0).
      rewrite <- (take_drop_middle l k s Hk) in Hs0.
      apply elem_of_app in Hs0 as [Hs0 | Hs0].
      - exists s0. split; [| done]. unfold l1. apply elem_of_app. by left.
      - apply elem_of_cons in Hs0 as [-> | Hs0].
        + destruct (Hrest r (Hne r Hr) Hlo0 Hhi0 (or_intror (Hafter r Hr)))
            as (a & Ha & Hia).
          exists a. split; [| done]. unfold l1. rewrite !elem_of_app.
          right. by left.
        + exists s0. split; [| done]. unfold l1. rewrite !elem_of_app.
          right. by right. }
    destruct (IH l1 z Hl1okz Hl1ord Hrok Hne Hrs Hin1)
      as (l' & Hloop & Hl'ok & Hl'ord & Hl'c).
    exists l'. cbn [reload_loop]. rewrite Heq. cbn [obind].
    split; [done |]. split; [done |]. split; [done |].
    intros pg Hpg. rewrite (Hl'c pg Hpg), Forall_cons.
    assert (Hc1 : covers l1 pg ↔ covers l pg ∧ Span.contains rm pg = false).
    { apply (replace_inside_covers l mid k s rm pg); try done.
      by apply Hmc. }
    rewrite Hc1. tauto.
Qed.

(** X25. The removal loop of [reload]. Let the spans to remove be not empty
    and in order, as [free] leaves a pending list, and let each of them lie
    inside an available span other than the last one. Then the loop
    returns; the list it returns is again in order, ends in the same last
    span, and holds exactly the available pages that lie in none of the
    removed spans. *)
Theorem reload_loop_removes (rms l : list freespan) (z : freespan) :
  words_ok (l ++ [z]) → in_order (l ++ [z]) →
  words_ok rms → no_empty rms → in_order rms →
  Forall (λ r, ∃ s, s ∈ l ∧ sub_span r s) rms →
  ∃ l', reload_loop rms (l ++ [z]) = Ok (l' ++ [z]) ∧
        words_ok (l' ++ [z]) ∧ in_order (l' ++ [z]) ∧
        ∀ pg, is_uint64 pg →
              (covers (l' ++ [z]) pg ↔
               covers (l ++ [z]) pg ∧
               Forall (λ r, Span.contains r pg = false) rms).
Proof.
  intros Hok Hord Hrok Hne Hrs Hin.
  apply in_order_strong in Hord. apply in_order_strong in Hrs.
  pose proof Hok as Hok2. apply Forall_app in Hok2 as [Hlok Hzok].
  apply Forall_cons in Hzok as [Hz _].
  pose proof Hord as Hord2.
  apply StronglySorted_app in Hord2 as (Hcross & _ & _).
  unfold words_ok in Hrok, Hlok. rewrite Forall_forall in Hrok, Hlok.
  assert (Hin' : Forall (λ r, ∃ s, s ∈ l ∧ Span.start s ≤ Span.start r ∧
                              Span.start r + Span.size r
                              ≤ Span.start s + Span.size s) rms).
  { rewrite Forall_forall in Hin. apply Forall_forall. intros r Hr.
    destruct (Hin r Hr) as (s & Hs & Hlo & Hhi).
    rewrite (next_sum r (Hrok r Hr)), (next_sum s (Hlok s Hs)) in Hhi.
    by exists s. }
  destruct (reload_loop_aux rms l z Hok Hord
              (proj2 (Forall_forall _ _) Hrok) Hne Hrs Hin')
    as (l' & Hloop & Hl'ok & Hl'ord & Hl'c).
  exists l'. split; [done |].
  split; [apply Forall_app; split; [done | by constructor] |].
  split; [by apply in_order_strong |].
  intros pg Hpg. rewrite !covers_app, (Hl'c pg Hpg), covers_cons, covers_nil.
  assert (Hzc : Span.contains z pg = true →
                Forall (λ r, Span.contains r pg = false) rms).
  { intros Hc. apply contains_spec in Hc; [| done | done].
    rewrite Forall_forall in Hin'. apply Forall_forall. intros r Hr.
    destruct (Hin' r Hr) as (s & Hs & Hlo & Hhi).
    assert (Hb : before s z) by (apply Hcross; [done | apply list_elem_of_here]).
    unfold before in Hb. apply not_true_is_false. intros Hrc.
    apply contains_spec in Hrc; [| by apply Hrok | done]. span_lia. }
  tauto.
Qed.

Lemma reload_loop_removes_witness :
  ∃ l', reload_loop [pack 11 1; pack 13 1] ([pack 10 5] ++ [pack 20 4])
        = Ok (l' ++ [pack 20 4]) ∧
        words_ok (l' ++ [pack 20 4]) ∧ in_order (l' ++ [pack 20 4]) ∧
        ∀ pg, is_uint64 pg →
              (covers (l' ++ [pack 20 4]) pg ↔
               covers ([pack 10 5] ++ [pack 20 4]) pg ∧
               Forall (λ r, Span.contains r pg = false)
                      [pack 11 1; pack 13 1]).
Proof.
  apply (reload_loop_removes [pack 11 1; pack 13 1] [pack 10 5] (pack 20 4)).
  - constructor; [unfold is_uint64, pack; lia |].
    constructor; [unfold is_uint64, pack; lia | constructor].
  - split; [| exact I]. vm_compute. discriminate.
  - constructor; [unfold is_uint64, pack; lia |].
    constructor; [unfold is_uint64, pack; lia | constructor].
  - constructor; [vm_compute; discriminate |].
    constructor; [vm_compute; discriminate | constructor].
  - split; [| exact I]. vm_compute. discriminate.
  - constructor.
    + exists (pack 10 5). split; [apply list_elem_of_here |].
      split; vm_compute; discriminate.
    + constructor; [| constructor].
      exists (pack 10 5). split; [apply list_elem_of_here |].
      split; vm_compute; discriminate.
Defined.

(** ** [reload] and the free list it is called on *)

Lemma read_frame (f g : freelist) (p : page) :
  pending f = pending g → read f p = read g p.
Proof. intros H. unfold read. by rewrite H. Qed.

Lemma read_pending (f f1 : freelist) (p : page) :
  read f p = Ok f1 → pending f1 = pending f.
Proof.
  intros H. unfold read in H. apply obind_Ok in H as ([idx cnt] & _ & H).
  destruct (cnt =? 0); [by injection H as <- |].
  apply obind_Ok in H as (words & _ & H). by injection H as <-.
Qed.

(** X26. [reload] looks at the pending map of the free list only: the
    available list it is called on plays no part in what it does. It leaves
    the pending map as it was, and on a free list with nothing pending it
    does what [read] does. *)
Theorem reload_frame (f g : freelist) (p : page) :
  pending f = pending g →
  reload f p = reload g p ∧
  (∀ f', reload f p = Ok f' → pending f' = pending g) ∧
  (pending g = ∅ → reload f p = read g p).
Proof.
  intros Hfg. split; [| split].
  - unfold reload. by rewrite (read_frame f g p Hfg).
  - intros f' H. unfold reload in H.
    apply obind_Ok in H as (f1 & Hread & H).
    apply obind_Ok in H as (rms & _ & H).
    apply obind_Ok in H as (l & _ & H).
    injection H as <-. cbn [pending]. rewrite <- Hfg.
    by apply (read_pending f f1 p).
  - intros Hnone. unfold reload. rewrite (read_frame f g p Hfg).
    destruct (read g p) as [f1 | msg |] eqn:Hread; [| done | done].
    cbn [obind]. pose proof (read_pending g f1 p Hread) as Hp.
    rewrite Hnone in Hp. destruct f1 as [l1 p1]. cbn [pending] in Hp.
    subst p1. unfold pending_lists. cbn [pending spans].
    rewrite map_to_list_empty. reflexivity.
Qed.

Lemma reload_frame_witness :
  let p := {| id := 7; flags := 0; count := 2; overflow := 0;
              ptr := [pack 50 1; pack 23 1; 99] |} in
  reload (only_available [pack 99 1]) p = reload newFreelist p ∧
  reload (only_available [pack 99 1]) p
  = Ok (only_available [pack 23 1; pack 50 1]).
Proof.
  intros p.
  destruct (reload_frame (only_available [pack 99 1]) newFreelist p)
    as (Hsame & _ & Hread); [reflexivity |].
  split; [exact Hsame |]. rewrite Hread by reflexivity. reflexivity.
Defined.
